(** * jump: verification of the resolution pipeline

    A shallow embedding of the Go sources of the redirection service
    (query parser, scorer, memory index, cache store, resolver, catalog
    loader, reconciler and garbage collector) together with the
    properties claimed for them.

    Modelling conventions.
    - A Go [string] / [[]byte] is a [list ascii], a list of bytes.  Where
      the code ranges over the runes of a string (calculateSimilarity) the
      UTF-8 decoding is written out.  The Unicode tables behind
      [strings.ToLower], [unicode.IsLetter] and [unicode.IsDigit] are
      restricted to their ASCII rows: these three functions are exact on
      ASCII text (queries, DNS hostnames, catalog bytes).
    - A [float64] score is a real number in [Domain]: arithmetic is exact
      and [math.Exp], [math.Log10] are the real functions.  The ranking is
      also given over an arbitrary arithmetic ([Float64]), of which the
      real numbers are one instance, and its order and stability are
      proved there.
    - [time.Time] is an integer count of nanoseconds since the zero
      instant, so [IsZero] is equality with 0; [time.Duration] and
      [int64] are integers in Z with the wrap-around or saturation
      written out.
    - A Go map is an association list with unique keys; its iteration
      order, unspecified in Go, is the list order, so a statement over all
      index states covers every iteration order.
    - A response of the resolver is the call of http.Redirect that
      produces it: the status and the url handed over.  The Location
      header that the call sets is computed from the url by [NetHTTP].
    - Pointers to entries are replaced by the entries themselves and
      mutation by functional update of the store that owns them. *)

From Stdlib Require Import Ascii String Bool Arith NArith ZArith Lia.
From Stdlib Require Import Reals Lra List Permutation Sorted.
Import ListNotations.

Set Implicit Arguments.

(** ** Package strings (the part of Go's library the sources call) *)

Module Strings.

Definition str (s : string) : list ascii := list_ascii_of_string s.

Definition eqs (a b : list ascii) : bool :=
  if list_eq_dec ascii_dec a b then true else false.

Definition isUpper (c : ascii) : bool :=
  (65 <=? nat_of_ascii c)%nat && (nat_of_ascii c <=? 90)%nat.

Definition isLower (c : ascii) : bool :=
  (97 <=? nat_of_ascii c)%nat && (nat_of_ascii c <=? 122)%nat.

Definition isDigit (c : ascii) : bool :=
  (48 <=? nat_of_ascii c)%nat && (nat_of_ascii c <=? 57)%nat.

Definition isLetter (c : ascii) : bool := isUpper c || isLower c.

Definition toLowerRune (c : ascii) : ascii :=
  if isUpper c then ascii_of_nat (nat_of_ascii c + 32) else c.

(* strings.ToLower *)
Definition ToLower (s : list ascii) : list ascii := map toLowerRune s.

(* the ASCII white space of strings.TrimSpace: \t \n \v \f \r and space *)
Definition isSpace (c : ascii) : bool :=
  let n := nat_of_ascii c in
  ((9 <=? n)%nat && (n <=? 13)%nat) || (n =? 32)%nat.

Fixpoint dropWhile (p : ascii -> bool) (s : list ascii) : list ascii :=
  match s with
  | [] => []
  | c :: t => if p c then dropWhile p t else s
  end.

(* strings.TrimSpace *)
Definition TrimSpace (s : list ascii) : list ascii :=
  rev (dropWhile isSpace (rev (dropWhile isSpace s))).

(* strings.HasPrefix(s, prefix) *)
Fixpoint HasPrefix (s prefix : list ascii) : bool :=
  match prefix, s with
  | [], _ => true
  | _ :: _, [] => false
  | p :: prefix', c :: s' => Ascii.eqb c p && HasPrefix s' prefix'
  end.

(* strings.HasSuffix(s, suffix) *)
Definition HasSuffix (s suffix : list ascii) : bool :=
  HasPrefix (rev s) (rev suffix).

(* strings.TrimPrefix(s, prefix) *)
Definition TrimPrefix (s prefix : list ascii) : list ascii :=
  if HasPrefix s prefix then skipn (length prefix) s else s.

Fixpoint indexFrom (s substr : list ascii) : option nat :=
  if HasPrefix s substr then Some 0%nat
  else match s with
       | [] => None
       | _ :: t => option_map S (indexFrom t substr)
       end.

(* strings.Index(s, substr): the first position of substr, -1 if none *)
Definition Index (s substr : list ascii) : Z :=
  match indexFrom s substr with
  | Some i => Z.of_nat i
  | None => (-1)%Z
  end.

(* strings.Contains(s, substr) *)
Definition Contains (s substr : list ascii) : bool := (0 <=? Index s substr)%Z.

(** *** Package unicode/utf8: a string is its bytes, a rune a code point *)

Definition rune := N.

Definition byteOf (c : ascii) : N := N_of_ascii c.

Definition RuneError : rune := 0xFFFD%N.
Definition RuneSelf : N := 0x80%N.

(* the table [first] with [acceptRanges]: for a leading byte from 0x80 on,
   the size of the sequence and the range of its second byte *)
Definition leading (b0 : N) : option (nat * N * N) :=
  (if b0 <? 0xC2 then None
   else if b0 <? 0xE0 then Some (2%nat, 0x80, 0xBF)
   else if b0 =? 0xE0 then Some (3%nat, 0xA0, 0xBF)
   else if b0 <? 0xED then Some (3%nat, 0x80, 0xBF)
   else if b0 =? 0xED then Some (3%nat, 0x80, 0x9F)
   else if b0 <? 0xF0 then Some (3%nat, 0x80, 0xBF)
   else if b0 =? 0xF0 then Some (4%nat, 0x90, 0xBF)
   else if b0 <? 0xF4 then Some (4%nat, 0x80, 0xBF)
   else if b0 =? 0xF4 then Some (4%nat, 0x80, 0x8F)
   else None)%N.

(* locb <= b <= hicb *)
Definition continuation (b : N) : bool := ((0x80 <=? b) && (b <=? 0xBF))%N.

Definition bits (b mask : N) (shift : N) : N := N.shiftl (N.land b mask) shift.

(* utf8.DecodeRuneInString: the rune at the head of [s] and its width; an
   invalid or short sequence decodes to RuneError of width 1 *)
Definition DecodeRuneInString (s : list ascii) : rune * nat :=
  match s with
  | [] => (RuneError, 0%nat)
  | c0 :: t =>
      let b0 := byteOf c0 in
      if (b0 <? RuneSelf)%N then (b0, 1%nat)
      else
        match leading b0 with
        | None => (RuneError, 1%nat)
        | Some (sz, lo, hi) =>
            if (length s <? sz)%nat then (RuneError, 1%nat)
            else
              match t with
              | [] => (RuneError, 1%nat)
              | c1 :: t1 =>
                  let b1 := byteOf c1 in
                  if ((b1 <? lo) || (hi <? b1))%N then (RuneError, 1%nat)
                  else if (sz <=? 2)%nat then
                    (N.lor (bits b0 0x1F 6) (bits b1 0x3F 0), 2%nat)
                  else
                    match t1 with
                    | [] => (RuneError, 1%nat)
                    | c2 :: t2 =>
                        let b2 := byteOf c2 in
                        if negb (continuation b2) then (RuneError, 1%nat)
                        else if (sz <=? 3)%nat then
                          (N.lor (bits b0 0x0F 12)
                                 (N.lor (bits b1 0x3F 6) (bits b2 0x3F 0)),
                           3%nat)
                        else
                          match t2 with
                          | [] => (RuneError, 1%nat)
                          | c3 :: _ =>
                              let b3 := byteOf c3 in
                              if negb (continuation b3) then (RuneError, 1%nat)
                              else
                                (N.lor (bits b0 0x07 18)
                                       (N.lor (bits b1 0x3F 12)
                                              (N.lor (bits b2 0x3F 6)
                                                     (bits b3 0x3F 0))),
                                 4%nat)
                          end
                    end
              end
        end
  end.

(* the runes of [for _, r := range s]; [skip] counts the bytes of the
   current rune still to pass *)
Fixpoint runesFrom (skip : nat) (s : list ascii) : list rune :=
  match s with
  | [] => []
  | _ :: t =>
      match skip with
      | S k => runesFrom k t
      | O => let (r, size) := DecodeRuneInString s in r :: runesFrom (size - 1) t
      end
  end.

Definition runes (s : list ascii) : list rune := runesFrom 0 s.

(* utf8.ValidRune *)
Definition ValidRune (r : rune) : bool :=
  ((r <? 0xD800) || ((0xE000 <=? r) && (r <=? 0x10FFFF)))%N.

Definition byteAt (n : N) : ascii := ascii_of_N (n mod 256).

(* string(r) for a valid rune: utf8.AppendRune *)
Definition encodeRune (r : rune) : list ascii :=
  (if r <? 0x80 then [byteAt r]
   else if r <=? 0x7FF then
     [byteAt (N.lor 0xC0 (N.shiftr r 6)); byteAt (N.lor 0x80 (N.land r 0x3F))]
   else if r <=? 0xFFFF then
     [byteAt (N.lor 0xE0 (N.shiftr r 12));
      byteAt (N.lor 0x80 (N.land (N.shiftr r 6) 0x3F));
      byteAt (N.lor 0x80 (N.land r 0x3F))]
   else
     [byteAt (N.lor 0xF0 (N.shiftr r 18));
      byteAt (N.lor 0x80 (N.land (N.shiftr r 12) 0x3F));
      byteAt (N.lor 0x80 (N.land (N.shiftr r 6) 0x3F));
      byteAt (N.lor 0x80 (N.land r 0x3F))])%N.

(* strings.ContainsRune(s, r), that is IndexRune(s, r) >= 0: a byte search
   for a rune below RuneSelf, a search among the decoded runes for
   RuneError, and a search for the encoding of any other valid rune *)
Definition ContainsRune (s : list ascii) (r : rune) : bool :=
  if (r <? RuneSelf)%N then existsb (fun c => (byteOf c =? r)%N) s
  else if (r =? RuneError)%N then existsb (N.eqb RuneError) (runes s)
  else if negb (ValidRune r) then false
  else Contains s (encodeRune r).

(* strings.Split(s, sep) for a one-character separator *)
Fixpoint Split (s : list ascii) (sep : ascii) : list (list ascii) :=
  match s with
  | [] => [[]]
  | c :: t =>
      if Ascii.eqb c sep then [] :: Split t sep
      else match Split t sep with
           | [] => [[c]]
           | p :: ps => (c :: p) :: ps
           end
  end.

(* strings.Join(parts, sep) *)
Fixpoint Join (parts : list (list ascii)) (sep : list ascii) : list ascii :=
  match parts with
  | [] => []
  | [p] => p
  | p :: ps => p ++ sep ++ Join ps sep
  end.

Definition isEmpty (s : list ascii) : bool :=
  match s with [] => true | _ => false end.

End Strings.

(** ** http.Redirect of the Go library (net/http, net/url, path)

    The handler answers every request with http.Redirect(w, r, url, 302).
    [Location] is the value that call sets for the Location header: the
    url with every byte from 0x80 on %-escaped, after a url in which
    url.Parse finds neither a scheme nor a host was made an absolute path
    from the path of the request.  Of url.Parse only getScheme is written
    out: what the parser makes of a reference without scheme is the
    parameter [parsesAsPath]. *)

Module NetHTTP.
Import Strings.

Definition slash : ascii := "/"%char.

(* the loop of net/url getScheme at index [i], [rest] being rawURL[i:];
   [None] is its error (a colon in front) *)
Fixpoint schemeFrom (rawURL : list ascii) (i : nat) (rest : list ascii)
  : option (list ascii * list ascii) :=
  match rest with
  | [] => Some ([], rawURL)
  | c :: t =>
      if isLetter c then schemeFrom rawURL (S i) t
      else if isDigit c || Ascii.eqb c "+" || Ascii.eqb c "-" || Ascii.eqb c "." then
        (if (i =? 0)%nat then Some ([], rawURL) else schemeFrom rawURL (S i) t)
      else if Ascii.eqb c ":" then
        (if (i =? 0)%nat then None else Some (firstn i rawURL, t))
      else Some ([], rawURL)
  end.

(* getScheme: the scheme and what follows its colon *)
Definition getScheme (rawURL : list ascii) : option (list ascii * list ascii) :=
  schemeFrom rawURL 0 rawURL.

(* u, _, _ := strings.Cut(rawURL, "#") in url.Parse *)
Definition beforeFragment (rawURL : list ascii) : list ascii :=
  match indexFrom rawURL [("#")%char] with
  | Some i => firstn i rawURL
  | None => rawURL
  end.

(* strings.LastIndexByte(s, c): [None] stands for -1 *)
Fixpoint LastIndexByte (s : list ascii) (c : ascii) : option nat :=
  match s with
  | [] => None
  | a :: t =>
      match LastIndexByte t c with
      | Some i => Some (S i)
      | None => if Ascii.eqb a c then Some 0%nat else None
      end
  end.

(* dir, _ := path.Split(p) *)
Definition dirOf (p : list ascii) : list ascii :=
  match LastIndexByte p slash with
  | Some i => firstn (S i) p
  | None => []
  end.

(* path.Clean takes the elements between the slashes one by one; [out]
   holds the elements written so far, the last one first *)
Definition cleanStep (rooted : bool) (out : list (list ascii)) (element : list ascii)
  : list (list ascii) :=
  if isEmpty element || eqs element (str ".") then out
  else if eqs element (str "..") then
    match out with
    | top :: below =>
        (* a [..] on top was kept because nothing could be backtracked *)
        if eqs top (str "..") then element :: out else below
    | [] => if rooted then [] else [element]
    end
  else element :: out.

(* path.Clean *)
Definition Clean (p : list ascii) : list ascii :=
  if isEmpty p then str "."
  else
    let rooted := HasPrefix p [slash] in
    let out := fold_left (cleanStep rooted) (Split p slash) [] in
    let body := Join (rev out) [slash] in
    if rooted then slash :: body
    else if isEmpty body then str "."
    else body.

(* strconv.AppendInt(b, n, 16) for one hexadecimal digit *)
Definition hexDigit (n : N) : ascii :=
  if (n <? 10)%N then ascii_of_N (48 + n) else ascii_of_N (87 + n).

(* hexEscapeNonASCII *)
Definition hexEscapeNonASCII (s : list ascii) : list ascii :=
  flat_map (fun c =>
              if (byteOf c <? RuneSelf)%N then [c]
              else [("%")%char; hexDigit (byteOf c / 16); hexDigit (byteOf c mod 16)])
           s.

Section Redirect.
(* url.Parse on a reference in which getScheme finds no scheme: [true]
   when it returns no error and a URL without host *)
Variable parsesAsPath : list ascii -> bool.

(* u, err := url.Parse(url); err == nil && u.Scheme == "" && u.Host == "" *)
Definition relative (url : list ascii) : bool :=
  match getScheme (beforeFragment url) with
  | Some (scheme, _) => if isEmpty scheme then parsesAsPath url else false
  | None => false
  end.

(* the url made an absolute path from the path of the request *)
Definition absolute (oldpath url : list ascii) : list ascii :=
  let oldpath := if isEmpty oldpath then [slash] else oldpath in
  let url := if negb (HasPrefix url [slash]) then dirOf oldpath ++ url else url in
  let (url, query) :=
    match indexFrom url [("?")%char] with
    | Some i => (firstn i url, skipn i url)
    | None => (url, [])
    end in
  let trailing := HasSuffix url [slash] in
  let url := Clean url in
  let url := if trailing && negb (HasSuffix url [slash]) then url ++ [slash] else url in
  url ++ query.

(* h.Set("Location", ...) in http.Redirect(w, r, url, code), [oldpath]
   being r.URL.Path *)
Definition Location (oldpath url : list ascii) : list ascii :=
  hexEscapeNonASCII (if relative url then absolute oldpath url else url).
End Redirect.

End NetHTTP.

(** ** Package domain: query parsing (resolver.go) *)

Module Domain.
Import Strings.

Record Query := mkQuery {
  Raw : list ascii;
  Fragments : list (list ascii);
  HasDot : bool;
  TopLevelFragments : list (list ascii);
  SubdomainFragments : list (list ascii)
}.

(* splitAndClean(s, " "): split, trim every part, keep the non-empty ones *)
Definition splitAndClean (s : list ascii) (sep : ascii) : list (list ascii) :=
  filter (fun part => negb (isEmpty part)) (map TrimSpace (Split s sep)).

Definition dot : ascii := "."%char.
Definition space : ascii := " "%char.

Definition ParseQuery (input : list ascii) : Query :=
  let input := TrimSpace (ToLower input) in
  if isEmpty input then mkQuery input [] false [] []
  else
    let hasDot := Contains input [dot] in
    if negb hasDot then
      let fr := splitAndClean input space in
      mkQuery input fr hasDot fr []
    else
      let dotParts := Split input dot in
      let top :=
        match dotParts with
        | p0 :: _ => if negb (isEmpty p0) then splitAndClean p0 space else []
        | [] => []
        end in
      let sub :=
        flat_map (fun p => if isEmpty p then [] else splitAndClean p space)
                 (tl dotParts) in
      mkQuery input (top ++ sub) hasDot top sub.

(* HostnameFragments *)
Definition HostnameFragments (hostname : list ascii) : list (list ascii) :=
  Split (ToLower hostname) dot.

(* normalizeFragment: keep letters and digits, lowercased *)
Definition normalizeFragment (s : list ascii) : list ascii :=
  map toLowerRune (filter (fun r => isLetter r || isDigit r) s).

(** *** Entities (service.go, bookmark.go) *)

Record Service := mkService {
  ID : list ascii;
  Hostname : list ascii;
  Name : list ascii;
  Sources : list (list ascii);
  LastSeenAt : Z;
  Counter : Z;
  CreatedAt : Z;
  UpdatedAt : Z;
  LastUsedAt : Z;
  Disabled : bool
}.

Record Bookmark := mkBookmark {
  BID : list ascii;
  Abbr : list ascii;
  URL : list ascii;
  BSources : list (list ascii);
  BCreatedAt : Z;
  BUpdatedAt : Z;
  BDisabled : bool
}.

(** *** Scoring (scoring.go) *)

Local Open Scope R_scope.

Definition ScoreExactMatch : R := 100.
Definition ScorePrefixMatch : R := 75.
Definition ScoreSubstringMatch : R := 50.
Definition ScoreFuzzyMatch : R := 25.
Definition ScorePositionBonus : R := 10.
Definition ScoreLengthBonus : R := 5.
Definition ScoreExactHostnameBonus : R := 200.
Definition ScoreUsageWeight : R := 1 / 10.

(* math.Log10 *)
Definition Log10 (x : R) : R := ln x / ln 10.

Record Candidate := mkCandidate {
  CService : Service;
  LexicalScore : R;
  UsageScore : R;
  TotalScore : R
}.

(* calculatePositionBonus *)
Definition calculatePositionBonus (position : Z) : R :=
  ScorePositionBonus * exp (- IZR position * (3 / 10)).

(* calculateSimilarity: the loop counts the runes of s1 found in s2, and
   the count is divided by len(s1), the number of bytes of s1 *)
Definition calculateSimilarity (s1 s2 : list ascii) : R :=
  if isEmpty s1 || isEmpty s2 then 0
  else
    let matches :=
      fold_left (fun m c => if ContainsRune s2 c then S m else m)
                (runes s1) 0%nat in
    INR matches / INR (length s1).

(* scoreFragment *)
(* scoreFragment from its first test on, [queryFrag] and [hostFrag] being
   the two fragments as normalizeFragment returned them *)
Definition scoreNormalized (queryFrag hostFrag : list ascii) (position : Z) : R :=
  if isEmpty queryFrag || isEmpty hostFrag then 0
  else if eqs queryFrag hostFrag then
    ScoreExactMatch + calculatePositionBonus position
  else if HasPrefix hostFrag queryFrag then
    ScorePrefixMatch + calculatePositionBonus position
  else if Contains hostFrag queryFrag then
    let index := Index hostFrag queryFrag in
    let substringBonus :=
      ScorePositionBonus * (1 - IZR index / INR (length hostFrag)) in
    ScoreSubstringMatch + substringBonus
  else
    let similarity := calculateSimilarity queryFrag hostFrag in
    if Rlt_dec (1 / 2) similarity then ScoreFuzzyMatch * similarity else 0.

(* scoreFragment *)
Definition scoreFragment (queryFrag hostFrag : list ascii) (position : Z) : R :=
  let queryFrag := normalizeFragment queryFrag in
  let hostFrag := normalizeFragment hostFrag in
  scoreNormalized queryFrag hostFrag position.

(* the accumulation loop [for _, qFrag := range frags { total += ... }] *)
Definition sumFragments (frags : list (list ascii)) (hostFrag : list ascii)
           (start : R) : R :=
  fold_left (fun total qFrag => total + scoreFragment qFrag hostFrag 0) frags start.

(* scoreTopLevelOnly *)
Definition scoreTopLevelOnly (queryFragments hostFragments : list (list ascii)) : R :=
  match queryFragments, hostFragments with
  | [], _ => 0
  | _, [] => 0
  | q0 :: _, topLevel :: _ =>
      if (length queryFragments =? 1)%nat && eqs q0 topLevel then
        0 + (ScoreExactMatch + ScoreExactHostnameBonus)
      else
        let totalScore := sumFragments queryFragments topLevel 0 in
        if (if Rlt_dec 0 totalScore then true else false)
           && (length topLevel <? 10)%nat
        then totalScore + ScoreLengthBonus
        else totalScore
  end.

(* the inner loop of scoreWithSubdomains: best score of one query fragment
   over the labels after the first, [i] being the label's index *)
Fixpoint bestSubdomainScore (qFrag : list ascii) (subdomains : list (list ascii))
         (i : Z) (bestScore : R) : R :=
  match subdomains with
  | [] => bestScore
  | hFrag :: rest =>
      let score := scoreFragment qFrag hFrag i in
      bestSubdomainScore qFrag rest (i + 1)
        (if Rlt_dec bestScore score then score else bestScore)
  end.

(* scoreWithSubdomains *)
Definition scoreWithSubdomains (query : Query) (hostFragments : list (list ascii)) : R :=
  if (length (Fragments query) =? 0)%nat || (length hostFragments =? 0)%nat then 0
  else if (length (SubdomainFragments query) =? 0)%nat then 0
  else if (length hostFragments <? 2)%nat then 0
  else
    let totalScore :=
      if (0 <? length (TopLevelFragments query))%nat then
        sumFragments (TopLevelFragments query) (hd [] hostFragments) 0
      else 0 in
    let subdomains := tl hostFragments in
    let subdomainScore :=
      fold_left (fun acc qFrag => acc + bestSubdomainScore qFrag subdomains 0 0)
                (SubdomainFragments query) 0 in
    if Req_dec_T subdomainScore 0 then 0
    else totalScore + subdomainScore.

(* Score *)
Definition Score (query : Query) (service : Service) : R :=
  let hostname := ToLower (Hostname service) in
  let hostFragments := HostnameFragments hostname in
  if negb (HasDot query) then scoreTopLevelOnly (Fragments query) hostFragments
  else scoreWithSubdomains query hostFragments.

(** The bubble sort shared by sortCandidates and sortBookmarkCandidates:
    [innerLoop] is the loop over j (with [steps] = n-i-1 comparisons),
    [outerLoop] the loop over i (with [count] iterations left). *)
Section BubbleSort.
Variable A : Type.
Variable key : A -> R.

Fixpoint innerLoop (steps : nat) (l : list A) : list A :=
  match steps with
  | O => l
  | S k =>
      match l with
      | a :: b :: t =>
          if Rlt_dec (key a) (key b) then b :: innerLoop k (a :: t)
          else a :: innerLoop k (b :: t)
      | _ => l
      end
  end.

Fixpoint outerLoop (n i count : nat) (l : list A) : list A :=
  match count with
  | O => l
  | S c => outerLoop n (S i) c (innerLoop (n - i - 1) l)
  end.

Definition bubbleSort (l : list A) : list A :=
  let n := length l in outerLoop n 0 (n - 1) l.
End BubbleSort.

(* sortCandidates *)
Definition sortCandidates (candidates : list Candidate) : list Candidate :=
  bubbleSort TotalScore candidates.

Definition usageScoreOf (service : Service) : R :=
  if (0 <? Counter service)%Z then
    Log10 (IZR (Counter service) + 1) * ScoreUsageWeight * 100
  else 0.

(* the body of the loop of RankCandidates for one service *)
Definition rankOne (query : Query) (service : Service) : list Candidate :=
  if Disabled service then []
  else
    let lexicalScore := Score query service in
    if Req_dec_T lexicalScore 0 then []
    else
      let usageScore := usageScoreOf service in
      let totalScore := lexicalScore + usageScore in
      [mkCandidate service lexicalScore usageScore totalScore].

(* RankCandidates *)
Definition RankCandidates (query : Query) (services : list Service) : list Candidate :=
  sortCandidates (flat_map (rankOne query) services).

(** *** Bookmark scoring (bookmark_scoring.go) *)

Record BookmarkCandidate := mkBookmarkCandidate {
  CBookmark : Bookmark;
  BScore : R
}.

(* strings.Fields *)
Fixpoint fieldsFrom (s cur : list ascii) : list (list ascii) :=
  match s with
  | [] => if isEmpty cur then [] else [rev cur]
  | c :: t =>
      if isSpace c then
        (if isEmpty cur then fieldsFrom t [] else rev cur :: fieldsFrom t [])
      else fieldsFrom t (c :: cur)
  end.
Definition Fields (s : list ascii) : list (list ascii) := fieldsFrom s [].

(* ScoreBookmark *)
Definition ScoreBookmark (queryStr : list ascii) (bookmark : Bookmark) : R :=
  if isEmpty queryStr then 0
  else
    let queryStr := ToLower (TrimSpace queryStr) in
    let abbr := ToLower (Abbr bookmark) in
    if eqs queryStr abbr then ScoreExactMatch + ScoreExactHostnameBonus
    else if HasPrefix abbr queryStr then ScorePrefixMatch
    else if Contains abbr queryStr then
      let index := Index abbr queryStr in
      ScoreSubstringMatch
      + ScorePositionBonus * (1 - IZR index / INR (length abbr))
    else
      let queryWords := Fields queryStr in
      if (1 <? length queryWords)%nat
         && forallb (fun word => Contains abbr word) queryWords
      then ScoreFuzzyMatch
      else
        let similarity := calculateSimilarity queryStr abbr in
        if Rlt_dec (1 / 2) similarity then ScoreFuzzyMatch * similarity else 0.

Definition rankOneBookmark (queryStr : list ascii) (bookmark : Bookmark)
  : list BookmarkCandidate :=
  if BDisabled bookmark then []
  else
    let score := ScoreBookmark queryStr bookmark in
    if Req_dec_T score 0 then [] else [mkBookmarkCandidate bookmark score].

(* RankBookmarkCandidates *)
Definition RankBookmarkCandidates (queryStr : list ascii) (bookmarks : list Bookmark)
  : list BookmarkCandidate :=
  bubbleSort BScore (flat_map (rankOneBookmark queryStr) bookmarks).

End Domain.

(** ** The ranking over the arithmetic of float64 (scoring.go)

    RankCandidates uses of float64 a conversion, an addition, a
    multiplication, math.Log10 and two comparisons.  Below they are the
    fields of an [Arithmetic] and [Score] is a parameter, so that what is
    proved of the ranking holds whatever the operations round to; [exact]
    is the arithmetic of the real numbers, in which the definitions of
    [Domain] are written. *)

Module Float64.
Import Strings Domain.

Record Arithmetic := mkArithmetic {
  float64 : Type;
  zero : float64;                          (* 0.0 *)
  one : float64;                           (* 1 *)
  usageWeight : float64;                   (* ScoreUsageWeight *)
  hundred : float64;                       (* 100 *)
  ofInt64 : Z -> float64;                  (* float64(service.Counter) *)
  add : float64 -> float64 -> float64;     (* a + b *)
  mul : float64 -> float64 -> float64;     (* a * b *)
  log10 : float64 -> float64;              (* math.Log10 *)
  lt : float64 -> float64 -> bool;         (* a < b *)
  eq : float64 -> float64 -> bool          (* a == b *)
}.

(* the bubble sort of sortCandidates, on the comparison of its [if] *)
Section BubbleSort.
Variable A : Type.
Variable less : A -> A -> bool.

Fixpoint innerLoop (steps : nat) (l : list A) : list A :=
  match steps with
  | O => l
  | S k =>
      match l with
      | a :: b :: t =>
          if less a b then b :: innerLoop k (a :: t)
          else a :: innerLoop k (b :: t)
      | _ => l
      end
  end.

Fixpoint outerLoop (n i count : nat) (l : list A) : list A :=
  match count with
  | O => l
  | S c => outerLoop n (S i) c (innerLoop (n - i - 1) l)
  end.

Definition bubbleSort (l : list A) : list A :=
  let n := length l in outerLoop n 0 (n - 1) l.
End BubbleSort.

Section Ranking.
Variable ar : Arithmetic.
Variable Score : Query -> Service -> float64 ar.

Record Candidate := mkCandidate {
  CService : Service;
  LexicalScore : float64 ar;
  UsageScore : float64 ar;
  TotalScore : float64 ar
}.

(* candidates[j].TotalScore < candidates[j+1].TotalScore *)
Definition below (a b : Candidate) : bool := lt ar (TotalScore a) (TotalScore b).

(* sortCandidates *)
Definition sortCandidates (candidates : list Candidate) : list Candidate :=
  bubbleSort below candidates.

Definition usageScoreOf (service : Service) : float64 ar :=
  if (0 <? Counter service)%Z then
    mul ar (mul ar (log10 ar (add ar (ofInt64 ar (Counter service)) (one ar)))
                (usageWeight ar))
        (hundred ar)
  else zero ar.

(* the body of the loop of RankCandidates for one service *)
Definition rankOne (query : Query) (service : Service) : list Candidate :=
  if Disabled service then []
  else
    let lexicalScore := Score query service in
    if eq ar lexicalScore (zero ar) then []
    else
      let usageScore := usageScoreOf service in
      let totalScore := add ar lexicalScore usageScore in
      [mkCandidate service lexicalScore usageScore totalScore].

(* RankCandidates *)
Definition RankCandidates (query : Query) (services : list Service) : list Candidate :=
  sortCandidates (flat_map (rankOne query) services).
End Ranking.

(* the arithmetic of the real numbers *)
Definition exact : Arithmetic :=
  mkArithmetic 0%R 1%R ScoreUsageWeight 100%R IZR Rplus Rmult Domain.Log10
               (fun a b => if Rlt_dec a b then true else false)
               (fun a b => if Req_dec_T a b then true else false).

(* a candidate over the real numbers as a candidate of [Domain] *)
Definition toDomain (c : Candidate exact) : Domain.Candidate :=
  Domain.mkCandidate (CService c) (LexicalScore c) (UsageScore c) (TotalScore c).

End Float64.

(** ** The ranking as the specification words it, over any arithmetic *)

Module RankedSpec.
Import Strings Domain.

Section Order.
Variable A : Type.
Variable less : A -> A -> bool.

(* non-increasing: no element is less than one that follows it *)
Definition nonIncreasing (l : list A) : Prop :=
  StronglySorted (fun a b => less a b = false) l.

(* the elements that score as [v] does, neither less nor more, in their
   order of appearance *)
Definition tiedWith (v : A) (l : list A) : list A :=
  filter (fun x => negb (less x v) && negb (less v x)) l.

(* every element of [l] is one of [dom] *)
Definition within (dom l : list A) : Prop := forall x, In x l -> In x dom.

(* the comparison is a strict weak order on the elements of [l]: what < is
   on float64 values none of which is NaN *)
Definition ordersStrictly (l : list A) : Prop :=
  (forall a b, In a l -> In b l -> less a b = true -> less b a = false)
  /\ (forall a b c, In a l -> In b l -> In c l ->
                    less a b = false -> less b c = false -> less a c = false).
End Order.

Section Candidates.
Variable ar : Float64.Arithmetic.
Variable Score : Query -> Service -> Float64.float64 ar.

(* a service takes part in the ranking: not disabled, nonzero lexical score *)
Definition ranked (query : Query) (service : Service) : bool :=
  negb (Disabled service)
  && negb (Float64.eq ar (Score query service) (Float64.zero ar)).

(* usage = log10(counter+1) * 0.1 * 100, and 0 when the counter is not
   positive *)
Definition usage (service : Service) : Float64.float64 ar :=
  if (0 <? Counter service)%Z then
    Float64.mul ar
      (Float64.mul ar
         (Float64.log10 ar
            (Float64.add ar (Float64.ofInt64 ar (Counter service)) (Float64.one ar)))
         (Float64.usageWeight ar))
      (Float64.hundred ar)
  else Float64.zero ar.

Definition candidateOf (query : Query) (service : Service) : Float64.Candidate ar :=
  Float64.mkCandidate ar service (Score query service) (usage service)
                      (Float64.add ar (Score query service) (usage service)).

(* the candidates in the order of the input services *)
Definition candidatesOf (query : Query) (services : list Service)
  : list (Float64.Candidate ar) :=
  map (candidateOf query) (filter (ranked query) services).
End Candidates.

End RankedSpec.

(** ** Package index: the in-memory catalog (memory.go) *)

Module Index.
Import Strings Domain.

(** Go maps keyed by strings. *)
Section GoMap.
Variable V : Type.
Definition gomap := list (list ascii * V).

Fixpoint get (k : list ascii) (m : gomap) : option V :=
  match m with
  | [] => None
  | (k', v) :: t => if eqs k k' then Some v else get k t
  end.

Fixpoint put (k : list ascii) (v : V) (m : gomap) : gomap :=
  match m with
  | [] => [(k, v)]
  | (k', v') :: t => if eqs k k' then (k, v) :: t else (k', v') :: put k v t
  end.

Fixpoint delete (k : list ascii) (m : gomap) : gomap :=
  match m with
  | [] => []
  | (k', v') :: t => if eqs k k' then delete k t else (k', v') :: delete k t
  end.

Definition values (m : gomap) : list V := map snd m.
End GoMap.

Record MemoryIndex := mkIndex {
  services : gomap Service;
  bookmarks : gomap Bookmark;
  lastReload : Z;
  lastBookmarkReload : Z
}.

Definition NewMemoryIndex : MemoryIndex := mkIndex [] [] 0 0.

Definition withServices (idx : MemoryIndex) (m : gomap Service) : MemoryIndex :=
  mkIndex m (bookmarks idx) (lastReload idx) (lastBookmarkReload idx).

Definition withBookmarks (idx : MemoryIndex) (m : gomap Bookmark) : MemoryIndex :=
  mkIndex (services idx) m (lastReload idx) (lastBookmarkReload idx).

(* UpdateServices: a fresh map filled from the list *)
Definition UpdateServices (now : Z) (l : list Service) (idx : MemoryIndex) : MemoryIndex :=
  mkIndex (fold_left (fun m service => put (ID service) service m) l [])
          (bookmarks idx) now (lastBookmarkReload idx).

Definition GetService (id : list ascii) (idx : MemoryIndex) : option Service :=
  get id (services idx).

Definition GetAllServices (idx : MemoryIndex) : list Service := values (services idx).

Definition AddService (service : Service) (idx : MemoryIndex) : MemoryIndex :=
  withServices idx (put (ID service) service (services idx)).

Definition DeleteService (id : list ascii) (idx : MemoryIndex) : MemoryIndex :=
  withServices idx (delete id (services idx)).

Definition Count (idx : MemoryIndex) : nat := length (services idx).

(* int64 addition of one, with its wrap-around *)
Definition incr64 (c : Z) : Z :=
  ((c + 1 + 2 ^ 63) mod 2 ^ 64 - 2 ^ 63)%Z.

Definition bumpCounter (s : Service) : Service :=
  mkService (ID s) (Hostname s) (Name s) (Sources s) (LastSeenAt s)
            (incr64 (Counter s)) (CreatedAt s) (UpdatedAt s) (LastUsedAt s)
            (Disabled s).

(* IncrementCounter *)
Definition IncrementCounter (id : list ascii) (idx : MemoryIndex) : MemoryIndex :=
  match get id (services idx) with
  | Some service => withServices idx (put id (bumpCounter service) (services idx))
  | None => idx
  end.

(* UpdateBookmarks *)
Definition UpdateBookmarks (now : Z) (l : list Bookmark) (idx : MemoryIndex) : MemoryIndex :=
  mkIndex (services idx)
          (fold_left (fun m bookmark => put (BID bookmark) bookmark m) l [])
          (lastReload idx) now.

Definition GetAllBookmarks (idx : MemoryIndex) : list Bookmark := values (bookmarks idx).

Definition DeleteBookmark (id : list ascii) (idx : MemoryIndex) : MemoryIndex :=
  withBookmarks idx (delete id (bookmarks idx)).

End Index.

(** ** Package store/redis: the cache store (cache.go, services.go, usage.go)

    The keys [jump:cache:<query>], [jump:service:<id>] and
    [jump:bookmark:<id>] are three maps and the sets [jump:services:all],
    [jump:bookmarks:all] are lists of ids.  A call on a store that is
    not reachable fails ([None]) and changes nothing. *)

Module RedisStore.
Import Strings Domain Index.

Record Store := mkStore {
  reachable : bool;
  cacheKeys : gomap (list ascii);
  serviceKeys : gomap Service;
  allServices : list (list ascii);
  bookmarkKeys : gomap Bookmark;
  allBookmarks : list (list ascii)
}.

Definition sadd (id : list ascii) (set : list (list ascii)) : list (list ascii) :=
  if existsb (eqs id) set then set else set ++ [id].

Definition srem (id : list ascii) (set : list (list ascii)) : list (list ascii) :=
  filter (fun x => negb (eqs id x)) set.

(* CacheResolution *)
Definition CacheResolution (query hostname : list ascii) (s : Store) : option Store :=
  if reachable s then
    Some (mkStore (reachable s) (put query hostname (cacheKeys s)) (serviceKeys s)
                  (allServices s) (bookmarkKeys s) (allBookmarks s))
  else None.

(* GetCachedResolution: [Some []] is a miss, [None] an error *)
Definition GetCachedResolution (query : list ascii) (s : Store) : option (list ascii) :=
  if reachable s then
    match get query (cacheKeys s) with
    | Some hostname => Some hostname
    | None => Some []
    end
  else None.

(* InvalidateCache *)
Definition InvalidateCache (query : list ascii) (s : Store) : option Store :=
  if reachable s then
    Some (mkStore (reachable s) (delete query (cacheKeys s)) (serviceKeys s)
                  (allServices s) (bookmarkKeys s) (allBookmarks s))
  else None.

(* SaveService *)
Definition SaveService (service : Service) (s : Store) : option Store :=
  if reachable s then
    Some (mkStore (reachable s) (cacheKeys s)
                  (put (ID service) service (serviceKeys s))
                  (sadd (ID service) (allServices s))
                  (bookmarkKeys s) (allBookmarks s))
  else None.

(* GetService *)
Definition GetService (id : list ascii) (s : Store) : option Service :=
  if reachable s then get id (serviceKeys s) else None.

(* DeleteService *)
Definition DeleteService (id : list ascii) (s : Store) : option Store :=
  if reachable s then
    Some (mkStore (reachable s) (cacheKeys s) (delete id (serviceKeys s))
                  (srem id (allServices s)) (bookmarkKeys s) (allBookmarks s))
  else None.

(* DeleteBookmark *)
Definition DeleteBookmark (id : list ascii) (s : Store) : option Store :=
  if reachable s then
    Some (mkStore (reachable s) (cacheKeys s) (serviceKeys s) (allServices s)
                  (delete id (bookmarkKeys s)) (srem id (allBookmarks s)))
  else None.

(* UpdateServiceCounter *)
Definition UpdateServiceCounter (now : Z) (id : list ascii) (s : Store) : option Store :=
  match GetService id s with
  | None => None
  | Some service =>
      let service :=
        mkService (ID service) (Hostname service) (Name service) (Sources service)
                  now (incr64 (Counter service)) (CreatedAt service)
                  (UpdatedAt service) (LastUsedAt service) (Disabled service) in
      SaveService service s
  end.

(* IncrementUsage *)
Definition IncrementUsage (now : Z) (serviceID : list ascii) (s : Store) : option Store :=
  UpdateServiceCounter now serviceID s.

(* SaveServicesMany: one pipeline, all or nothing *)
Definition SaveServicesMany (l : list Service) (s : Store) : option Store :=
  if reachable s then
    Some (fold_left
            (fun st service =>
               mkStore (reachable st) (cacheKeys st)
                       (put (ID service) service (serviceKeys st))
                       (sadd (ID service) (allServices st))
                       (bookmarkKeys st) (allBookmarks st))
            l s)
  else None.

(* the caller's [_ = store.Op(...)]: keep the old store when the call fails *)
Definition bestEffort (r : option Store) (s : Store) : Store :=
  match r with Some s' => s' | None => s end.

End RedisStore.

(** ** Package handlers: the resolver (search.go) *)

Module Handlers.
Import Strings Domain Index RedisStore.

(** The dependencies of the handler.  [ValidateTLS] is the outcome of the
    TLS probe of a hostname (true when the probe returns no error). *)
Record Deps := mkDeps {
  HomepageURL : list ascii;
  AllowedDomains : list (list ascii);
  SkipTLSValidation : bool;
  MaxCandidates : Z;
  ValidateTLS : list ascii -> bool
}.

Record Request := mkRequest {
  q : list ascii;        (* r.URL.Query().Get("q") *)
  Host : list ascii      (* r.Host *)
}.

(* the answer of the handler: the status and the url it hands to
   http.Redirect *)
Record Response := mkResponse {
  Status : Z;
  Target : list ascii
}.

Record World := mkWorld {
  memIndex : MemoryIndex;
  store : Store
}.

Definition StatusFound : Z := 302.

(* http.Redirect(w, r, url, http.StatusFound) *)
Definition Redirect (url : list ascii) : Response := mkResponse StatusFound url.

(* isAllowedRedirect *)
Definition isAllowedRedirect (hostname : list ascii) (allowedDomains : list (list ascii)) : bool :=
  let hostname := ToLower hostname in
  existsb (fun domain =>
             let domain := ToLower domain in
             eqs hostname domain || HasSuffix hostname (dot :: domain))
          allowedDomains.

Definition endpoints : list (list ascii) :=
  [str "/infra"; str "/healthz"; str "/readyz"].

(* matchInternalEndpoint *)
Definition matchInternalEndpoint (query : list ascii) : list ascii :=
  let query := ToLower query in
  match filter (fun endpoint => HasPrefix endpoint query) endpoints with
  | [m] => m
  | _ => []
  end.

Definition https (rest : list ascii) : list ascii := str "https://" ++ rest.

(* handleInternalEndpoint *)
Definition handleInternalEndpoint (d : Deps) (r : Request) (query : list ascii) : Response :=
  let endpoint := matchInternalEndpoint query in
  if negb (isEmpty endpoint) then Redirect (https (Host r ++ endpoint))
  else Redirect (HomepageURL d).

(* handleCachedService: [Some resp] when the request was handled *)
Definition handleCachedService (d : Deps) (now : Z) (query : list ascii) (w : World)
  : option Response * World :=
  match GetCachedResolution query (store w) with
  | None => (None, w)
  | Some cachedHostname =>
      if isEmpty cachedHostname then (None, w)
      else if ValidateTLS d cachedHostname then
        let st := bestEffort (IncrementUsage now cachedHostname (store w)) (store w) in
        let idx := IncrementCounter cachedHostname (memIndex w) in
        let redirectURL := https cachedHostname in
        if negb (isAllowedRedirect cachedHostname (AllowedDomains d)) then
          (Some (Redirect (HomepageURL d)), mkWorld idx st)
        else (Some (Redirect redirectURL), mkWorld idx st)
      else
        (None, mkWorld (memIndex w)
                       (bestEffort (InvalidateCache query (store w)) (store w)))
  end.

(* the loop of handleServiceSearch: the first candidate that is allowed
   and healthy *)
Fixpoint firstHealthy (d : Deps) (candidates : list Candidate) : option (list ascii) :=
  match candidates with
  | [] => None
  | candidate :: rest =>
      let hostname := Hostname (CService candidate) in
      if negb (isAllowedRedirect hostname (AllowedDomains d)) then firstHealthy d rest
      else if negb (SkipTLSValidation d) && negb (ValidateTLS d hostname) then
        firstHealthy d rest
      else Some hostname
  end.

(* handleServiceSearch *)
Definition handleServiceSearch (d : Deps) (now : Z) (query : list ascii) (w : World)
  : Response * World :=
  let parsedQuery := ParseQuery query in
  let services := GetAllServices (memIndex w) in
  if (length services =? 0)%nat then (Redirect (HomepageURL d), w)
  else
    let candidates := RankCandidates parsedQuery services in
    if (length candidates =? 0)%nat then (Redirect (HomepageURL d), w)
    else
      let candidates :=
        if (0 <? MaxCandidates d)%Z
           && (MaxCandidates d <? Z.of_nat (length candidates))%Z
        then firstn (Z.to_nat (MaxCandidates d)) candidates
        else candidates in
      match firstHealthy d candidates with
      | Some hostname =>
          let st := bestEffort (IncrementUsage now hostname (store w)) (store w) in
          let idx := IncrementCounter hostname (memIndex w) in
          let st := bestEffort (CacheResolution query hostname st) st in
          (Redirect (https hostname), mkWorld idx st)
      | None => (Redirect (HomepageURL d), w)
      end.

(* handleBookmarkSearch *)
Definition handleBookmarkSearch (d : Deps) (query : list ascii) (w : World) : Response :=
  let queryStr := TrimSpace (TrimPrefix query [("@")%char]) in
  if isEmpty queryStr then Redirect (HomepageURL d)
  else
    let bookmarks := GetAllBookmarks (memIndex w) in
    if (length bookmarks =? 0)%nat then Redirect (HomepageURL d)
    else
      match RankBookmarkCandidates queryStr bookmarks with
      | [] => Redirect (HomepageURL d)
      | best :: _ => Redirect (URL (CBookmark best))
      end.

(* Search: the handler behind GET /search, the resolver's entry point *)
Definition Search (d : Deps) (now : Z) (r : Request) (w : World) : Response * World :=
  let query := TrimSpace (q r) in
  if isEmpty query then (Redirect (HomepageURL d), w)
  else if HasPrefix query [("@")%char] then (handleBookmarkSearch d query w, w)
  else if HasPrefix query [("/")%char] then (handleInternalEndpoint d r query, w)
  else
    match handleCachedService d now query w with
    | (Some resp, w') => (resp, w')
    | (None, w') => handleServiceSearch d now query w'
    end.

End Handlers.

(** ** Package sources/homepage: loader and mapper (loader.go, mapper.go) *)

Module Homepage.
Import Strings Domain.

(* ServiceProps: the mapper reads Href only *)
Record ServiceProps := mkProps { Href : list ascii }.

(* ServicesConfig = []map[string][]map[string]ServiceProps *)
Definition ServicesConfig :=
  list (list (list ascii * list (list (list ascii * ServiceProps)))).

Definition quote : ascii := ascii_of_nat 34.
Definition lbrace : ascii := "{"%char.
Definition rbrace : ascii := "}"%char.

(** The regular expression [\{\{[^}]+\}\}] at the head of [data]: the
    length of its match there, if any.  The class [[^}]+] is greedy and
    excludes the brace that must follow it, so it takes the whole run of
    bytes other than the closing brace. *)
Fixpoint classRun (data : list ascii) : nat :=
  match data with
  | c :: t => if Ascii.eqb c rbrace then 0 else S (classRun t)
  | [] => 0
  end.

Definition matchPlaceholder (data : list ascii) : option nat :=
  match data with
  | a :: b :: body =>
      if Ascii.eqb a lbrace && Ascii.eqb b lbrace then
        let n := classRun body in
        if (0 <? n)%nat && HasPrefix (skipn n body) [rbrace; rbrace]
        then Some (n + 4)%nat
        else None
      else None
  | _ => None
  end.

(** [re.ReplaceAll(data, repl)]: scan from the left; at a position where
    the expression matches, emit the replacement and resume after the
    match ([skip] counts the bytes of the match still to pass);
    elsewhere copy the byte. *)
Fixpoint replaceAll (repl : list ascii) (skip : nat) (data : list ascii) : list ascii :=
  match data with
  | [] => []
  | c :: t =>
      match skip with
      | S k => replaceAll repl k t
      | O =>
          match matchPlaceholder data with
          | Some n => repl ++ replaceAll repl (n - 1) t
          | None => c :: replaceAll repl 0 t
          end
      end
  end.

(* stripTemplateVariables: the replacement is the two-byte text of an
   empty YAML string, a pair of double quotes *)
Definition stripTemplateVariables (data : list ascii) : list ascii :=
  replaceAll [quote; quote] 0 data.

(* extractServiceName *)
Definition extractServiceName (hostname : list ascii) : list ascii :=
  match Split hostname dot with
  | p :: _ => p
  | [] => hostname
  end.

Definition homepage : list ascii := str "homepage".

(** MapServices.  [urlHostname href] stands for [url.Parse(href)] followed
    by [Hostname()]: [None] when parsing fails. *)
Section Mapper.
Variable urlHostname : list ascii -> option (list ascii).

Definition mapOne (now : Z) (props : ServiceProps) : list Service :=
  if isEmpty (Href props) then []
  else match urlHostname (Href props) with
       | None => []
       | Some hostname =>
           if isEmpty hostname then []
           else
             let name := extractServiceName hostname in
             [mkService hostname hostname name [homepage] now 0 0 0 0 false]
       end.

Definition MapServices (now : Z) (config : ServicesConfig) : option (list Service) :=
  let services :=
    flat_map (fun groupMap =>
      flat_map (fun group =>
        flat_map (fun serviceMap =>
          flat_map (fun entry => mapOne now (snd entry)) serviceMap)
        (snd group))
      groupMap)
    config in
  if (length services =? 0)%nat then None else Some services.
End Mapper.

(** A parser of [scheme://host[:port][/path]] hrefs, used to run the mapper
    on concrete catalogs. *)
Fixpoint takeHost (s : list ascii) : list ascii :=
  match s with
  | [] => []
  | c :: t =>
      if Ascii.eqb c "/"%char || Ascii.eqb c ":"%char
         || Ascii.eqb c "?"%char || Ascii.eqb c "#"%char
      then [] else c :: takeHost t
  end.

Definition simpleURLHostname (href : list ascii) : option (list ascii) :=
  match indexFrom href (str "://") with
  | Some i => Some (takeHost (skipn (i + 3) href))
  | None => Some []
  end.

End Homepage.

(** ** Package scheduler: reconciliation and garbage collection
       (homepage_reload.go, garbage_collector.go) *)

Module Scheduler.
Import Strings Domain Index RedisStore Handlers Homepage.

Local Open Scope Z_scope.

Definition Hour : Z := 3600 * 1000000000.

(* DefaultGCThreshold = 30 * 24 * time.Hour *)
Definition DefaultGCThreshold : Z := 30 * 24 * Hour.

Definition maxDuration : Z := 2 ^ 63 - 1.
Definition minDuration : Z := - 2 ^ 63.

(* Time.Sub: the difference, saturated to the range of a Duration *)
Definition Sub (t u : Z) : Z :=
  let d := t - u in
  if maxDuration <? d then maxDuration
  else if d <? minDuration then minDuration
  else d.

(* Time.IsZero *)
Definition IsZero (t : Z) : bool := t =? 0.

(* getHomepageServices *)
Definition getHomepageServices (idx : MemoryIndex) : list Service :=
  filter (fun svc => existsb (fun source => eqs source homepage) (Sources svc))
         (GetAllServices idx).

Definition markDisabled (now : Z) (existing : Service) : Service :=
  mkService (ID existing) (Hostname existing) (Name existing) (Sources existing)
            (LastSeenAt existing) (Counter existing) (CreatedAt existing)
            now (LastUsedAt existing) true.

Section Reloader.
Variable urlHostname : list ascii -> option (list ascii).

(** Reload.  [loaded] is the result of [loader.Load()] ([None] on error),
    [now] the clock during the pass; the result is [true] when the pass
    returns no error. *)
Definition Reload (now : Z) (loaded : option ServicesConfig) (w : World) : bool * World :=
  match loaded with
  | None => (false, w)
  | Some config =>
      match MapServices urlHostname now config with
      | None => (false, w)
      | Some newServices =>
          let existingServices := getHomepageServices (memIndex w) in
          let newServiceIDs := map ID newServices in
          let disabledServices :=
            map (markDisabled now)
                (filter (fun existing =>
                           negb (existsb (eqs (ID existing)) newServiceIDs))
                        existingServices) in
          let newServices := newServices ++ disabledServices in
          let idx := UpdateServices now newServices (memIndex w) in
          let st := bestEffort (SaveServicesMany newServices (store w)) (store w) in
          (true, mkWorld idx st)
      end
  end.
End Reloader.

(* NewGarbageCollector: a zero threshold means the default *)
Definition gcThreshold (threshold : Z) : Z :=
  if threshold =? 0 then DefaultGCThreshold else threshold.

(* the body of the loop of collectServices *)
Definition collectService (now threshold : Z) (acc : nat * World) (service : Service)
  : nat * World :=
  let (deletedCount, w) := acc in
  if negb (Disabled service) then acc
  else if IsZero (UpdatedAt service) then acc
  else
    let disabledDuration := Sub now (UpdatedAt service) in
    if disabledDuration <? threshold then acc
    else
      let idx := Index.DeleteService (ID service) (memIndex w) in
      let st := bestEffort (RedisStore.DeleteService (ID service) (store w)) (store w) in
      (S deletedCount, mkWorld idx st).

(* collectServices *)
Definition collectServices (now threshold : Z) (w : World) : nat * World :=
  fold_left (collectService now threshold) (GetAllServices (memIndex w)) (0%nat, w).

Definition collectBookmark (now threshold : Z) (acc : nat * World) (bookmark : Bookmark)
  : nat * World :=
  let (deletedCount, w) := acc in
  if negb (BDisabled bookmark) then acc
  else if IsZero (BUpdatedAt bookmark) then acc
  else
    let disabledDuration := Sub now (BUpdatedAt bookmark) in
    if disabledDuration <? threshold then acc
    else
      let idx := Index.DeleteBookmark (BID bookmark) (memIndex w) in
      let st := bestEffort (RedisStore.DeleteBookmark (BID bookmark) (store w)) (store w) in
      (S deletedCount, mkWorld idx st).

(* collectBookmarks *)
Definition collectBookmarks (now threshold : Z) (w : World) : nat * World :=
  fold_left (collectBookmark now threshold) (GetAllBookmarks (memIndex w)) (0%nat, w).

(* Collect: the pass run at [now] *)
Definition Collect (now threshold : Z) (w : World) : World :=
  let (servicesDeleted, w1) := collectServices now threshold w in
  let (bookmarksDeleted, w2) := collectBookmarks now threshold w1 in
  w2.

(** The two background loops as a sequence of passes: a reload pass with
    the catalog it loads, or a collection pass, each at its clock time. *)
Inductive Pass :=
| ReloadPass (now : Z) (loaded : option ServicesConfig)
| CollectPass (now : Z).

Definition runPass (urlHostname : list ascii -> option (list ascii))
           (threshold : Z) (w : World) (p : Pass) : World :=
  match p with
  | ReloadPass now loaded => snd (Reload urlHostname now loaded w)
  | CollectPass now => Collect now threshold w
  end.

Definition runPasses (urlHostname : list ascii -> option (list ascii))
           (threshold : Z) (passes : list Pass) (w : World) : World :=
  fold_left (runPass urlHostname threshold) passes w.

End Scheduler.

(** ** The query grammar as the specification words it *)

Module QuerySpec.
Import Strings Domain.

(* the part of [s] before its first [sep] (all of [s] if there is none) *)
Fixpoint beforeFirst (sep : ascii) (s : list ascii) : list ascii :=
  match s with
  | [] => []
  | c :: t => if Ascii.eqb c sep then [] else c :: beforeFirst sep t
  end.

(* the entire remainder of [s] after its first [sep] *)
Fixpoint afterFirst (sep : ascii) (s : list ascii) : list ascii :=
  match s with
  | [] => []
  | c :: t => if Ascii.eqb c sep then t else afterFirst sep t
  end.

(* every dot read as a space *)
Definition dotsToSpaces (s : list ascii) : list ascii :=
  map (fun c => if Ascii.eqb c dot then space else c) s.

Definition normalized (input : list ascii) : list ascii :=
  TrimSpace (ToLower input).

End QuerySpec.

(** ** Ranking as the specification words it *)

Module RankingSpec.
Import Strings Domain.
Local Open Scope R_scope.

Section Order.
Variable A : Type.
Variable key : A -> R.

(* non-increasing keys *)
Definition descending (l : list A) : Prop :=
  StronglySorted (fun a b => key b <= key a) l.

(* the elements whose key is [v], in their order of appearance *)
Definition withKey (v : R) (l : list A) : list A :=
  filter (fun x => if Req_dec_T (key x) v then true else false) l.
End Order.

(* a service takes part in the ranking: not disabled, nonzero lexical score *)
Definition ranked (query : Query) (service : Service) : bool :=
  negb (Disabled service)
  && (if Req_dec_T (Score query service) 0 then false else true).

(* usage = log10(counter+1) * 10 *)
Definition usage (service : Service) : R :=
  Log10 (IZR (Counter service) + 1) * 10.

Definition candidateOf (query : Query) (service : Service) : Candidate :=
  mkCandidate service (Score query service) (usage service)
              (Score query service + usage service).

(* the candidates in the order of the input services *)
Definition candidatesOf (query : Query) (services : list Service) : list Candidate :=
  map (candidateOf query) (filter (ranked query) services).

(** The match levels of two normalized fragments, in the order in which
    scoreFragment tries them. *)
Inductive Level := Exact | Prefix | Substring | Other.

Definition isNormalized (s : list ascii) : bool :=
  negb (isEmpty s) && eqs (normalizeFragment s) s.

Definition matchLevel (q h : list ascii) : Level :=
  if eqs q h then Exact
  else if HasPrefix h q then Prefix
  else if Contains h q then Substring
  else Other.

(* the number of characters of [q] that occur anywhere in [h] *)
Definition occurring (q h : list ascii) : nat :=
  length (filter (fun c => if in_dec ascii_dec c h then true else false) q).

(* the fraction of the characters of [q] that occur in [h] *)
Definition similarityOf (q h : list ascii) : R :=
  INR (occurring q h) / INR (length q).

(* a fragment of ASCII lower-case letters and digits, one byte a character *)
Definition plain (s : list ascii) : Prop :=
  s <> [] /\ Forall (fun c => isLower c || isDigit c = true) s.

(* text below RuneSelf: every byte is a rune *)
Definition ascii7 (s : list ascii) : Prop :=
  Forall (fun c => (byteOf c < RuneSelf)%N) s.

(* the same fraction when the characters are the runes of UTF-8 text *)
Definition occurringRunes (q h : list ascii) : nat :=
  length (filter (fun r => existsb (N.eqb r) (runes h)) (runes q)).

Definition characterFraction (q h : list ascii) : R :=
  INR (occurringRunes q h) / INR (length (runes q)).

End RankingSpec.

(** ** Placeholder substitution as the specification words it *)

Module TemplateSpec.
Import Strings Homepage.

(* a text of the language of \{\{[^}]+\}\} *)
Definition isPlaceholder (m : list ascii) : Prop :=
  exists body, body <> [] /\ ~ In rbrace body
               /\ m = lbrace :: lbrace :: body ++ [rbrace; rbrace].

(* a placeholder starts at the head of [data] *)
Definition placeholderAt (data : list ascii) : Prop :=
  exists m rest, isPlaceholder m /\ data = m ++ rest.

(** [Replaced repl data out]: [out] is [data] with every placeholder,
    found from the left, replaced by [repl] and every other byte kept. *)
Inductive Replaced (repl : list ascii) : list ascii -> list ascii -> Prop :=
| Replaced_nil : Replaced repl [] []
| Replaced_placeholder m rest out :
    isPlaceholder m -> Replaced repl rest out ->
    Replaced repl (m ++ rest) (repl ++ out)
| Replaced_byte c rest out :
    ~ placeholderAt (c :: rest) -> Replaced repl rest out ->
    Replaced repl (c :: rest) (c :: out).

End TemplateSpec.

(** ** The resolver's contract as the specification words it *)

Module ResolverSpec.
Import Strings Domain Index Handlers Homepage.

(* a hostname allowed by the redirect allow-list: case-insensitively equal
   to an allowed domain, or ending with a dot followed by it *)
Definition allowedHost (allowedDomains : list (list ascii)) (hostname : list ascii) : Prop :=
  exists domain,
    In domain allowedDomains
    /\ (ToLower hostname = ToLower domain
        \/ exists pre, ToLower hostname = pre ++ dot :: ToLower domain).

(* the Location the claim allows: the home URL, or a URL whose host is
   allowed *)
Definition allowedLocation (d : Deps) (location : list ascii) : Prop :=
  location = HomepageURL d
  \/ exists host, simpleURLHostname location = Some host
                  /\ isAllowedRedirect host (AllowedDomains d) = true.

(* a record of the store after one use: the counter incremented, last seen
   at the time of the request *)
Definition usedAt (now : Z) (e : Service) : Service :=
  mkService (ID e) (Hostname e) (Name e) (Sources e) now (incr64 (Counter e))
            (CreatedAt e) (UpdatedAt e) (LastUsedAt e) (Disabled e).

(* the realm of a request, as the handler selects it *)
Inductive Realm := BookmarkRealm | InternalRealm | ServiceRealm.

Definition realmOf (r : Request) : Realm :=
  let query := TrimSpace (q r) in
  if HasPrefix query [("@")%char] then BookmarkRealm
  else if HasPrefix query [("/")%char] then InternalRealm
  else ServiceRealm.

End ResolverSpec.

(** ** Soft deletion and collection as the specification words them *)

Module ReconcilerSpec.
Import Strings Domain Index Handlers Homepage Scheduler.
Local Open Scope Z_scope.

(* a map built by the index: distinct keys, each the ID of its entry *)
Definition wellKeyed (m : gomap Service) : Prop :=
  NoDup (map fst m) /\ forall k e, In (k, e) m -> ID e = k.

(* the index holds a catalog entry with this id *)
Definition present (id : list ascii) (idx : MemoryIndex) : Prop :=
  exists e, In e (GetAllServices idx) /\ ID e = id
            /\ existsb (fun source => eqs source homepage) (Sources e) = true.

(* the entry with this id is soft-deleted, with updated_at = [last] *)
Definition softDeleted (id : list ascii) (last : Z) (idx : MemoryIndex) : Prop :=
  wellKeyed (services idx)
  /\ exists e, get id (services idx) = Some e
               /\ Disabled e = true /\ UpdatedAt e = last
               /\ existsb (fun source => eqs source homepage) (Sources e) = true.

(** A schedule in which the entry [id] never reappears in the catalog,
    every reload pass succeeds, and every collection pass runs less than
    [threshold] after the reload pass before it ([last] is the time of
    that pass). *)
Fixpoint timely (urlHostname : list ascii -> option (list ascii))
         (threshold : Z) (id : list ascii) (last : Z) (passes : list Pass) : Prop :=
  match passes with
  | [] => True
  | ReloadPass now loaded :: rest =>
      (exists config l,
          loaded = Some config
          /\ MapServices urlHostname now config = Some l
          /\ ~ In id (map ID l))
      /\ timely urlHostname threshold id now rest
  | CollectPass now :: rest =>
      (last <= now < last + threshold)
      /\ timely urlHostname threshold id last rest
  end.

(* the time of the last reload pass of a schedule ([last] if none) *)
Definition lastMark (last : Z) (passes : list Pass) : Z :=
  fold_left (fun t p => match p with
                        | ReloadPass now _ => now
                        | CollectPass _ => t
                        end) passes last.

End ReconcilerSpec.

(** ** Concrete catalogs, requests and schedules *)

Module Examples.
Import Strings Domain Index RedisStore Handlers Homepage Scheduler.
Local Open Scope string_scope.
Local Open Scope Z_scope.

Definition service (hostname : string) (counter : Z) : Service :=
  mkService (str hostname) (str hostname) (extractServiceName (str hostname))
            [homepage] 0 counter 0 0 0 false.

Definition jellyfin : Service := service "jellyfin.example.com" 20.
Definition jellyseerr : Service := service "jellyseerr.example.com" 0.
Definition adguard : Service := service "adguard.example.com" 10.

Definition someServices : list Service := [adguard; jellyfin; jellyseerr].

Definition chatgpt : Bookmark :=
  mkBookmark (str "2f0a6b1c9d3e4f58") (str "ChatGPT") (str "https://chat.openai.com/")
             [homepage] 0 0 false.

Definition emptyStore : Store := mkStore true [] [] [] [] [].

Definition indexOf (l : list Service) (b : list Bookmark) : MemoryIndex :=
  UpdateBookmarks 0 b (UpdateServices 0 l NewMemoryIndex).

Definition deps : Deps :=
  mkDeps (str "https://home.example.com") [str "example.com"] false 3
         (fun _ => true).

(* a catalog file with one group holding the given hrefs *)
Definition catalog (hrefs : list string) : ServicesConfig :=
  [[(str "Infrastructure",
     map (fun href => [(str "entry", mkProps (str href))]) hrefs)]].

(* C1: a bookmark query in a world with one bookmark *)
Definition bookmarkWorld : World := mkWorld (indexOf someServices [chatgpt]) emptyStore.
Definition bookmarkRequest : Request := mkRequest (str "@chat") (str "jump.example.com").

(* C2: a used service that is still in the catalog *)
Definition usedWorld : World := mkWorld (indexOf someServices []) emptyStore.
Definition sameCatalog : ServicesConfig :=
  catalog ["https://adguard.example.com"; "https://jellyfin.example.com";
           "https://jellyseerr.example.com"].

(* C3: a cached resolution to a live host outside the allowed domains *)
Definition outsider : Service := service "files.other.net" 0.
Definition cachedWorld : World :=
  mkWorld (indexOf [outsider; jellyfin] [])
          (mkStore true [(str "files", str "files.other.net")]
                   [(str "files.other.net", outsider)] [str "files.other.net"] [] []).
Definition cachedRequest : Request := mkRequest (str "files") (str "jump.example.com").

(* C4: jellyseerr leaves the catalog; both loops tick every 24 hours, the
   collector right after the reloader *)
Definition Day : Z := 24 * Hour.
Definition start : Z := 1000000 * Day.
Definition shrunkCatalog : ServicesConfig :=
  catalog ["https://adguard.example.com"; "https://jellyfin.example.com"].

Definition dayPasses (k : nat) : list Pass :=
  [ReloadPass (start + Z.of_nat k * Day) (Some shrunkCatalog);
   CollectPass (start + Z.of_nat k * Day + 1)].

Definition dailyPasses (days : nat) : list Pass :=
  flat_map dayPasses (seq 0 days).

Definition gone : list ascii := str "jellyseerr.example.com".

(* C9: a catalog line with a templating placeholder *)
Definition templatedLine : list ascii := str "url: {{HOMEPAGE_VAR_URL}}".

(* C6: a query with a dot but nothing after it *)
Definition dotQuery : Query := ParseQuery (str "jellyfin.").

End Examples.

(** ** Further code of the repository *)

(** *** Package domain: FindBestMatch, FindBestBookmark *)

Module DomainFinders.
Import Strings Domain.

(* FindBestMatch *)
Definition FindBestMatch (query : Query) (services : list Service) : option Service :=
  match RankCandidates query services with
  | [] => None
  | c :: _ => Some (CService c)
  end.

(* FindBestBookmark *)
Definition FindBestBookmark (queryStr : list ascii) (bookmarks : list Bookmark)
  : option Bookmark :=
  match RankBookmarkCandidates queryStr bookmarks with
  | [] => None
  | c :: _ => Some (CBookmark c)
  end.

End DomainFinders.

(** *** Package store/redis: key layout (keys.go, bookmark_keys.go) and the
        start-up read (GetAllServices) *)

Module RedisKeys.
Import Strings Domain Index RedisStore.

Definition KeyPrefixService : list ascii := str "jump:service:".
Definition KeyPrefixCache : list ascii := str "jump:cache:".
Definition KeyAllServices : list ascii := str "jump:services:all".
Definition KeyPrefixBookmark : list ascii := str "jump:bookmark:".
Definition KeyAllBookmarks : list ascii := str "jump:bookmarks:all".

Definition ServiceKey (id : list ascii) : list ascii := KeyPrefixService ++ id.
Definition CacheKey (query : list ascii) : list ascii := KeyPrefixCache ++ query.
Definition BookmarkKey (id : list ascii) : list ascii := KeyPrefixBookmark ++ id.
Definition AllServicesKey : list ascii := KeyAllServices.
Definition AllBookmarksKey : list ascii := KeyAllBookmarks.

(* ExtractServiceID: [None] is the error *)
Definition ExtractServiceID (key : list ascii) : option (list ascii) :=
  if (length key <=? length KeyPrefixService)%nat then None
  else Some (skipn (length KeyPrefixService) key).

(* Store.GetAllServices: the members of the set, those that cannot be
   read being skipped; [None] when the set itself cannot be read *)
Definition GetAllServices (s : Store) : option (list Service) :=
  if reachable s then
    Some (flat_map (fun id => match RedisStore.GetService id s with
                              | Some service => [service]
                              | None => []
                              end)
                   (allServices s))
  else None.

End RedisKeys.

(** *** Package config: the allow-list derived from the allowed hosts
        (config.go) *)

Module Config.
Import Strings Domain.

Definition colon : ascii := ":"%char.

(* strings.LastIndex(s, ":"): [None] stands for -1 *)
Fixpoint lastIndexOf (c : ascii) (s : list ascii) : option nat :=
  match s with
  | [] => None
  | a :: t =>
      match lastIndexOf c t with
      | Some i => Some (S i)
      | None => if Ascii.eqb a c then Some 0%nat else None
      end
  end.

(* the host with its port removed *)
Definition hostWithoutPort (host : list ascii) : list ascii :=
  match lastIndexOf colon host with
  | Some idx =>
      if negb (Contains (firstn idx host) (str "]:")) then firstn idx host else host
  | None => host
  end.

Definition seen (domains : list (list ascii)) (d : list ascii) : bool :=
  existsb (eqs d) domains.

(* the body of the loop of extractDomains; the [seen] map holds exactly
   the domains appended so far *)
Definition extractStep (domains : list (list ascii)) (host : list ascii)
  : list (list ascii) :=
  let h := hostWithoutPort host in
  let domains := if negb (seen domains h) then domains ++ [h] else domains in
  let parts := Split h dot in
  if (2 <=? length parts)%nat then
    let domainSuffix := Join (tl parts) [dot] in
    if negb (seen domains domainSuffix) then domains ++ [domainSuffix] else domains
  else domains.

(* extractDomains *)
Definition extractDomains (hosts : list (list ascii)) : list (list ascii) :=
  if (length hosts =? 0)%nat then []
  else fold_left extractStep hosts [].

End Config.

(** *** Package mw: host enforcement (host.go) and package utils
        (netip.go) *)

Module Middleware.
Import Strings Domain.

(* matchHost *)
Definition matchHost (host pattern : list ascii) : bool :=
  if eqs host pattern then true
  else if HasPrefix pattern (str "*.") then HasSuffix host (skipn 1 pattern)
  else false.

Definition StatusForbidden : Z := 403.

(* EnforceHost: [None] when the request is passed to the next handler,
   [Some 403] when it is rejected *)
Definition EnforceHost (allowedHosts : list (list ascii)) (host : list ascii) : option Z :=
  if (length allowedHosts =? 0)%nat then None
  else if existsb (matchHost host) allowedHosts then None
  else Some StatusForbidden.

(* FirstForwardedFor *)
Definition FirstForwardedFor (xff : list ascii) : list ascii :=
  let xff := TrimSpace xff in
  if isEmpty xff then []
  else
    let xff :=
      match indexFrom xff [(",")%char] with
      | Some i => firstn i xff
      | None => xff
      end in
    TrimSpace xff.

End Middleware.

(** *** Package handlers: the manual reload endpoint (reload.go)

    A trigger channel of capacity 1 is the number of signals it holds. *)

Module ReloadEndpoint.

Record Triggers := mkTriggers {
  ReloadTrigger : nat;
  BookmarkReloadTrigger : option nat     (* nil when bookmarks are disabled *)
}.

Definition capacity : nat := 1.

(* select { case ch <- struct{}{}: ... default: ... } *)
Definition trySend (ch : nat) : bool * nat :=
  if (ch <? capacity)%nat then (true, S ch) else (false, ch).

(* <-ch in the reloader's loop, when a signal is pending *)
Definition receive (ch : nat) : nat := pred ch.

Definition StatusAccepted : Z := 202.
Definition StatusTooManyRequests : Z := 429.

(* Reload *)
Definition Reload (t : Triggers) : Z * Triggers :=
  let (servicesTriggered, ch) := trySend (ReloadTrigger t) in
  let (bookmarksTriggered, bch) :=
    match BookmarkReloadTrigger t with
    | Some b => let (ok, b') := trySend b in (ok, Some b')
    | None => (false, None)
    end in
  if servicesTriggered || bookmarksTriggered
  then (StatusAccepted, mkTriggers ch bch)
  else (StatusTooManyRequests, mkTriggers ch bch).

End ReloadEndpoint.

(** *** Package scheduler: the start-up sync (redis_sync.go) *)

Module Bootstrap.
Import Strings Domain Index RedisStore Handlers.

(* RedisSyncer.Sync: the result is [false] when the store cannot be read *)
Definition Sync (now : Z) (w : World) : bool * World :=
  match RedisKeys.GetAllServices (store w) with
  | None => (false, w)
  | Some services =>
      if (length services =? 0)%nat then (true, w)
      else (true, mkWorld (UpdateServices now services (memIndex w)) (store w))
  end.

End Bootstrap.

(** *** Laws stated about the code above *)

Module Laws.
Import Strings Domain Index RedisStore Handlers Homepage Scheduler.
Local Open Scope Z_scope.

(* a fragment as the parser produces them *)
Definition cleanFragment (f : list ascii) : Prop :=
  f <> [] /\ ~ In dot f /\ ~ In space f.

(* the collector deletes this service at [now] *)
Definition collectable (now threshold : Z) (s : Service) : bool :=
  Disabled s && negb (IsZero (UpdatedAt s))
  && negb (Sub now (UpdatedAt s) <? threshold).

Definition collectableBookmark (now threshold : Z) (b : Bookmark) : bool :=
  BDisabled b && negb (IsZero (BUpdatedAt b))
  && negb (Sub now (BUpdatedAt b) <? threshold).

(* a map of bookmarks built by the index *)
Definition wellKeyedBookmarks (m : gomap Bookmark) : Prop :=
  NoDup (map fst m) /\ forall k b, In (k, b) m -> BID b = k.

(* a candidate of the ranking is acceptable to the resolver *)
Definition healthy (d : Deps) (c : Candidate) : bool :=
  isAllowedRedirect (Hostname (CService c)) (AllowedDomains d)
  && (SkipTLSValidation d || ValidateTLS d (Hostname (CService c))).

(* the same entry with its time stamps erased *)
Definition untimed (s : Service) : Service :=
  mkService (ID s) (Hostname s) (Name s) (Sources s) 0 (Counter s) 0 0 0 (Disabled s).

(* [id] is the ID of a service of the snapshot that the collector deletes *)
Definition collected (now threshold : Z) (snapshot : list Service) (id : list ascii)
  : bool :=
  existsb (fun s => collectable now threshold s && eqs (ID s) id) snapshot.

Definition collectedBookmark (now threshold : Z) (snapshot : list Bookmark)
           (id : list ascii) : bool :=
  existsb (fun b => collectableBookmark now threshold b && eqs (BID b) id) snapshot.

(* the entries of a map whose key passes the test *)
Definition keep (V : Type) (test : list ascii -> bool) (m : gomap V) : gomap V :=
  filter (fun p => test (fst p)) m.

(* the world with the services of these ids removed from the index and,
   when the store can be reached, from the store *)
Definition sweep (gone : list ascii -> bool) (w : World) : World :=
  let idx := memIndex w in
  let st := store w in
  mkWorld
    (mkIndex (keep (fun k => negb (gone k)) (services idx)) (bookmarks idx)
             (lastReload idx) (lastBookmarkReload idx))
    (if reachable st then
       mkStore (reachable st) (cacheKeys st)
               (keep (fun k => negb (gone k)) (serviceKeys st))
               (filter (fun id => negb (gone id)) (allServices st))
               (bookmarkKeys st) (allBookmarks st)
     else st).

Definition sweepBookmarks (gone : list ascii -> bool) (w : World) : World :=
  let idx := memIndex w in
  let st := store w in
  mkWorld
    (mkIndex (services idx) (keep (fun k => negb (gone k)) (bookmarks idx))
             (lastReload idx) (lastBookmarkReload idx))
    (if reachable st then
       mkStore (reachable st) (cacheKeys st) (serviceKeys st) (allServices st)
               (keep (fun k => negb (gone k)) (bookmarkKeys st))
               (filter (fun id => negb (gone id)) (allBookmarks st))
     else st).

(* every record of the store is filed under its ID and listed in the set
   of all ids *)
Definition storeIndexed (st : Store) : Prop :=
  (NoDup (map fst (serviceKeys st))
   /\ forall k e, In (k, e) (serviceKeys st) -> ID e = k)
  /\ forall id, In id (map fst (serviceKeys st)) -> In id (allServices st).

(* the properties of a catalog entry that the mapper keeps *)
Definition allProps (config : ServicesConfig) : list ServiceProps :=
  flat_map (fun groupMap =>
    flat_map (fun group =>
      flat_map (fun serviceMap => map snd serviceMap) (snd group))
    groupMap)
  config.

End Laws.

(** * Properties *)

Import Strings Domain Index RedisStore Handlers Homepage Scheduler QuerySpec.
Import RankingSpec TemplateSpec ResolverSpec ReconcilerSpec Examples.

Unset Implicit Arguments.

(** ** Strings *)

Lemma eqs_true_iff (a b : list ascii) : eqs a b = true <-> a = b.
Proof.
  unfold eqs. destruct (list_eq_dec ascii_dec a b); split; congruence.
Qed.

Lemma eqs_false_iff (a b : list ascii) : eqs a b = false <-> a <> b.
Proof.
  unfold eqs. destruct (list_eq_dec ascii_dec a b); split; congruence.
Qed.

Lemma eqs_refl (a : list ascii) : eqs a a = true.
Proof. apply eqs_true_iff. reflexivity. Qed.

Lemma Split_nonempty (s : list ascii) (sep : ascii) : Split s sep <> [].
Proof.
  destruct s as [|c t]; simpl; [discriminate|].
  destruct (Ascii.eqb c sep); [discriminate|].
  destruct (Split t sep); discriminate.
Qed.

Lemma Split_hd (s : list ascii) (sep : ascii) :
  hd [] (Split s sep) = beforeFirst sep s.
Proof.
  induction s as [|c t IH]; simpl; [reflexivity|].
  destruct (Ascii.eqb c sep); [reflexivity|].
  destruct (Split t sep) eqn:E; simpl in *.
  - exfalso. revert E. apply Split_nonempty.
  - rewrite IH. reflexivity.
Qed.

Lemma Split_tl (s : list ascii) (sep : ascii) :
  existsb (Ascii.eqb sep) s = true ->
  tl (Split s sep) = Split (afterFirst sep s) sep.
Proof.
  induction s as [|c t IH]; simpl; [discriminate|].
  rewrite (Ascii.eqb_sym sep c).
  destruct (Ascii.eqb c sep); simpl; [reflexivity|].
  intros H. specialize (IH H).
  destruct (Split t sep) eqn:E; simpl in *.
  - exfalso. revert E. apply Split_nonempty.
  - exact IH.
Qed.

Lemma Split_tl_nodot (s : list ascii) (sep : ascii) :
  existsb (Ascii.eqb sep) s = false -> tl (Split s sep) = [].
Proof.
  induction s as [|c t IH]; simpl; [reflexivity|].
  rewrite (Ascii.eqb_sym sep c).
  destruct (Ascii.eqb c sep); simpl; [discriminate|].
  intros H. specialize (IH H).
  destruct (Split t sep) eqn:E; simpl in *; [reflexivity|exact IH].
Qed.

Lemma afterFirst_none (s : list ascii) (sep : ascii) :
  existsb (Ascii.eqb sep) s = false -> afterFirst sep s = [].
Proof.
  induction s as [|c t IH]; simpl; [reflexivity|].
  rewrite (Ascii.eqb_sym sep c).
  destruct (Ascii.eqb c sep); simpl; [discriminate|exact IH].
Qed.

Lemma beforeFirst_none (s : list ascii) (sep : ascii) :
  existsb (Ascii.eqb sep) s = false -> beforeFirst sep s = s.
Proof.
  induction s as [|c t IH]; simpl; [reflexivity|].
  rewrite (Ascii.eqb_sym sep c).
  destruct (Ascii.eqb c sep); simpl; [discriminate|].
  intros H. rewrite IH by exact H. reflexivity.
Qed.

Lemma HasPrefix_nil (s : list ascii) : HasPrefix s [] = true.
Proof. destruct s; reflexivity. Qed.

(* a one-character needle: Contains is membership *)
Lemma Contains_char (s : list ascii) (c : ascii) :
  Contains s [c] = existsb (Ascii.eqb c) s.
Proof.
  unfold Contains, Index.
  induction s as [|a t IH]; simpl; [reflexivity|].
  rewrite (Ascii.eqb_sym c a), HasPrefix_nil.
  destruct (Ascii.eqb a c); simpl; [reflexivity|].
  assert (Hpos : forall n, (0 <=? Z.of_nat n)%Z = true)
    by (intros n; apply Z.leb_le; lia).
  destruct (indexFrom t [c]) as [i|]; cbn [option_map].
  - rewrite Hpos in *. exact IH.
  - exact IH.
Qed.

(** Splitting on dots and then on spaces is splitting on spaces once the
    dots are read as spaces. *)
Lemma Split_dots_then_spaces (r : list ascii) :
  Split (dotsToSpaces r) space = flat_map (fun p => Split p space) (Split r dot).
Proof.
  induction r as [|c t IH]; [reflexivity|].
  simpl. destruct (Ascii.eqb c dot) eqn:Ed.
  - simpl. rewrite IH. reflexivity.
  - destruct (Split t dot) as [|p ps] eqn:Es.
    { exfalso. revert Es. apply Split_nonempty. }
    simpl in *. rewrite IH.
    destruct (Ascii.eqb c space); [reflexivity|].
    destruct (Split p space) as [|x xs] eqn:Ex.
    { exfalso. revert Ex. apply Split_nonempty. }
    reflexivity.
Qed.

Lemma filter_map_flat_map (A B C : Type) (f : C -> bool) (g : B -> C)
      (h : A -> list B) (l : list A) :
  filter f (map g (flat_map h l)) = flat_map (fun a => filter f (map g (h a))) l.
Proof.
  induction l as [|a l IH]; simpl; [reflexivity|].
  rewrite map_app, filter_app, IH. reflexivity.
Qed.

Lemma splitAndClean_dots (r : list ascii) :
  flat_map (fun p => if isEmpty p then [] else splitAndClean p space) (Split r dot)
  = splitAndClean (dotsToSpaces r) space.
Proof.
  unfold splitAndClean at 2. rewrite Split_dots_then_spaces, filter_map_flat_map.
  apply flat_map_ext. intros p. destruct p; reflexivity.
Qed.

(** ** C5: the query parser *)

(** C5, as stated, fails: the code splits on every dot, so the dots after
    the first one are token boundaries too.  On [a.b.c] the claim's
    subdomain fragments would be the single token [b.c]; the parser
    returns [b] and [c]. *)
Lemma C5_counterexample :
  SubdomainFragments (ParseQuery (str "a.b.c"))
    = [str "b"; str "c"]
  /\ Fields (afterFirst dot (normalized (str "a.b.c"))) = [str "b.c"]
  /\ SubdomainFragments (ParseQuery (str "a.b.c"))
     <> Fields (afterFirst dot (normalized (str "a.b.c"))).
Proof. vm_compute. repeat split; discriminate. Qed.

(** Only the space separates tokens: other white space is trimmed at the
    ends of a token but does not split it. *)
Example ParseQuery_tab_is_not_a_separator :
  TopLevelFragments (ParseQuery [("a")%char; ascii_of_nat 9; ("b")%char])
  = [[("a")%char; ascii_of_nat 9; ("b")%char]].
Proof. vm_compute. reflexivity. Qed.

(** C5 (amended): with [s] the trimmed lowercased input, the top-level
    fragments are the space-separated trimmed tokens of the part of [s]
    before its first dot, and the subdomain fragments are the
    space-separated trimmed tokens of the remainder after the first dot in
    which every further dot separates tokens like a space does; [Fragments]
    is the former followed by the latter and [HasDot] tells whether [s]
    contains a dot. *)
Theorem C5_ParseQuery_fragments (input : list ascii) :
  let s := normalized input in
  let query := ParseQuery input in
  Raw query = s
  /\ HasDot query = existsb (Ascii.eqb dot) s
  /\ TopLevelFragments query = splitAndClean (beforeFirst dot s) space
  /\ SubdomainFragments query = splitAndClean (dotsToSpaces (afterFirst dot s)) space
  /\ Fragments query = TopLevelFragments query ++ SubdomainFragments query.
Proof.
  unfold normalized, ParseQuery. cbv zeta.
  set (s := TrimSpace (ToLower input)).
  destruct s as [|c t] eqn:Es; [repeat split|].
  rewrite <- Es. replace (isEmpty s) with false by (rewrite Es; reflexivity).
  rewrite Contains_char.
  destruct (existsb (Ascii.eqb dot) s) eqn:Ed; simpl.
  - repeat split.
    + rewrite <- Split_hd. destruct (Split s dot) as [|p0 ps]; [reflexivity|].
      destruct p0; reflexivity.
    + rewrite (Split_tl _ _ Ed). apply splitAndClean_dots.
  - rewrite (afterFirst_none _ _ Ed), (beforeFirst_none _ _ Ed).
    repeat split. cbn. rewrite app_nil_r. reflexivity.
Qed.

(** ** The bubble sort of the ranking functions *)

Section BubbleSortFacts.
Variable A : Type.
Variable key : A -> R.

Local Open Scope R_scope.

Lemma innerLoop_perm (k : nat) : forall l, Permutation (innerLoop key k l) l.
Proof.
  induction k as [|k IH]; intros l; simpl; [reflexivity|].
  destruct l as [|a [|b t]]; try reflexivity.
  destruct (Rlt_dec (key a) (key b)).
  - rewrite IH. apply perm_swap.
  - rewrite IH. reflexivity.
Qed.

Lemma innerLoop_stable (v : R) (k : nat) :
  forall l, withKey key v (innerLoop key k l) = withKey key v l.
Proof.
  unfold withKey.
  induction k as [|k IH]; intros l; simpl; [reflexivity|].
  destruct l as [|a [|b t]]; try reflexivity.
  destruct (Rlt_dec (key a) (key b)) as [Hlt|Hge]; simpl; rewrite IH; simpl.
  - destruct (Req_dec_T (key a) v), (Req_dec_T (key b) v); try reflexivity.
    exfalso. lra.
  - reflexivity.
Qed.

(* a pass that stops before the end of [p] leaves what follows alone *)
Lemma innerLoop_app (k : nat) :
  forall p s, (k < length p)%nat -> innerLoop key k (p ++ s) = innerLoop key k p ++ s.
Proof.
  induction k as [|k IH]; intros p s Hk; [reflexivity|].
  destruct p as [|a [|b t]]; simpl in Hk; try lia.
  simpl. destruct (Rlt_dec (key a) (key b)).
  - simpl. f_equal. apply (IH (a :: t) s). simpl. lia.
  - simpl. f_equal. apply (IH (b :: t) s). simpl. lia.
Qed.

(* a full pass moves a least element to the end *)
Lemma innerLoop_full (k : nat) :
  forall l, length l = S k ->
  exists l' m, innerLoop key k l = l' ++ [m] /\ Forall (fun x => key m <= key x) l.
Proof.
  induction k as [|k IH]; intros l Hl.
  - destruct l as [|a [|b t]]; try discriminate.
    exists [], a. split; [reflexivity|]. apply Forall_cons; [lra|apply Forall_nil].
  - destruct l as [|a [|b t]]; try discriminate.
    simpl. destruct (Rlt_dec (key a) (key b)) as [Hlt|Hge].
    + destruct (IH (a :: t)) as (l' & m & E & Hm); [simpl in *; lia|].
      exists (b :: l'), m. rewrite E. split; [reflexivity|].
      inversion Hm as [|? ? Ha Ht]; subst.
      apply Forall_cons; [exact Ha|]. apply Forall_cons; [lra|exact Ht].
    + destruct (IH (b :: t)) as (l' & m & E & Hm); [simpl in *; lia|].
      exists (a :: l'), m. rewrite E. split; [reflexivity|].
      inversion Hm as [|? ? Hb Ht]; subst.
      apply Forall_cons; [lra|]. apply Forall_cons; [exact Hb|exact Ht].
Qed.

Lemma outerLoop_perm (n count : nat) :
  forall i l, Permutation (outerLoop key n i count l) l.
Proof.
  induction count as [|c IH]; intros i l; simpl; [reflexivity|].
  rewrite IH. apply innerLoop_perm.
Qed.

Lemma outerLoop_stable (v : R) (n count : nat) :
  forall i l, withKey key v (outerLoop key n i count l) = withKey key v l.
Proof.
  induction count as [|c IH]; intros i l; simpl; [reflexivity|].
  rewrite IH. apply innerLoop_stable.
Qed.

(** After [i] passes the last [i] elements are in their final place:
    sorted, and below everything before them. *)
Lemma outerLoop_sorted (n count : nat) :
  forall i p s,
    length p = S count -> length s = i -> n = (S count + i)%nat ->
    descending key s ->
    (forall x y, In x p -> In y s -> key y <= key x) ->
    descending key (outerLoop key n i count (p ++ s)).
Proof.
  induction count as [|c IH]; intros i p s Hp Hs Hn Hsorted Hbelow.
  - simpl. destruct p as [|x [|? ?]]; try discriminate.
    simpl. constructor; [exact Hsorted|].
    apply Forall_forall. intros y Hy. apply Hbelow; [left; reflexivity|exact Hy].
  - simpl.
    replace (n - i - 1)%nat with (S c) by lia.
    rewrite innerLoop_app by lia.
    destruct (innerLoop_full (S c) p Hp) as (l' & m & E & Hm).
    assert (Hperm : Permutation (l' ++ [m]) p)
      by (rewrite <- E; apply innerLoop_perm).
    rewrite E, <- app_assoc. simpl.
    assert (Hl' : forall x, In x l' -> In x p).
    { intros x Hx. apply (Permutation_in _ Hperm), in_or_app. left. exact Hx. }
    assert (Hmp : In m p).
    { apply (Permutation_in _ Hperm), in_or_app. right. left. reflexivity. }
    apply IH.
    + apply Permutation_length in Hperm. rewrite length_app in Hperm.
      simpl in Hperm. lia.
    + simpl. lia.
    + lia.
    + constructor; [exact Hsorted|].
      apply Forall_forall. intros y Hy. apply Hbelow; assumption.
    + intros x y Hx [Hy|Hy].
      * subst y. rewrite Forall_forall in Hm. apply Hm, Hl', Hx.
      * apply Hbelow; [apply Hl', Hx|exact Hy].
Qed.

Theorem bubbleSort_sorted (l : list A) : descending key (bubbleSort key l).
Proof.
  unfold bubbleSort. destruct l as [|a t]; [constructor|].
  cbv zeta.
  replace (outerLoop key (length (a :: t)) 0 (length (a :: t) - 1) (a :: t))
    with (outerLoop key (length (a :: t)) 0 (length t) ((a :: t) ++ []))
    by (rewrite app_nil_r; simpl; rewrite Nat.sub_0_r; reflexivity).
  apply outerLoop_sorted; simpl; try lia. constructor.
Qed.

Theorem bubbleSort_perm (l : list A) : Permutation (bubbleSort key l) l.
Proof. apply outerLoop_perm. Qed.

Theorem bubbleSort_stable (v : R) (l : list A) :
  withKey key v (bubbleSort key l) = withKey key v l.
Proof. apply outerLoop_stable. Qed.

End BubbleSortFacts.

(** ** C8: ranking *)

Local Open Scope R_scope.

Lemma Log10_1 : Log10 1 = 0.
Proof. unfold Log10. rewrite ln_1. lra. Qed.

Lemma usageScoreOf_usage (service : Service) :
  (0 <= Counter service)%Z -> usageScoreOf service = usage service.
Proof.
  intros Hc. unfold usageScoreOf, usage, ScoreUsageWeight.
  destruct (Z.ltb_spec 0 (Counter service)) as [Hpos|Hzero].
  - lra.
  - replace (Counter service) with 0%Z by lia.
    replace (0 + 1) with 1 by lra. rewrite Log10_1. lra.
Qed.

Lemma rankOne_candidatesOf (query : Query) (services : list Service) :
  (forall s, In s services -> (0 <= Counter s)%Z) ->
  flat_map (rankOne query) services = candidatesOf query services.
Proof.
  unfold candidatesOf.
  induction services as [|s l IH]; intros Hc; [reflexivity|].
  simpl. rewrite IH by (intros x Hx; apply Hc; right; exact Hx).
  unfold rankOne, ranked.
  destruct (Disabled s); simpl; [reflexivity|].
  destruct (Req_dec_T (Score query s) 0); simpl; [reflexivity|].
  unfold candidateOf. rewrite usageScoreOf_usage by (apply Hc; left; reflexivity).
  reflexivity.
Qed.

(* the ranking in the arithmetic of the real numbers, where the two
   multiplications by 0.1 and by 100 are one multiplication by 10 *)
Lemma RankCandidates_over_reals (query : Query) (services : list Service) :
  (forall s, In s services -> (0 <= Counter s)%Z) ->
  let result := RankCandidates query services in
  Permutation result (candidatesOf query services)
  /\ descending TotalScore result
  /\ forall v, withKey TotalScore v result
               = withKey TotalScore v (candidatesOf query services).
Proof.
  intros Hc result. subst result. unfold RankCandidates, sortCandidates.
  rewrite (rankOne_candidatesOf query services Hc).
  split; [apply bubbleSort_perm|].
  split; [apply bubbleSort_sorted|].
  intros v. apply bubbleSort_stable.
Qed.

(** *** The bubble sort on a comparison *)

Section ComparisonSortFacts.
Variable A : Type.
Variable less : A -> A -> bool.
Variable dom : list A.
Hypothesis Hstrict : RankedSpec.ordersStrictly less dom.

Lemma less_irrefl (a : A) : In a dom -> less a a = false.
Proof.
  intros Ha. destruct (less a a) eqn:E; [|reflexivity].
  rewrite <- E. apply (proj1 Hstrict a a Ha Ha E).
Qed.

Lemma less_chain (a b c : A) :
  In a dom -> In b dom -> In c dom ->
  less a b = false -> less b c = false -> less a c = false.
Proof. apply (proj2 Hstrict). Qed.

Lemma cmp_innerLoop_perm (k : nat) :
  forall l, Permutation (Float64.innerLoop less k l) l.
Proof.
  induction k as [|k IH]; intros l; simpl; [reflexivity|].
  destruct l as [|a [|b t]]; try reflexivity.
  destruct (less a b).
  - rewrite IH. apply perm_swap.
  - rewrite IH. reflexivity.
Qed.

Lemma cmp_innerLoop_stable (v : A) (k : nat) :
  In v dom ->
  forall l, RankedSpec.within dom l ->
  RankedSpec.tiedWith less v (Float64.innerLoop less k l)
  = RankedSpec.tiedWith less v l.
Proof.
  intros Hv. unfold RankedSpec.tiedWith.
  induction k as [|k IH]; intros l Hl; simpl; [reflexivity|].
  destruct l as [|a [|b t]]; try reflexivity.
  assert (Ha : In a dom) by (apply Hl; left; reflexivity).
  assert (Hb : In b dom) by (apply Hl; right; left; reflexivity).
  destruct (less a b) eqn:Hab; simpl.
  - rewrite IH by (intros x [<-|Hx]; [exact Ha|apply Hl; right; right; exact Hx]).
    simpl.
    destruct (less a v) eqn:Hav, (less v a) eqn:Hva; simpl; try reflexivity.
    destruct (less b v) eqn:Hbv, (less v b) eqn:Hvb; simpl; try reflexivity.
    exfalso. rewrite (less_chain a v b Ha Hv Hb Hav Hvb) in Hab. discriminate.
  - rewrite IH by (intros x Hx; apply Hl; right; exact Hx). reflexivity.
Qed.

Lemma cmp_innerLoop_app (k : nat) :
  forall p s, (k < length p)%nat ->
  Float64.innerLoop less k (p ++ s) = Float64.innerLoop less k p ++ s.
Proof.
  induction k as [|k IH]; intros p s Hk; [reflexivity|].
  destruct p as [|a [|b t]]; simpl in Hk; try lia.
  simpl. destruct (less a b).
  - simpl. f_equal. apply (IH (a :: t) s). simpl. lia.
  - simpl. f_equal. apply (IH (b :: t) s). simpl. lia.
Qed.

(* a full pass moves to the end an element that nothing is less than *)
Lemma cmp_innerLoop_full (k : nat) :
  forall l, RankedSpec.within dom l -> length l = S k ->
  exists l' m, Float64.innerLoop less k l = l' ++ [m]
               /\ In m l /\ Forall (fun x => less x m = false) l.
Proof.
  induction k as [|k IH]; intros l Hl Hlen.
  - destruct l as [|a [|b t]]; try discriminate.
    exists [], a. split; [reflexivity|]. split; [left; reflexivity|].
    apply Forall_cons; [|apply Forall_nil].
    apply less_irrefl, Hl. left. reflexivity.
  - destruct l as [|a [|b t]]; try discriminate.
    assert (Ha : In a dom) by (apply Hl; left; reflexivity).
    assert (Hb : In b dom) by (apply Hl; right; left; reflexivity).
    simpl. destruct (less a b) eqn:Hab.
    + destruct (IH (a :: t)) as (l' & m & E & Hin & Hm).
      { intros x [<-|Hx]; [exact Ha|apply Hl; right; right; exact Hx]. }
      { simpl in *. lia. }
      exists (b :: l'), m. rewrite E. split; [reflexivity|].
      assert (Hmd : In m dom).
      { destruct Hin as [<-|Hin]; [exact Ha|apply Hl; right; right; exact Hin]. }
      split; [destruct Hin as [<-|Hin]; [left; reflexivity|right; right; exact Hin]|].
      inversion Hm as [|? ? Ham Ht]; subst.
      apply Forall_cons; [exact Ham|]. apply Forall_cons; [|exact Ht].
      apply (less_chain b a m Hb Ha Hmd); [|exact Ham].
      apply (proj1 Hstrict a b Ha Hb Hab).
    + destruct (IH (b :: t)) as (l' & m & E & Hin & Hm).
      { intros x Hx. apply Hl. right. exact Hx. }
      { simpl in *. lia. }
      exists (a :: l'), m. rewrite E. split; [reflexivity|].
      assert (Hmd : In m dom) by (apply Hl; right; exact Hin).
      split; [right; exact Hin|].
      inversion Hm as [|? ? Hbm Ht]; subst.
      apply Forall_cons; [|apply Forall_cons; [exact Hbm|exact Ht]].
      apply (less_chain a b m Ha Hb Hmd Hab Hbm).
Qed.

Lemma cmp_outerLoop_perm (n count : nat) :
  forall i l, Permutation (Float64.outerLoop less n i count l) l.
Proof.
  induction count as [|c IH]; intros i l; simpl; [reflexivity|].
  rewrite IH. apply cmp_innerLoop_perm.
Qed.

Lemma cmp_outerLoop_stable (v : A) (n count : nat) :
  In v dom ->
  forall i l, RankedSpec.within dom l ->
  RankedSpec.tiedWith less v (Float64.outerLoop less n i count l)
  = RankedSpec.tiedWith less v l.
Proof.
  intros Hv.
  induction count as [|c IH]; intros i l Hl; simpl; [reflexivity|].
  rewrite IH.
  - apply cmp_innerLoop_stable; assumption.
  - intros x Hx. apply Hl.
    apply (Permutation_in _ (cmp_innerLoop_perm (n - i - 1) l)). exact Hx.
Qed.

(* after [i] passes the last [i] elements are in their final place *)
Lemma cmp_outerLoop_sorted (n count : nat) :
  forall i p s,
    RankedSpec.within dom p ->
    length p = S count -> length s = i -> n = (S count + i)%nat ->
    RankedSpec.nonIncreasing less s ->
    (forall x y, In x p -> In y s -> less x y = false) ->
    RankedSpec.nonIncreasing less (Float64.outerLoop less n i count (p ++ s)).
Proof.
  unfold RankedSpec.nonIncreasing.
  induction count as [|c IH]; intros i p s Hdom Hp Hs Hn Hsorted Hbelow.
  - simpl. destruct p as [|x [|? ?]]; try discriminate.
    simpl. constructor; [exact Hsorted|].
    apply Forall_forall. intros y Hy. apply Hbelow; [left; reflexivity|exact Hy].
  - simpl.
    replace (n - i - 1)%nat with (S c) by lia.
    rewrite cmp_innerLoop_app by lia.
    destruct (cmp_innerLoop_full (S c) p Hdom Hp) as (l' & m & E & Hmp & Hm).
    assert (Hperm : Permutation (l' ++ [m]) p)
      by (rewrite <- E; apply cmp_innerLoop_perm).
    rewrite E, <- app_assoc. simpl.
    assert (Hl' : forall x, In x l' -> In x p).
    { intros x Hx. apply (Permutation_in _ Hperm), in_or_app. left. exact Hx. }
    apply IH.
    + intros x Hx. apply Hdom, Hl', Hx.
    + apply Permutation_length in Hperm. rewrite length_app in Hperm.
      simpl in Hperm. lia.
    + simpl. lia.
    + lia.
    + constructor; [exact Hsorted|].
      apply Forall_forall. intros y Hy. apply Hbelow; assumption.
    + intros x y Hx [Hy|Hy].
      * subst y. rewrite Forall_forall in Hm. apply Hm, Hl', Hx.
      * apply Hbelow; [apply Hl', Hx|exact Hy].
Qed.

Lemma cmp_bubbleSort_sorted (l : list A) :
  RankedSpec.within dom l -> RankedSpec.nonIncreasing less (Float64.bubbleSort less l).
Proof.
  intros Hl. unfold Float64.bubbleSort. destruct l as [|a t]; [constructor|].
  cbv zeta.
  replace (Float64.outerLoop less (length (a :: t)) 0 (length (a :: t) - 1) (a :: t))
    with (Float64.outerLoop less (length (a :: t)) 0 (length t) ((a :: t) ++ []))
    by (rewrite app_nil_r; simpl; rewrite Nat.sub_0_r; reflexivity).
  apply cmp_outerLoop_sorted; simpl; try lia; [exact Hl|constructor].
Qed.

Lemma cmp_bubbleSort_perm (l : list A) : Permutation (Float64.bubbleSort less l) l.
Proof. apply cmp_outerLoop_perm. Qed.

Lemma cmp_bubbleSort_stable (v : A) (l : list A) :
  In v dom -> RankedSpec.within dom l ->
  RankedSpec.tiedWith less v (Float64.bubbleSort less l)
  = RankedSpec.tiedWith less v l.
Proof. intros Hv Hl. apply cmp_outerLoop_stable; assumption. Qed.

End ComparisonSortFacts.

Lemma Float64_rankOne_candidatesOf (ar : Float64.Arithmetic)
    (Score : Query -> Service -> Float64.float64 ar)
    (query : Query) (services : list Service) :
  flat_map (Float64.rankOne ar Score query) services
  = RankedSpec.candidatesOf ar Score query services.
Proof.
  unfold RankedSpec.candidatesOf.
  induction services as [|s l IH]; [reflexivity|].
  simpl. rewrite IH.
  unfold Float64.rankOne, RankedSpec.ranked.
  destruct (Disabled s); simpl; [reflexivity|].
  destruct (Float64.eq ar (Score query s) (Float64.zero ar)); reflexivity.
Qed.

(* the comparison of the real numbers orders any candidates strictly *)
Lemma exact_ordersStrictly (l : list (Float64.Candidate Float64.exact)) :
  RankedSpec.ordersStrictly (@Float64.below Float64.exact) l.
Proof.
  unfold RankedSpec.ordersStrictly, Float64.below. simpl. split.
  - intros a b _ _.
    destruct (Rlt_dec (Float64.TotalScore a) (Float64.TotalScore b)),
             (Rlt_dec (Float64.TotalScore b) (Float64.TotalScore a));
      try reflexivity; try discriminate. exfalso. lra.
  - intros a b c _ _ _.
    destruct (Rlt_dec (Float64.TotalScore a) (Float64.TotalScore b)),
             (Rlt_dec (Float64.TotalScore b) (Float64.TotalScore c)),
             (Rlt_dec (Float64.TotalScore a) (Float64.TotalScore c));
      try reflexivity; try discriminate. exfalso. lra.
Qed.

(* over the real numbers the ranking is the one of [Domain] *)
Lemma innerLoop_exact (k : nat) :
  forall l : list (Float64.Candidate Float64.exact),
  map Float64.toDomain (Float64.innerLoop (@Float64.below Float64.exact) k l)
  = innerLoop TotalScore k (map Float64.toDomain l).
Proof.
  induction k as [|k IH]; intros l; [reflexivity|].
  destruct l as [|a [|b t]]; try reflexivity.
  simpl. unfold Float64.below at 1. simpl.
  destruct (Rlt_dec (Float64.TotalScore a) (Float64.TotalScore b));
    simpl; f_equal; apply IH.
Qed.

Lemma outerLoop_exact (n count : nat) :
  forall i (l : list (Float64.Candidate Float64.exact)),
  map Float64.toDomain (Float64.outerLoop (@Float64.below Float64.exact) n i count l)
  = outerLoop TotalScore n i count (map Float64.toDomain l).
Proof.
  induction count as [|c IH]; intros i l; [reflexivity|].
  simpl. rewrite IH, innerLoop_exact. reflexivity.
Qed.

Lemma RankCandidates_exact (query : Query) (services : list Service) :
  map Float64.toDomain (Float64.RankCandidates Float64.exact Score query services)
  = RankCandidates query services.
Proof.
  unfold Float64.RankCandidates, Float64.sortCandidates, Float64.bubbleSort,
    RankCandidates, sortCandidates, bubbleSort.
  cbv zeta. rewrite outerLoop_exact.
  assert (E : map Float64.toDomain
                (flat_map (Float64.rankOne Float64.exact Score query) services)
              = flat_map (rankOne query) services).
  { induction services as [|s l IH]; [reflexivity|].
    simpl. rewrite map_app, IH. f_equal.
    unfold Float64.rankOne, rankOne. destruct (Disabled s); [reflexivity|].
    simpl. destruct (Req_dec_T (Score query s) 0); reflexivity. }
  rewrite <- E, !length_map. reflexivity.
Qed.


(** ** Fragment scores *)

Lemma calculatePositionBonus_pos (p : Z) : 0 < calculatePositionBonus p.
Proof.
  unfold calculatePositionBonus, ScorePositionBonus.
  pose proof (exp_pos (- IZR p * (3 / 10))). lra.
Qed.

Lemma byteOf_inj (a b : ascii) : byteOf a = byteOf b -> a = b.
Proof.
  unfold byteOf. intros H.
  rewrite <- (ascii_N_embedding a), <- (ascii_N_embedding b), H. reflexivity.
Qed.

Lemma ContainsRune_In (s : list ascii) (c : ascii) :
  (byteOf c < RuneSelf)%N -> ContainsRune s (byteOf c) = true <-> In c s.
Proof.
  intros Hc. unfold ContainsRune.
  replace (byteOf c <? RuneSelf)%N with true by (symmetry; apply N.ltb_lt; exact Hc).
  rewrite existsb_exists. split.
  - intros (x & Hx & E). apply N.eqb_eq in E. apply byteOf_inj in E. subst. exact Hx.
  - intros H. exists c. split; [exact H|apply N.eqb_refl].
Qed.

Lemma runes_ascii7 (s : list ascii) : ascii7 s -> runes s = map byteOf s.
Proof.
  unfold runes. induction 1 as [|c t Hc Ht IH]; [reflexivity|].
  cbn [runesFrom DecodeRuneInString].
  replace (byteOf c <? RuneSelf)%N with true by (symmetry; apply N.ltb_lt; exact Hc).
  cbn [Nat.sub map]. rewrite IH. reflexivity.
Qed.

Lemma count_loop (h q : list ascii) (m : nat) :
  ascii7 q ->
  fold_left (fun m c => if ContainsRune h c then S m else m) (map byteOf q) m
  = (m + occurring q h)%nat.
Proof.
  unfold occurring. intros Hq. revert m.
  induction Hq as [|c t Hc Ht IH]; intros m; simpl; [lia|].
  rewrite IH.
  destruct (in_dec ascii_dec c h) as [Hin|Hout].
  - apply (ContainsRune_In h c Hc) in Hin. rewrite Hin. simpl. lia.
  - destruct (ContainsRune h (byteOf c)) eqn:E; [|reflexivity].
    apply (ContainsRune_In h c Hc) in E. contradiction.
Qed.

Lemma calculateSimilarity_similarityOf (q h : list ascii) :
  q <> [] -> h <> [] -> ascii7 q -> calculateSimilarity q h = similarityOf q h.
Proof.
  intros Hq Hh Ha. unfold calculateSimilarity, similarityOf.
  rewrite (runes_ascii7 q Ha), (count_loop h q 0 Ha).
  destruct q; [contradiction|]. destruct h; [contradiction|].
  cbn [isEmpty orb]. reflexivity.
Qed.

Lemma runesFrom_length (s : list ascii) :
  forall skip, (length (runesFrom skip s) <= length s)%nat.
Proof.
  induction s as [|c t IH]; intros skip; [simpl; lia|].
  cbn [runesFrom]. destruct skip as [|k].
  - destruct (DecodeRuneInString (c :: t)) as [r size].
    cbn [length]. specialize (IH (size - 1)%nat). lia.
  - cbn [length]. specialize (IH k). lia.
Qed.

Lemma matches_le (h : list ascii) (l : list rune) :
  forall m,
    (fold_left (fun m c => if ContainsRune h c then S m else m) l m
     <= m + length l)%nat.
Proof.
  induction l as [|r l IH]; intros m; simpl; [lia|].
  destruct (ContainsRune h r); [specialize (IH (S m))|specialize (IH m)]; lia.
Qed.

Lemma alnum_lowers_to_ascii7 (c : ascii) :
  isLetter c || isDigit c = true -> (byteOf (toLowerRune c) < RuneSelf)%N.
Proof.
  destruct c as [b0 b1 b2 b3 b4 b5 b6 b7].
  destruct b0, b1, b2, b3, b4, b5, b6, b7; vm_compute;
    intros H; first [discriminate H|reflexivity].
Qed.

Lemma normalizeFragment_ascii7 (s : list ascii) : ascii7 (normalizeFragment s).
Proof.
  unfold ascii7, normalizeFragment. apply Forall_forall. intros c Hc.
  apply in_map_iff in Hc. destruct Hc as (x & <- & Hx).
  apply filter_In in Hx. apply alnum_lowers_to_ascii7. apply Hx.
Qed.

Lemma occurring_le (q h : list ascii) : (occurring q h <= length q)%nat.
Proof. unfold occurring. apply filter_length_le. Qed.

Lemma occurring_all (q h : list ascii) :
  (forall c, In c q -> In c h) -> occurring q h = length q.
Proof.
  unfold occurring. induction q as [|c t IH]; intros Hall; [reflexivity|].
  simpl. destruct (in_dec ascii_dec c h) as [Hin|Hout].
  - simpl. rewrite IH; [reflexivity|]. intros x Hx. apply Hall. right. exact Hx.
  - exfalso. apply Hout, Hall. left. reflexivity.
Qed.

Lemma similarityOf_bounds (q h : list ascii) :
  q <> [] -> 0 <= similarityOf q h <= 1.
Proof.
  intros Hq. unfold similarityOf.
  assert (Hlen : 0 < INR (length q)).
  { apply lt_0_INR. destruct q; [contradiction|simpl; lia]. }
  pose proof (pos_INR (occurring q h)) as H0.
  pose proof (le_INR _ _ (occurring_le q h)) as H1.
  split.
  - apply Rmult_le_pos; [exact H0|]. left. apply Rinv_0_lt_compat. exact Hlen.
  - apply Rmult_le_reg_r with (INR (length q)); [exact Hlen|].
    unfold Rdiv. rewrite Rmult_assoc, Rinv_l by lra. lra.
Qed.

Lemma isNormalized_spec (s : list ascii) :
  isNormalized s = true -> s <> [] /\ normalizeFragment s = s.
Proof.
  unfold isNormalized. intros H. apply andb_true_iff in H. destruct H as [Hne Heq].
  apply eqs_true_iff in Heq. split; [|exact Heq].
  destruct s; [discriminate|discriminate].
Qed.

Lemma indexFrom_cons (c : ascii) (t q : list ascii) :
  indexFrom (c :: t) q
  = if HasPrefix (c :: t) q then Some 0%nat else option_map S (indexFrom t q).
Proof. reflexivity. Qed.

(* the position of a match lies inside the host fragment *)
Lemma indexFrom_bound (h q : list ascii) (i : nat) :
  q <> [] -> indexFrom h q = Some i -> (i < length h)%nat.
Proof.
  intros Hq. revert i. induction h as [|c t IH]; intros i.
  - destruct q; [contradiction|]. simpl. discriminate.
  - rewrite indexFrom_cons. destruct (HasPrefix (c :: t) q).
    + intros E. injection E as <-. simpl. lia.
    + destruct (indexFrom t q) as [j|]; simpl; [|discriminate].
      intros E. injection E as <-. specialize (IH j eq_refl). lia.
Qed.

(** scoreFragment on normalized fragments, by match level *)
Lemma scoreFragment_by_level (q h : list ascii) (p : Z) :
  isNormalized q = true -> isNormalized h = true ->
  scoreFragment q h p =
  match matchLevel q h with
  | Exact => ScoreExactMatch + calculatePositionBonus p
  | Prefix => ScorePrefixMatch + calculatePositionBonus p
  | Substring =>
      ScoreSubstringMatch
      + ScorePositionBonus * (1 - IZR (Index h q) / INR (length h))
  | Other =>
      if Rlt_dec (1 / 2) (similarityOf q h)
      then ScoreFuzzyMatch * similarityOf q h else 0
  end.
Proof.
  intros Hq Hh.
  destruct (isNormalized_spec _ Hq) as [Hq0 Hqn].
  destruct (isNormalized_spec _ Hh) as [Hh0 Hhn].
  assert (Ha : ascii7 q) by (rewrite <- Hqn; apply normalizeFragment_ascii7).
  unfold scoreFragment, scoreNormalized, matchLevel. cbv zeta. rewrite Hqn, Hhn.
  rewrite (calculateSimilarity_similarityOf q h Hq0 Hh0 Ha).
  destruct q; [contradiction|]. destruct h; [contradiction|].
  cbn [isEmpty orb].
  repeat match goal with |- context [if ?b then _ else _] =>
    lazymatch type of b with bool => destruct b; [reflexivity|] end end.
  reflexivity.
Qed.

Lemma substring_score_bounds (q h : list ascii) :
  q <> [] -> matchLevel q h = Substring ->
  50 < ScoreSubstringMatch
       + ScorePositionBonus * (1 - IZR (Index h q) / INR (length h)) <= 60.
Proof.
  intros Hq. unfold matchLevel, Contains, Index.
  destruct (eqs q h); [discriminate|].
  destruct (HasPrefix h q); [discriminate|].
  destruct (indexFrom h q) as [i|] eqn:Ei; [|cbn; discriminate].
  intros _. pose proof (@indexFrom_bound h q i Hq Ei) as Hi.
  unfold ScoreSubstringMatch, ScorePositionBonus.
  rewrite <- INR_IZR_INZ.
  assert (Hlen : 0 < INR (length h)) by (apply lt_0_INR; lia).
  assert (H0 : 0 <= INR i / INR (length h)).
  { apply Rmult_le_pos; [apply pos_INR|]. left. apply Rinv_0_lt_compat. exact Hlen. }
  assert (H1 : INR i / INR (length h) < 1).
  { apply Rmult_lt_reg_r with (INR (length h)); [exact Hlen|].
    unfold Rdiv. rewrite Rmult_assoc, Rinv_l by lra.
    apply lt_INR in Hi. lra. }
  lra.
Qed.

Lemma fuzzy_score_bounds (q h : list ascii) :
  q <> [] ->
  0 <= (if Rlt_dec (1 / 2) (similarityOf q h)
        then ScoreFuzzyMatch * similarityOf q h else 0) <= 25.
Proof.
  intros Hq. pose proof (@similarityOf_bounds q h Hq) as Hb.
  unfold ScoreFuzzyMatch. destruct (Rlt_dec (1 / 2) (similarityOf q h)); lra.
Qed.

(** ** C7: the match levels are strictly ordered *)

(** C7: at any common position, on nonempty normalized fragments, an exact
    match scores strictly more than any prefix match, a prefix match
    strictly more than any substring match, and a substring match strictly
    more than any fuzzy match, whose score never exceeds 25. *)
Theorem C7_levels_strictly_ordered
        (qe he qp hp qs hs qf hf : list ascii) (p : Z) :
  isNormalized qe = true -> isNormalized he = true ->
  isNormalized qp = true -> isNormalized hp = true ->
  isNormalized qs = true -> isNormalized hs = true ->
  isNormalized qf = true -> isNormalized hf = true ->
  matchLevel qe he = Exact ->
  matchLevel qp hp = Prefix ->
  matchLevel qs hs = Substring ->
  matchLevel qf hf = Other ->
  scoreFragment qe he p > scoreFragment qp hp p
  /\ scoreFragment qp hp p > scoreFragment qs hs p
  /\ scoreFragment qs hs p > scoreFragment qf hf p
  /\ scoreFragment qf hf p <= 25.
Proof.
  intros Nqe Nhe Nqp Nhp Nqs Nhs Nqf Nhf Le Lp Ls Lf.
  rewrite (@scoreFragment_by_level qe he p Nqe Nhe), Le.
  rewrite (@scoreFragment_by_level qp hp p Nqp Nhp), Lp.
  rewrite (@scoreFragment_by_level qs hs p Nqs Nhs), Ls.
  rewrite (@scoreFragment_by_level qf hf p Nqf Nhf), Lf.
  pose proof (calculatePositionBonus_pos p) as Hb.
  pose proof (@substring_score_bounds qs hs (proj1 (isNormalized_spec _ Nqs)) Ls) as Hs.
  pose proof (@fuzzy_score_bounds qf hf (proj1 (isNormalized_spec _ Nqf))) as Hf.
  unfold ScoreExactMatch, ScorePrefixMatch. lra.
Qed.

Lemma C7_levels_witness :
  scoreFragment (str "abc") (str "abc") 0 > scoreFragment (str "ab") (str "abc") 0
  /\ scoreFragment (str "ab") (str "abc") 0 > scoreFragment (str "bc") (str "abc") 0
  /\ scoreFragment (str "bc") (str "abc") 0 > scoreFragment (str "cba") (str "abc") 0
  /\ scoreFragment (str "cba") (str "abc") 0 <= 25.
Proof.
  apply (@C7_levels_strictly_ordered
           (str "abc") (str "abc") (str "ab") (str "abc")
           (str "bc") (str "abc") (str "cba") (str "abc") 0%Z);
    vm_compute; reflexivity.
Defined.

(** ** C10: the fuzzy similarity *)

Lemma plain_normalized (s : list ascii) : plain s -> isNormalized s = true.
Proof.
  intros [Hne Hall]. unfold isNormalized.
  destruct s as [|c0 t]; [contradiction|]. cbn [isEmpty negb andb].
  apply eqs_true_iff. unfold normalizeFragment.
  induction Hall as [|c l Hc Hl IH]; [reflexivity|].
  assert (Hkeep : isLetter c || isDigit c = true).
  { unfold isLetter. apply orb_true_iff in Hc. destruct Hc as [Hc|Hc]; rewrite Hc.
    - rewrite orb_true_r. reflexivity.
    - apply orb_true_r. }
  assert (Hlow : toLowerRune c = c).
  { revert Hc. clear. destruct c as [b0 b1 b2 b3 b4 b5 b6 b7].
    destruct b0, b1, b2, b3, b4, b5, b6, b7; vm_compute;
      intros H; first [discriminate H|reflexivity]. }
  cbn [filter]. rewrite Hkeep. cbn [map]. rewrite Hlow.
  destruct l as [|c1 l']; [reflexivity|].
  rewrite IH by discriminate. reflexivity.
Qed.

Lemma existsb_byteOf (c : ascii) (h : list ascii) :
  existsb (N.eqb (byteOf c)) (map byteOf h)
  = if in_dec ascii_dec c h then true else false.
Proof.
  destruct (in_dec ascii_dec c h) as [Hin|Hout].
  - apply existsb_exists. exists (byteOf c). split; [apply in_map; exact Hin|].
    apply N.eqb_refl.
  - destruct (existsb _ _) eqn:E; [|reflexivity].
    apply existsb_exists in E. destruct E as (x & Hx & E).
    apply in_map_iff in Hx. destruct Hx as (y & <- & Hy).
    apply N.eqb_eq, byteOf_inj in E. subst y. contradiction.
Qed.

(* on text below RuneSelf the characters are the bytes *)
Lemma characterFraction_ascii7 (q h : list ascii) :
  ascii7 q -> ascii7 h -> characterFraction q h = similarityOf q h.
Proof.
  intros Hq Hh. unfold characterFraction, similarityOf, occurringRunes, occurring.
  rewrite (runes_ascii7 q Hq), (runes_ascii7 h Hh), length_map.
  do 2 f_equal. clear Hq.
  induction q as [|c q IH]; [reflexivity|].
  cbn [map filter]. rewrite existsb_byteOf.
  destruct (in_dec ascii_dec c h); cbn [length]; rewrite IH; reflexivity.
Qed.

Lemma count_filter (h : list ascii) (l : list rune) :
  forall m,
    fold_left (fun m c => if ContainsRune h c then S m else m) l m
    = (m + length (filter (ContainsRune h) l))%nat.
Proof.
  induction l as [|r l IH]; intros m; simpl; [lia|].
  rewrite IH. destruct (ContainsRune h r); simpl; lia.
Qed.




(** ** C6: the strict subdomain requirement *)

Lemma toLowerRune_idem (c : ascii) : toLowerRune (toLowerRune c) = toLowerRune c.
Proof.
  destruct c as [b0 b1 b2 b3 b4 b5 b6 b7].
  destruct b0, b1, b2, b3, b4, b5, b6, b7; vm_compute; reflexivity.
Qed.

Lemma ToLower_idem (s : list ascii) : ToLower (ToLower s) = ToLower s.
Proof.
  unfold ToLower. rewrite map_map. apply map_ext. intros c. apply toLowerRune_idem.
Qed.

Lemma HostnameFragments_ToLower (hostname : list ascii) :
  HostnameFragments (ToLower hostname) = HostnameFragments hostname.
Proof. unfold HostnameFragments. rewrite ToLower_idem. reflexivity. Qed.

Lemma sum_of_zeros (A : Type) (g : A -> R) (l : list A) :
  (forall x, In x l -> g x = 0) ->
  forall acc, fold_left (fun acc x => acc + g x) l acc = acc.
Proof.
  induction l as [|x l IH]; intros Hz acc; [reflexivity|].
  simpl. rewrite IH by (intros y Hy; apply Hz; right; exact Hy).
  rewrite (Hz x) by (left; reflexivity). lra.
Qed.

Lemma bestSubdomainScore_zero (qFrag : list ascii) (subdomains : list (list ascii)) :
  forall i,
    (forall j h, nth_error subdomains j = Some h ->
                 scoreFragment qFrag h (i + Z.of_nat j) = 0) ->
    bestSubdomainScore qFrag subdomains i 0 = 0.
Proof.
  induction subdomains as [|h rest IH]; intros i Hz; [reflexivity|].
  simpl. pose proof (Hz 0%nat h eq_refl) as H0.
  rewrite Z.add_0_r in H0. rewrite H0.
  destruct (Rlt_dec 0 0); [lra|].
  apply IH. intros j h' Hj.
  replace (i + 1 + Z.of_nat j)%Z with (i + Z.of_nat (S j))%Z by lia.
  apply Hz. exact Hj.
Qed.

(** C6: when the query has a dot, the score is 0 as soon as the hostname has
    fewer than two labels, or the query has no subdomain fragment, or every
    subdomain fragment scores 0 against every label after the first. *)
Theorem C6_strict_subdomain (query : Query) (service : Service) :
  HasDot query = true ->
  let labels := HostnameFragments (Hostname service) in
  ((length labels < 2)%nat
   \/ SubdomainFragments query = []
   \/ (forall f i h,
         In f (SubdomainFragments query) ->
         nth_error (tl labels) i = Some h ->
         scoreFragment f h (Z.of_nat i) = 0)) ->
  Score query service = 0.
Proof.
  intros Hdot labels H. unfold Score. rewrite Hdot. cbn [negb].
  rewrite HostnameFragments_ToLower. fold labels.
  unfold scoreWithSubdomains.
  destruct ((length (Fragments query) =? 0)%nat || (length labels =? 0)%nat);
    [reflexivity|].
  destruct (length (SubdomainFragments query) =? 0)%nat eqn:Es; [reflexivity|].
  destruct (length labels <? 2)%nat eqn:El; [reflexivity|].
  destruct H as [H|[H|H]].
  - apply Nat.ltb_ge in El. lia.
  - rewrite H in Es. discriminate.
  - rewrite (sum_of_zeros _ (fun qFrag => bestSubdomainScore qFrag (tl labels) 0 0)).
    + destruct (Req_dec_T 0 0); [reflexivity|contradiction].
    + intros f Hf. apply bestSubdomainScore_zero. intros j h Hj.
      rewrite Z.add_0_l. apply (H f j h Hf Hj).
Qed.

Lemma C6_strict_subdomain_witness : Score dotQuery jellyfin = 0.
Proof.
  apply (@C6_strict_subdomain dotQuery jellyfin).
  - vm_compute. reflexivity.
  - right. left. vm_compute. reflexivity.
Defined.


(** ** C9: templating placeholders *)

Lemma HasPrefix_spec (s p : list ascii) :
  HasPrefix s p = true <-> exists r, s = p ++ r.
Proof.
  revert s. induction p as [|c p IH]; intros s.
  - rewrite HasPrefix_nil. split; [exists s; reflexivity|reflexivity].
  - destruct s as [|d s]; simpl.
    + split; [discriminate|]. intros (r & E). discriminate.
    + rewrite andb_true_iff, Ascii.eqb_eq, IH. split.
      * intros (-> & r & ->). exists r. reflexivity.
      * intros (r & E). injection E as -> ->. split; [reflexivity|exists r; reflexivity].
Qed.

Lemma classRun_app (body x : list ascii) :
  ~ In rbrace body -> classRun (body ++ rbrace :: x) = length body.
Proof.
  induction body as [|c t IH]; intros Hb; simpl.
  - reflexivity.
  - destruct (Ascii.eqb c rbrace) eqn:E.
    + apply Ascii.eqb_eq in E. exfalso. apply Hb. left. exact E.
    + rewrite IH; [reflexivity|]. intros Hin. apply Hb. right. exact Hin.
Qed.

Lemma classRun_firstn (l : list ascii) : ~ In rbrace (firstn (classRun l) l).
Proof.
  induction l as [|c t IH]; simpl; [intros []|].
  destruct (Ascii.eqb c rbrace) eqn:E; simpl; [intros []|].
  intros [H|H]; [|exact (IH H)].
  subst c. rewrite Ascii.eqb_refl in E. discriminate.
Qed.

Lemma skipn_app_length (A : Type) (x y : list A) : skipn (length x) (x ++ y) = y.
Proof. induction x; simpl; auto. Qed.

Lemma matchPlaceholder_some (data : list ascii) (n : nat) :
  matchPlaceholder data = Some n ->
  exists m rest, isPlaceholder m /\ data = m ++ rest /\ length m = n.
Proof.
  unfold matchPlaceholder.
  destruct data as [|a [|b body]]; try discriminate.
  destruct (Ascii.eqb a lbrace) eqn:Ea; [|discriminate].
  destruct (Ascii.eqb b lbrace) eqn:Eb; [|discriminate].
  apply Ascii.eqb_eq in Ea, Eb. subst a b. cbn [andb].
  destruct (0 <? classRun body)%nat eqn:En; [|discriminate].
  destruct (HasPrefix (skipn (classRun body) body) [rbrace; rbrace]) eqn:Ep;
    [|discriminate].
  intros E. injection E as <-.
  apply HasPrefix_spec in Ep. destruct Ep as (rest & Er).
  apply Nat.ltb_lt in En.
  exists (lbrace :: lbrace :: firstn (classRun body) body ++ [rbrace; rbrace]), rest.
  assert (Hlen : length (firstn (classRun body) body) = classRun body).
  { apply firstn_length_le.
    clear. induction body as [|c t IH]; simpl; [lia|].
    destruct (Ascii.eqb c rbrace); simpl; lia. }
  split; [|split].
  - exists (firstn (classRun body) body). split; [|split].
    + intros E0. rewrite E0 in Hlen. simpl in Hlen. lia.
    + apply classRun_firstn.
    + reflexivity.
  - simpl. rewrite <- app_assoc. simpl in Er |- *. rewrite <- Er.
    rewrite firstn_skipn. reflexivity.
  - simpl. rewrite length_app, Hlen. simpl. lia.
Qed.

Lemma matchPlaceholder_none (data : list ascii) :
  matchPlaceholder data = None -> ~ placeholderAt data.
Proof.
  intros Hnone (m & rest & (body & Hne & Hnb & ->) & ->).
  revert Hnone. unfold matchPlaceholder. simpl.
  rewrite <- app_assoc. cbn [app].
  rewrite (classRun_app _ _ Hnb).
  replace (0 <? length body)%nat with true
    by (symmetry; apply Nat.ltb_lt; destruct body; [contradiction|simpl; lia]).
  rewrite skipn_app_length.
  replace (HasPrefix (rbrace :: rbrace :: rest) [rbrace; rbrace]) with true
    by (symmetry; apply HasPrefix_spec; exists rest; reflexivity).
  discriminate.
Qed.

Lemma replaceAll_skip (repl x rest : list ascii) :
  replaceAll repl (length x) (x ++ rest) = replaceAll repl 0 rest.
Proof. induction x as [|c x IH]; simpl; [reflexivity|exact IH]. Qed.

Lemma replaceAll_correct (repl : list ascii) (n : nat) :
  forall data, (length data <= n)%nat -> Replaced repl data (replaceAll repl 0 data).
Proof.
  induction n as [|n IH]; intros data Hn.
  - destruct data; [constructor|simpl in Hn; lia].
  - destruct data as [|c t]; [constructor|].
    cbn [replaceAll]. destruct (matchPlaceholder (c :: t)) as [k|] eqn:E.
    + destruct (matchPlaceholder_some _ _ E) as (m & rest & Hm & Hd & Hk).
      destruct m as [|c' m'].
      { destruct Hm as (body & _ & _ & Hbad). discriminate. }
      simpl in Hd. injection Hd as <- ->.
      simpl in Hk. subst k. simpl. rewrite Nat.sub_0_r, replaceAll_skip.
      change (c :: m' ++ rest) with ((c :: m') ++ rest).
      apply Replaced_placeholder; [exact Hm|].
      apply IH. simpl in Hn. rewrite length_app in Hn. lia.
    + apply Replaced_byte; [apply matchPlaceholder_none; exact E|].
      apply IH. simpl in Hn. lia.
Qed.

Lemma app_same_length (A : Type) (x y s t : list A) :
  length x = length y -> x ++ s = y ++ t -> x = y /\ s = t.
Proof.
  revert y. induction x as [|a x IH]; intros [|b y] Hlen E; try discriminate.
  - split; [reflexivity|exact E].
  - simpl in *. injection E as -> E. injection Hlen as Hlen.
    destruct (IH y Hlen E) as [-> ->]. split; reflexivity.
Qed.

(* a placeholder at the head of a text is unique *)
Lemma isPlaceholder_unique (m m' rest rest' : list ascii) :
  isPlaceholder m -> isPlaceholder m' -> m ++ rest = m' ++ rest' ->
  m = m' /\ rest = rest'.
Proof.
  intros (b & _ & Hb & ->) (b' & _ & Hb' & ->) E.
  simpl in E. rewrite <- !app_assoc in E. simpl in E.
  injection E as E.
  assert (Hlen : length b = length b').
  { rewrite <- (classRun_app b (rbrace :: rest) Hb).
    rewrite <- (classRun_app b' (rbrace :: rest') Hb'). rewrite E. reflexivity. }
  destruct (app_same_length _ b b' _ _ Hlen E) as [-> E'].
  injection E' as E'. split; [reflexivity|exact E'].
Qed.

(** The relation determines its output: it is the graph of a function. *)
Lemma Replaced_functional (repl data out : list ascii) :
  Replaced repl data out ->
  forall out', Replaced repl data out' -> out = out'.
Proof.
  induction 1 as [|m rest out Hm H IH|c rest out Hc H IH]; intros out' H'.
  - inversion H' as [|m' rest' o' Hm' H'' E|]; [reflexivity|].
    destruct Hm' as (b & _ & _ & ->). discriminate.
  - remember (m ++ rest) as data eqn:Ed.
    destruct H' as [|m' rest' o' Hm' H''|c rest' o' Hc H''].
    + destruct Hm as (b & _ & _ & ->). discriminate.
    + destruct (isPlaceholder_unique _ _ _ _ Hm' Hm Ed) as [-> ->].
      f_equal. apply IH. exact H''.
    + exfalso. apply Hc. exists m, rest. split; [exact Hm|exact Ed].
  - remember (c :: rest) as data eqn:Ed.
    destruct H' as [|m' rest' o' Hm' H''|c' rest' o' Hc' H''].
    + discriminate.
    + exfalso. apply Hc. exists m', rest'. split; [exact Hm'|reflexivity].
    + injection Ed as -> ->. f_equal. apply IH. exact H''.
Qed.

(** C9, as stated, fails: the placeholder is not replaced by the empty
    string but by a pair of double quotes, the text of an empty YAML
    string. *)
Lemma C9_counterexample :
  stripTemplateVariables templatedLine = str "url: " ++ [quote; quote]
  /\ replaceAll [] 0 templatedLine = str "url: "
  /\ stripTemplateVariables templatedLine <> replaceAll [] 0 templatedLine.
Proof. vm_compute. repeat split; discriminate. Qed.

(** C9 (amended): before the catalog bytes are parsed, every placeholder
    matching the expression, taken from the left, is replaced by the two
    bytes of a pair of double quotes, and all other bytes are left
    unchanged. *)
Theorem C9_stripTemplateVariables (data : list ascii) :
  Replaced [quote; quote] data (stripTemplateVariables data).
Proof.
  unfold stripTemplateVariables. apply (replaceAll_correct _ (length data)). lia.
Qed.

(** ** C2: counters across a reload *)

Local Open Scope Z_scope.

(** C2 fails on the code: a reload pass rebuilds every catalog service from
    the mapper, whose services start at counter 0, and replaces the index
    with them.  Here jellyfin, used 20 times and still in the catalog, is
    back at 0 after the pass (in the index and in the store). *)
Theorem C2_reload_resets_counter :
  let before := usedWorld in
  let after := snd (Reload simpleURLHostname (start + 1) (Some sameCatalog) before) in
  fst (Reload simpleURLHostname (start + 1) (Some sameCatalog) before) = true
  /\ option_map Counter (Index.GetService (str "jellyfin.example.com") (memIndex before))
     = Some 20
  /\ option_map Counter (Index.GetService (str "jellyfin.example.com") (memIndex after))
     = Some 0
  /\ option_map Counter (RedisStore.GetService (str "jellyfin.example.com") (store after))
     = Some 0.
Proof. vm_compute. repeat split. Qed.

(** ** C3: when counters are incremented *)

(** C3 fails on the code: on a cache hit the counters are incremented as
    soon as the probe succeeds, before the allow-list is consulted.  With a
    cached host outside the allowed domains the response is the home
    redirect (the home URL is handed to http.Redirect, which sets it as
    the Location), and yet the host's counter went from 0 to 1 in the index
    and in the store. *)
Theorem C3_increment_on_home_redirect :
  let before := cachedWorld in
  let resp := fst (Search deps (start + 1) cachedRequest before) in
  let after := snd (Search deps (start + 1) cachedRequest before) in
  Status resp = 302
  /\ Target resp = HomepageURL deps
  /\ option_map Counter (Index.GetService (str "files.other.net") (memIndex before))
     = Some 0
  /\ option_map Counter (Index.GetService (str "files.other.net") (memIndex after))
     = Some 1
  /\ option_map Counter (RedisStore.GetService (str "files.other.net") (store after))
     = Some 1
  /\ (forall parsesAsPath oldpath,
        NetHTTP.Location parsesAsPath oldpath (Target resp) = HomepageURL deps).
Proof.
  vm_compute.
  refine (conj eq_refl (conj eq_refl (conj eq_refl (conj eq_refl (conj eq_refl _))))).
  intros parsesAsPath oldpath. reflexivity.
Qed.

(** ** C1: where the resolver redirects *)

(* evaluate the closed boolean tests of a goal *)
Ltac reduce_tests :=
  repeat match goal with
  | |- context [if ?b then _ else _] =>
      lazymatch type of b with
      | bool =>
          let v := eval vm_compute in b in
          lazymatch v with
          | true => change b with true; cbv iota
          | false => change b with false; cbv iota
          end
      end
  end.

Lemma ScoreBookmark_chat : ScoreBookmark (str "chat") chatgpt = ScorePrefixMatch.
Proof. unfold ScoreBookmark. reduce_tests. reflexivity. Qed.

Lemma RankBookmarkCandidates_chat :
  RankBookmarkCandidates (str "chat") [chatgpt]
  = [mkBookmarkCandidate chatgpt ScorePrefixMatch].
Proof.
  unfold RankBookmarkCandidates. cbn [flat_map app].
  unfold rankOneBookmark. reduce_tests. rewrite ScoreBookmark_chat.
  destruct (Req_dec_T ScorePrefixMatch 0) as [E|_].
  - exfalso. unfold ScorePrefixMatch in E. lra.
  - reflexivity.
Qed.

Lemma Search_bookmark_chat :
  fst (Search deps (start + 1) bookmarkRequest bookmarkWorld)
  = Redirect (str "https://chat.openai.com/").
Proof.
  unfold Search. reduce_tests. cbn [fst].
  unfold handleBookmarkSearch. reduce_tests.
  replace (TrimSpace (TrimPrefix (TrimSpace (q bookmarkRequest)) [("@")%char]))
    with (str "chat") by (vm_compute; reflexivity).
  replace (GetAllBookmarks (memIndex bookmarkWorld)) with [chatgpt]
    by (vm_compute; reflexivity).
  rewrite RankBookmarkCandidates_chat. reflexivity.
Qed.

Lemma HasSuffix_spec (s suffix : list ascii) :
  HasSuffix s suffix = true <-> exists pre, s = pre ++ suffix.
Proof.
  unfold HasSuffix. rewrite HasPrefix_spec. split.
  - intros (r & E). exists (rev r).
    rewrite <- (rev_involutive s), E, rev_app_distr, rev_involutive. reflexivity.
  - intros (pre & ->). exists (rev pre). apply rev_app_distr.
Qed.

Lemma isAllowedRedirect_spec (hostname : list ascii) (allowedDomains : list (list ascii)) :
  isAllowedRedirect hostname allowedDomains = true
  <-> allowedHost allowedDomains hostname.
Proof.
  unfold isAllowedRedirect, allowedHost. rewrite existsb_exists.
  split.
  - intros (domain & Hin & H). exists domain. split; [exact Hin|].
    apply orb_true_iff in H. destruct H as [H|H].
    + left. apply eqs_true_iff. exact H.
    + right. apply HasSuffix_spec. exact H.
  - intros (domain & Hin & H). exists domain. split; [exact Hin|].
    apply orb_true_iff. destruct H as [H|H].
    + left. apply eqs_true_iff. exact H.
    + right. apply HasSuffix_spec. exact H.
Qed.

Lemma firstHealthy_allowed (d : Deps) (candidates : list Candidate) (hostname : list ascii) :
  firstHealthy d candidates = Some hostname ->
  isAllowedRedirect hostname (AllowedDomains d) = true
  /\ exists c, In c candidates /\ Hostname (CService c) = hostname.
Proof.
  induction candidates as [|c rest IH]; simpl; [discriminate|].
  destruct (isAllowedRedirect (Hostname (CService c)) (AllowedDomains d)) eqn:Ea;
    cbn [negb].
  - destruct (negb (SkipTLSValidation d) && negb (ValidateTLS d (Hostname (CService c)))).
    + intros H. destruct (IH H) as (Hal & c' & Hin & Hc').
      split; [exact Hal|]. exists c'. split; [right; exact Hin|exact Hc'].
    + intros H. injection H as <-. split; [exact Ea|].
      exists c. split; [left; reflexivity|reflexivity].
  - intros H. destruct (IH H) as (Hal & c' & Hin & Hc').
    split; [exact Hal|]. exists c'. split; [right; exact Hin|exact Hc'].
Qed.

Lemma handleCachedService_location (d : Deps) (now : Z) (query : list ascii)
      (w w' : World) (resp : Response) :
  handleCachedService d now query w = (Some resp, w') ->
  Status resp = 302
  /\ (Target resp = HomepageURL d
      \/ exists h, Target resp = https h
                   /\ isAllowedRedirect h (AllowedDomains d) = true).
Proof.
  unfold handleCachedService.
  destruct (GetCachedResolution query (store w)) as [cached|]; [|discriminate].
  destruct (isEmpty cached); [discriminate|].
  destruct (ValidateTLS d cached); [|discriminate].
  destruct (isAllowedRedirect cached (AllowedDomains d)) eqn:Ea; cbn [negb];
    intros H; injection H as <- <-; (split; [reflexivity|]).
  - right. exists cached. split; [reflexivity|exact Ea].
  - left. reflexivity.
Qed.

Lemma handleServiceSearch_location (d : Deps) (now : Z) (query : list ascii) (w : World) :
  let resp := fst (handleServiceSearch d now query w) in
  Status resp = 302
  /\ (Target resp = HomepageURL d
      \/ exists h, Target resp = https h
                   /\ isAllowedRedirect h (AllowedDomains d) = true).
Proof.
  unfold handleServiceSearch. cbv zeta.
  destruct (length (GetAllServices (memIndex w)) =? 0)%nat;
    [split; [reflexivity|left; reflexivity]|].
  destruct (length (RankCandidates (ParseQuery query) (GetAllServices (memIndex w))) =? 0)%nat;
    [split; [reflexivity|left; reflexivity]|].
  match goal with |- context [firstHealthy d ?l] =>
    destruct (firstHealthy d l) as [h|] eqn:Eh end.
  - split; [reflexivity|]. right. exists h. split; [reflexivity|].
    apply (firstHealthy_allowed _ _ _ Eh).
  - split; [reflexivity|left; reflexivity].
Qed.

Lemma rankOneBookmark_in (queryStr : list ascii) (bookmarks : list Bookmark)
      (c : BookmarkCandidate) :
  In c (flat_map (rankOneBookmark queryStr) bookmarks) ->
  In (CBookmark c) bookmarks /\ BDisabled (CBookmark c) = false.
Proof.
  rewrite in_flat_map. intros (b & Hb & Hc). unfold rankOneBookmark in Hc.
  destruct (BDisabled b) eqn:Ed; [contradiction|].
  destruct (Req_dec_T (ScoreBookmark queryStr b) 0); [contradiction|].
  destruct Hc as [<-|[]]. split; assumption.
Qed.

Lemma handleBookmarkSearch_location (d : Deps) (query : list ascii) (w : World) :
  let resp := handleBookmarkSearch d query w in
  Status resp = 302
  /\ (Target resp = HomepageURL d
      \/ exists b, In b (GetAllBookmarks (memIndex w))
                   /\ BDisabled b = false /\ Target resp = URL b).
Proof.
  unfold handleBookmarkSearch. cbv zeta.
  destruct (isEmpty _); [split; [reflexivity|left; reflexivity]|].
  destruct (length (GetAllBookmarks (memIndex w)) =? 0)%nat;
    [split; [reflexivity|left; reflexivity]|].
  match goal with |- context [RankBookmarkCandidates ?s ?l] =>
    destruct (RankBookmarkCandidates s l) as [|best rest] eqn:Er end;
    [split; [reflexivity|left; reflexivity]|].
  split; [reflexivity|]. right. exists (CBookmark best).
  assert (Hin : In best (flat_map
                           (rankOneBookmark (TrimSpace (TrimPrefix query [("@")%char])))
                           (GetAllBookmarks (memIndex w)))).
  { apply (Permutation_in best (bubbleSort_perm _ BScore _)).
    unfold RankBookmarkCandidates in Er. rewrite Er. left. reflexivity. }
  destruct (rankOneBookmark_in _ _ _ Hin) as [Hb Hd].
  repeat split; assumption.
Qed.

Lemma handleInternalEndpoint_location (d : Deps) (r : Request) (query : list ascii) :
  let resp := handleInternalEndpoint d r query in
  Status resp = 302
  /\ (Target resp = HomepageURL d
      \/ exists endpoint, In endpoint endpoints
                          /\ Target resp = https (Host r ++ endpoint)).
Proof.
  unfold handleInternalEndpoint. cbv zeta.
  destruct (isEmpty (matchInternalEndpoint query)) eqn:Ee; cbn [negb];
    (split; [reflexivity|]); [left; reflexivity|].
  right. exists (matchInternalEndpoint query). split; [|reflexivity].
  unfold matchInternalEndpoint in *.
  destruct (filter (fun endpoint => HasPrefix endpoint (ToLower query)) endpoints)
    as [|m [|m' ms]] eqn:Ef; try discriminate.
  assert (Hin : In m (filter (fun endpoint => HasPrefix endpoint (ToLower query)) endpoints))
    by (rewrite Ef; left; reflexivity).
  apply filter_In in Hin. apply Hin.
Qed.

(* where the handler redirects, realm by realm: the url it hands to
   http.Redirect *)
Lemma Search_target (d : Deps) (now : Z) (r : Request) (w : World) :
  let resp := fst (Search d now r w) in
  Status resp = 302
  /\ match realmOf r with
     | ServiceRealm =>
         Target resp = HomepageURL d
         \/ exists h, Target resp = https h /\ allowedHost (AllowedDomains d) h
     | BookmarkRealm =>
         Target resp = HomepageURL d
         \/ exists b, In b (GetAllBookmarks (memIndex w))
                      /\ BDisabled b = false /\ Target resp = URL b
     | InternalRealm =>
         Target resp = HomepageURL d
         \/ exists endpoint, In endpoint endpoints
                             /\ Target resp = https (Host r ++ endpoint)
     end.
Proof.
  unfold Search, realmOf. cbv zeta.
  destruct (isEmpty (TrimSpace (q r))) eqn:Ee.
  { destruct (TrimSpace (q r)); [|discriminate]. cbn.
    split; [reflexivity|left; reflexivity]. }
  destruct (HasPrefix (TrimSpace (q r)) [("@")%char]).
  { cbn [fst]. apply handleBookmarkSearch_location. }
  destruct (HasPrefix (TrimSpace (q r)) [("/")%char]).
  { cbn [fst]. apply handleInternalEndpoint_location. }
  destruct (handleCachedService d now (TrimSpace (q r)) w) as [[resp|] w'] eqn:Ec.
  - cbn [fst]. destruct (handleCachedService_location _ _ _ _ _ _ Ec) as [Hs Hl].
    split; [exact Hs|]. destruct Hl as [Hl|(h & Hl & Ha)]; [left; exact Hl|].
    right. exists h. split; [exact Hl|]. apply isAllowedRedirect_spec. exact Ha.
  - destruct (handleServiceSearch_location d now (TrimSpace (q r)) w') as [Hs Hl].
    split; [exact Hs|]. destruct Hl as [Hl|(h & Hl & Ha)]; [left; exact Hl|].
    right. exists h. split; [exact Hl|]. apply isAllowedRedirect_spec. exact Ha.
Qed.

(** ** Maps *)

Section GoMapFacts.
Variable V : Type.
Implicit Types (m : gomap V) (k : list ascii) (v : V).

Lemma get_In k v m : get k m = Some v -> In (k, v) m.
Proof.
  induction m as [|[k' v'] t IH]; simpl; [discriminate|].
  destruct (eqs k k') eqn:E.
  - apply eqs_true_iff in E. subst k'. intros H. injection H as ->.
    left. reflexivity.
  - intros H. right. apply IH. exact H.
Qed.

Lemma In_get k v m : NoDup (map fst m) -> In (k, v) m -> get k m = Some v.
Proof.
  induction m as [|[k' v'] t IH]; simpl; [intros _ []|].
  intros Hnd Hin. inversion Hnd as [|? ? Hnotin Hnd']; subst.
  destruct Hin as [Hin|Hin].
  - injection Hin as -> ->. rewrite eqs_refl. reflexivity.
  - destruct (eqs k k') eqn:E.
    + apply eqs_true_iff in E. subst k'. exfalso. apply Hnotin.
      apply (in_map fst) in Hin. exact Hin.
    + apply IH; assumption.
Qed.

Lemma get_put k k' v m :
  get k (put k' v m) = if eqs k k' then Some v else get k m.
Proof.
  induction m as [|[k'' v''] t IH]; simpl.
  - destruct (eqs k k'); reflexivity.
  - destruct (eqs k' k'') eqn:E1; simpl.
    + apply eqs_true_iff in E1. subst k''. destruct (eqs k k'); reflexivity.
    + rewrite IH. destruct (eqs k k'') eqn:E2; [|reflexivity].
      apply eqs_true_iff in E2. subst k''.
      destruct (eqs k k') eqn:E3; [|reflexivity].
      apply eqs_true_iff in E3. subst k'. rewrite eqs_refl in E1. discriminate.
Qed.

Lemma In_put k v k0 v0 m :
  In (k0, v0) (put k v m) -> (k0, v0) = (k, v) \/ In (k0, v0) m.
Proof.
  induction m as [|[k' v'] t IH]; simpl.
  - intros [H|[]]. left. symmetry. exact H.
  - destruct (eqs k k'); simpl.
    + intros [H|H]; [left; symmetry; exact H|right; right; exact H].
    + intros [H|H]; [right; left; exact H|].
      destruct (IH H) as [H'|H']; [left; exact H'|right; right; exact H'].
Qed.

Lemma keys_put k v m :
  In k (map fst m) -> map fst (put k v m) = map fst m.
Proof.
  induction m as [|[k' v'] t IH]; simpl; [intros []|].
  destruct (eqs k k') eqn:E; simpl.
  - apply eqs_true_iff in E. subst k'. reflexivity.
  - intros [H|H]; [subst k'; rewrite eqs_refl in E; discriminate|].
    rewrite IH by exact H. reflexivity.
Qed.

Lemma keys_put_new k v m :
  ~ In k (map fst m) -> map fst (put k v m) = map fst m ++ [k].
Proof.
  induction m as [|[k' v'] t IH]; simpl; [reflexivity|].
  intros Hn. destruct (eqs k k') eqn:E; simpl.
  - apply eqs_true_iff in E. subst k'. exfalso. apply Hn. left. reflexivity.
  - rewrite IH; [reflexivity|]. intros H. apply Hn. right. exact H.
Qed.

Lemma NoDup_put k v m : NoDup (map fst m) -> NoDup (map fst (put k v m)).
Proof.
  intros Hnd. destruct (in_dec (list_eq_dec ascii_dec) k (map fst m)) as [Hin|Hout].
  - rewrite keys_put by exact Hin. exact Hnd.
  - rewrite keys_put_new by exact Hout.
    apply NoDup_rev in Hnd. rewrite <- (rev_involutive (map fst m ++ [k])).
    apply NoDup_rev. rewrite rev_app_distr. simpl.
    constructor; [|exact Hnd]. rewrite <- in_rev. exact Hout.
Qed.

Lemma In_delete k k0 v0 m :
  In (k0, v0) (delete k m) -> In (k0, v0) m /\ k0 <> k.
Proof.
  induction m as [|[k' v'] t IH]; simpl; [intros []|].
  destruct (eqs k k') eqn:E.
  - intros H. destruct (IH H) as [H1 H2]. split; [right; exact H1|exact H2].
  - intros [H|H].
    + injection H as -> ->. split; [left; reflexivity|].
      intros ->. rewrite eqs_refl in E. discriminate.
    + destruct (IH H) as [H1 H2]. split; [right; exact H1|exact H2].
Qed.

Lemma get_delete k k' m : k <> k' -> get k (delete k' m) = get k m.
Proof.
  intros Hne. induction m as [|[k'' v''] t IH]; simpl; [reflexivity|].
  destruct (eqs k' k'') eqn:E1.
  - apply eqs_true_iff in E1. subst k''. rewrite IH.
    destruct (eqs k k') eqn:E2; [|reflexivity].
    apply eqs_true_iff in E2. contradiction.
  - simpl. rewrite IH. reflexivity.
Qed.

Lemma NoDup_delete k m : NoDup (map fst m) -> NoDup (map fst (delete k m)).
Proof.
  induction m as [|[k' v'] t IH]; simpl; [trivial|].
  intros Hnd. inversion Hnd as [|? ? Hnotin Hnd']; subst.
  destruct (eqs k k'); [apply IH; exact Hnd'|].
  simpl. constructor; [|apply IH; exact Hnd'].
  intros Hin. apply Hnotin. apply in_map_iff in Hin.
  destruct Hin as ([k0 v0] & E & Hin). simpl in E. subst k0.
  apply In_delete in Hin. destruct Hin as [Hin _].
  apply (in_map fst) in Hin. exact Hin.
Qed.

End GoMapFacts.

(** ** C4: soft-deleted entries and the collector *)

Lemma wellKeyed_nil : wellKeyed [].
Proof. split; [constructor|intros k e []]. Qed.

Lemma wellKeyed_put (s : Service) (m : gomap Service) :
  wellKeyed m -> wellKeyed (put (ID s) s m).
Proof.
  intros [Hnd Hk]. split; [apply NoDup_put; exact Hnd|].
  intros k e Hin. apply In_put in Hin. destruct Hin as [E|Hin].
  - injection E as -> ->. reflexivity.
  - apply Hk. exact Hin.
Qed.

Lemma wellKeyed_delete (k : list ascii) (m : gomap Service) :
  wellKeyed m -> wellKeyed (delete k m).
Proof.
  intros [Hnd Hk]. split; [apply NoDup_delete; exact Hnd|].
  intros k0 e Hin. apply In_delete in Hin. apply Hk, Hin.
Qed.

Lemma wellKeyed_fill (l : list Service) :
  forall m, wellKeyed m ->
            wellKeyed (fold_left (fun m service => put (ID service) service m) l m).
Proof.
  induction l as [|s l IH]; intros m Hm; simpl; [exact Hm|].
  apply IH, wellKeyed_put, Hm.
Qed.

(** What a map filled from a list holds under a key: an entry of the list
    (or of the initial map) with that ID. *)
Lemma get_fill (P : Service -> Prop) (id : list ascii) (l : list Service) :
  forall m,
    (forall s, In s l -> ID s = id -> P s) ->
    (forall v, get id m = Some v -> P v) ->
    ((exists s, In s l /\ ID s = id) \/ get id m <> None) ->
    exists v, get id (fold_left (fun m service => put (ID service) service m) l m) = Some v
              /\ P v.
Proof.
  induction l as [|s l IH]; intros m Hl Hm Hex; simpl.
  - destruct Hex as [(s & [] & _)|Hex].
    destruct (get id m) as [v|] eqn:E; [|contradiction].
    exists v. split; [reflexivity|apply Hm; reflexivity].
  - apply IH.
    + intros s' Hs'. apply Hl. right. exact Hs'.
    + intros v. rewrite get_put. destruct (eqs id (ID s)) eqn:E.
      * intros H. injection H as <-. apply Hl; [left; reflexivity|].
        apply eqs_true_iff in E. symmetry. exact E.
      * apply Hm.
    + destruct Hex as [(s' & [Hs'|Hs'] & Hid)|Hex].
      * subst s'. right. rewrite get_put, <- Hid, eqs_refl. discriminate.
      * left. exists s'. split; assumption.
      * right. rewrite get_put. destruct (eqs id (ID s)); [discriminate|exact Hex].
Qed.

Lemma softDeleted_present (id : list ascii) (last : Z) (idx : MemoryIndex) :
  softDeleted id last idx -> present id idx.
Proof.
  intros ([_ Hk] & e & Hget & _ & _ & Hsrc).
  apply get_In in Hget. exists e. split; [|split].
  - unfold GetAllServices, values. apply (in_map snd) in Hget. exact Hget.
  - apply (Hk _ _ Hget).
  - exact Hsrc.
Qed.

(** A reload pass over a catalog without the entry marks it disabled with
    updated_at = now, whether or not it was disabled already. *)
Lemma Reload_marks (urlHostname : list ascii -> option (list ascii)) (now : Z)
      (config : ServicesConfig) (l : list Service) (w : World) (id : list ascii) :
  MapServices urlHostname now config = Some l ->
  ~ In id (map ID l) ->
  present id (memIndex w) ->
  softDeleted id now (memIndex (snd (Reload urlHostname now (Some config) w))).
Proof.
  intros Hmap Hnew (e0 & Hin & Hid & Hsrc).
  unfold Reload. rewrite Hmap. cbn [snd memIndex UpdateServices services].
  split; [apply wellKeyed_fill, wellKeyed_nil|].
  set (P := fun e => Disabled e = true /\ UpdatedAt e = now
                     /\ existsb (fun source => eqs source homepage) (Sources e) = true).
  destruct (get_fill P id
              (l ++ map (markDisabled now)
                        (filter (fun existing =>
                                   negb (existsb (eqs (ID existing)) (map ID l)))
                                (getHomepageServices (memIndex w))))
              []) as (v & Hv & HP).
  - intros s Hs Hsid. apply in_app_or in Hs. destruct Hs as [Hs|Hs].
    + exfalso. apply Hnew. rewrite <- Hsid. apply in_map. exact Hs.
    + apply in_map_iff in Hs. destruct Hs as (x & <- & Hx).
      apply filter_In in Hx. destruct Hx as [Hx _].
      unfold getHomepageServices in Hx. apply filter_In in Hx.
      unfold P. simpl. repeat split. apply Hx.
  - simpl. discriminate.
  - left. exists (markDisabled now e0). split; [|exact Hid].
    apply in_or_app. right. apply in_map. apply filter_In. split.
    + unfold getHomepageServices. apply filter_In. split; assumption.
    + apply negb_true_iff. apply not_true_iff_false. intros Hex.
      apply existsb_exists in Hex. destruct Hex as (k & Hk & E).
      apply eqs_true_iff in E. apply Hnew. rewrite <- Hid, E. exact Hk.
  - exists v. split; [exact Hv|exact HP].
Qed.

Lemma MapServices_counter (urlHostname : list ascii -> option (list ascii)) (now : Z)
      (config : ServicesConfig) (l : list Service) :
  MapServices urlHostname now config = Some l ->
  forall s, In s l -> Counter s = 0.
Proof.
  unfold MapServices. cbv zeta.
  match goal with |- context [length ?x] => set (all := x) end.
  destruct (length all =? 0)%nat; [discriminate|].
  intros E. injection E as <-. intros s Hs. subst all.
  repeat (apply in_flat_map in Hs; destruct Hs as (? & _ & Hs)).
  unfold mapOne in Hs.
  destruct (isEmpty (Href (snd _))); [contradiction|].
  destruct (urlHostname _) as [hostname|]; [|contradiction].
  destruct (isEmpty hostname); [contradiction|].
  destruct Hs as [<-|[]]. reflexivity.
Qed.

(** In general: after a reload pass that succeeds, every service listed
    in the catalog is in the index with counter 0, whatever its counter
    was. *)
Theorem Reload_resets_counters (urlHostname : list ascii -> option (list ascii))
        (now : Z) (config : ServicesConfig) (l : list Service) (w : World)
        (id : list ascii) :
  MapServices urlHostname now config = Some l ->
  In id (map ID l) ->
  exists e,
    Index.GetService id (memIndex (snd (Reload urlHostname now (Some config) w))) = Some e
    /\ Counter e = 0.
Proof.
  intros Hmap Hid. unfold Reload, Index.GetService. rewrite Hmap.
  cbn [snd memIndex UpdateServices services].
  apply get_fill.
  - intros s Hs Hsid. apply in_app_or in Hs. destruct Hs as [Hs|Hs].
    + apply (MapServices_counter _ _ _ _ Hmap _ Hs).
    + exfalso. apply in_map_iff in Hs. destruct Hs as (x & <- & Hx).
      apply filter_In in Hx. destruct Hx as [_ Hx].
      apply negb_true_iff in Hx. apply not_true_iff_false in Hx. apply Hx.
      apply existsb_exists. exists id. split; [exact Hid|].
      apply eqs_true_iff. exact Hsid.
  - simpl. discriminate.
  - left. apply in_map_iff in Hid. destruct Hid as (s & Hsid & Hs).
    exists s. split; [apply in_or_app; left; exact Hs|exact Hsid].
Qed.

Lemma Sub_recent (now last threshold : Z) :
  last <= now < last + threshold -> Sub now last < threshold.
Proof.
  intros H. unfold Sub, maxDuration, minDuration.
  destruct (Z.ltb_spec (2 ^ 63 - 1) (now - last)); [lia|].
  destruct (Z.ltb_spec (now - last) (- 2 ^ 63)); lia.
Qed.

(* the entries kept by one step of the collector's loop *)
Lemma collectService_keeps (now threshold last : Z) (id : list ascii)
      (acc : nat * World) (s : Service) :
  (ID s = id -> UpdatedAt s = last) ->
  last <= now < last + threshold ->
  softDeleted id last (memIndex (snd acc)) ->
  softDeleted id last (memIndex (snd (collectService now threshold acc s))).
Proof.
  intros Hs Hrecent Hinv. unfold collectService. destruct acc as [n w].
  destruct (negb (Disabled s)); [exact Hinv|].
  destruct (IsZero (UpdatedAt s)); [exact Hinv|].
  destruct (Z.ltb_spec (Sub now (UpdatedAt s)) threshold) as [Hlt|Hge]; [exact Hinv|].
  assert (Hne : id <> ID s).
  { intros E. rewrite (Hs (eq_sym E)) in Hge.
    pose proof (Sub_recent _ _ _ Hrecent). lia. }
  cbn [snd memIndex] in *. destruct Hinv as (Hwk & e & Hget & He).
  unfold Index.DeleteService, withServices. cbn [services].
  split; [apply wellKeyed_delete; exact Hwk|].
  cbn [services]. exists e. split; [|exact He].
  rewrite get_delete by exact Hne. exact Hget.
Qed.

Lemma collectServices_keeps (now threshold last : Z) (id : list ascii) (w : World) :
  last <= now < last + threshold ->
  softDeleted id last (memIndex w) ->
  softDeleted id last (memIndex (snd (collectServices now threshold w))).
Proof.
  intros Hrecent Hinv. unfold collectServices.
  assert (Hsnap : forall s, In s (GetAllServices (memIndex w)) ->
                            ID s = id -> UpdatedAt s = last).
  { destruct Hinv as ([Hnd Hk] & e & Hget & _ & Hupd & _).
    intros s Hs Hid. unfold GetAllServices, values in Hs.
    apply in_map_iff in Hs. destruct Hs as ([k s'] & E & Hin). simpl in E. subst s'.
    pose proof (Hk _ _ Hin) as Hks. rewrite Hid in Hks. subst k.
    rewrite (In_get _ _ _ _ Hnd Hin) in Hget. injection Hget as ->. exact Hupd. }
  revert Hsnap.
  generalize (GetAllServices (memIndex w)) as l.
  assert (Hacc : softDeleted id last (memIndex (snd (0%nat, w)))) by exact Hinv.
  revert Hacc. generalize (0%nat, w) as acc.
  intros acc Hacc l. revert acc Hacc.
  induction l as [|s l IH]; intros acc Hacc Hsnap; simpl; [exact Hacc|].
  apply IH.
  - apply collectService_keeps; [|exact Hrecent|exact Hacc].
    apply Hsnap. left. reflexivity.
  - intros s' Hs'. apply Hsnap. right. exact Hs'.
Qed.

Lemma collectBookmarks_services (now threshold : Z) (w : World) :
  services (memIndex (snd (collectBookmarks now threshold w))) = services (memIndex w).
Proof.
  unfold collectBookmarks.
  generalize (GetAllBookmarks (memIndex w)) as l.
  assert (Hacc : services (memIndex (snd (0%nat, w))) = services (memIndex w))
    by reflexivity.
  revert Hacc. generalize (0%nat, w) as acc.
  intros acc Hacc l. revert acc Hacc.
  induction l as [|b l IH]; intros acc Hacc; simpl; [exact Hacc|].
  apply IH. unfold collectBookmark. destruct acc as [n w'].
  destruct (negb (BDisabled b)); [exact Hacc|].
  destruct (IsZero (BUpdatedAt b)); [exact Hacc|].
  destruct (Sub now (BUpdatedAt b) <? threshold); exact Hacc.
Qed.

(** A collection pass that runs less than the threshold after the entry was
    last marked leaves it in the index. *)
Lemma Collect_keeps (now threshold last : Z) (id : list ascii) (w : World) :
  last <= now < last + threshold ->
  softDeleted id last (memIndex w) ->
  softDeleted id last (memIndex (Collect now threshold w)).
Proof.
  intros Hrecent Hinv. unfold Collect.
  pose proof (collectServices_keeps _ _ _ _ _ Hrecent Hinv) as H1.
  destruct (collectServices now threshold w) as [n1 w1]. cbn [snd] in H1.
  pose proof (collectBookmarks_services now threshold w1) as H2.
  destruct (collectBookmarks now threshold w1) as [n2 w2]. cbn [snd] in H2.
  unfold softDeleted in *. rewrite H2. exact H1.
Qed.

(** Along a timely schedule a soft-deleted entry is never collected: every
    reload pass renews its updated_at before the collector can see it old
    enough. *)
Theorem softDeleted_forever (urlHostname : list ascii -> option (list ascii))
        (threshold : Z) (id : list ascii) (passes : list Pass) :
  forall last w,
    softDeleted id last (memIndex w) ->
    timely urlHostname threshold id last passes ->
    softDeleted id (lastMark last passes)
                (memIndex (runPasses urlHostname threshold passes w)).
Proof.
  induction passes as [|p rest IH]; intros last w Hinv Ht.
  - exact Hinv.
  - destruct p as [now loaded|now]; simpl in Ht |- *.
    + destruct Ht as ((config & l & -> & Hmap & Hnew) & Hrest).
      apply (IH now); [|exact Hrest].
      apply (Reload_marks _ _ _ _ _ _ Hmap Hnew).
      apply (softDeleted_present _ _ _ Hinv).
    + destruct Ht as (Hrecent & Hrest).
      apply (IH last); [|exact Hrest].
      apply Collect_keeps; assumption.
Qed.

(** The same from the pass that first misses the entry. *)
Theorem disappeared_never_collected (urlHostname : list ascii -> option (list ascii))
        (threshold : Z) (id : list ascii) (passes : list Pass) (last : Z) (w : World) :
  present id (memIndex w) ->
  passes <> [] ->
  (forall now, hd (CollectPass 0) passes <> CollectPass now) ->
  timely urlHostname threshold id last passes ->
  softDeleted id (lastMark last passes)
              (memIndex (runPasses urlHostname threshold passes w)).
Proof.
  intros Hp Hne Hfirst Ht. destruct passes as [|[now loaded|now] rest];
    [contradiction| |exfalso; apply (Hfirst now); reflexivity].
  simpl in Ht |- *. destruct Ht as ((config & l & -> & Hmap & Hnew) & Hrest).
  apply softDeleted_forever; [|exact Hrest].
  apply (Reload_marks _ _ _ _ _ _ Hmap Hnew Hp).
Qed.

Lemma shrunkCatalog_maps (now : Z) :
  exists l, MapServices simpleURLHostname now shrunkCatalog = Some l
            /\ ~ In gone (map ID l).
Proof.
  eexists. split; [vm_compute; reflexivity|].
  simpl. intros [H|[H|[]]]; vm_compute in H; discriminate.
Qed.

Lemma DefaultGCThreshold_value : DefaultGCThreshold = 2592000000000000.
Proof. vm_compute. reflexivity. Qed.

Lemma dayPasses_timely (days : nat) :
  forall k last,
    timely simpleURLHostname DefaultGCThreshold gone last
           (flat_map dayPasses (seq k days)).
Proof.
  induction days as [|days IH]; intros k last; [exact I|].
  change (flat_map dayPasses (seq k (S days)))
    with (ReloadPass (start + Z.of_nat k * Day) (Some shrunkCatalog)
          :: CollectPass (start + Z.of_nat k * Day + 1)
          :: flat_map dayPasses (seq (S k) days)).
  split; [|split].
  - destruct (shrunkCatalog_maps (start + Z.of_nat k * Day)) as (l & Hl & Hn).
    exists shrunkCatalog, l. repeat split; assumption.
  - rewrite DefaultGCThreshold_value. lia.
  - apply IH.
Qed.

Lemma dailyPasses_lastMark (days : nat) (last : Z) :
  lastMark last (dailyPasses (S days)) = start + Z.of_nat days * Day.
Proof.
  unfold dailyPasses, lastMark. rewrite seq_S, flat_map_app, fold_left_app.
  reflexivity.
Qed.

Lemma usedWorld_present : present gone (memIndex usedWorld).
Proof.
  exists jellyseerr. split; [|split]; vm_compute; auto.
Qed.

(** C4 fails on the code: every reload pass sets updated_at = now on every
    catalog entry missing from the file, the already disabled ones included,
    so with the default timers (reload and collection every 24 hours,
    threshold 30 days) the collector never sees the entry old enough.
    However many days pass after jellyseerr left the catalog, it is still
    in the index, disabled, with updated_at the time of the last reload. *)
Theorem C4_never_collected_with_default_timers (days : nat) :
  let final :=
    runPasses simpleURLHostname DefaultGCThreshold (dailyPasses (S days)) usedWorld in
  exists e,
    Index.GetService gone (memIndex final) = Some e
    /\ Disabled e = true
    /\ UpdatedAt e = start + Z.of_nat days * Day.
Proof.
  cbv zeta.
  destruct (disappeared_never_collected simpleURLHostname DefaultGCThreshold gone
              (dailyPasses (S days)) 0 usedWorld) as (_ & e & Hget & Hd & Hu & _).
  - exact usedWorld_present.
  - discriminate.
  - intros now. discriminate.
  - apply dayPasses_timely.
  - exists e. rewrite dailyPasses_lastMark in Hu. repeat split; assumption.
Qed.

(** * Further properties of the code *)

Import DomainFinders Config Middleware ReloadEndpoint Bootstrap Laws.

(** ** White space and case *)

Lemma dropWhile_app (p : ascii -> bool) (a b : list ascii) :
  dropWhile p (a ++ b) = if forallb p a then dropWhile p b else dropWhile p a ++ b.
Proof.
  induction a as [|c a IH]; simpl; [reflexivity|].
  destruct (p c); simpl; [exact IH|reflexivity].
Qed.

Lemma dropWhile_head (p : ascii -> bool) (s : list ascii) :
  match dropWhile p s with [] => True | c :: _ => p c = false end.
Proof.
  induction s as [|c t IH]; simpl; [exact I|].
  destruct (p c) eqn:E; [exact IH|exact E].
Qed.

Lemma dropWhile_fixed (p : ascii -> bool) (s : list ascii) :
  match s with [] => True | c :: _ => p c = false end -> dropWhile p s = s.
Proof. destruct s as [|c t]; simpl; [reflexivity|]. intros ->. reflexivity. Qed.

Lemma dropWhile_idem (p : ascii -> bool) (s : list ascii) :
  dropWhile p (dropWhile p s) = dropWhile p s.
Proof. apply dropWhile_fixed, dropWhile_head. Qed.

Lemma dropWhile_In (p : ascii -> bool) (s : list ascii) (c : ascii) :
  In c (dropWhile p s) -> In c s.
Proof.
  induction s as [|a t IH]; simpl; [trivial|].
  destruct (p a); [intros H; right; exact (IH H)|trivial].
Qed.

(* trimming the end keeps the head *)
Lemma dropEnd_head (p : ascii -> bool) (u : list ascii) :
  match u with [] => True | c :: _ => p c = false end ->
  match rev (dropWhile p (rev u)) with [] => True | c :: _ => p c = false end.
Proof.
  destruct u as [|c t]; simpl; [trivial|]. intros Hc.
  rewrite dropWhile_app. destruct (forallb p (rev t)).
  - simpl. rewrite Hc. simpl. exact Hc.
  - rewrite rev_app_distr. simpl. exact Hc.
Qed.

Lemma TrimSpace_idem (s : list ascii) : TrimSpace (TrimSpace s) = TrimSpace s.
Proof.
  unfold TrimSpace.
  rewrite (dropWhile_fixed isSpace (rev (dropWhile isSpace (rev (dropWhile isSpace s)))))
    by (apply dropEnd_head, dropWhile_head).
  rewrite rev_involutive, dropWhile_idem. reflexivity.
Qed.

Lemma TrimSpace_In (s : list ascii) (c : ascii) : In c (TrimSpace s) -> In c s.
Proof.
  unfold TrimSpace. intros H. apply in_rev in H.
  apply dropWhile_In in H. apply in_rev in H. apply dropWhile_In in H. exact H.
Qed.

Lemma isSpace_toLowerRune (c : ascii) : isSpace (toLowerRune c) = isSpace c.
Proof.
  destruct c as [b0 b1 b2 b3 b4 b5 b6 b7].
  destruct b0, b1, b2, b3, b4, b5, b6, b7; vm_compute; reflexivity.
Qed.

Lemma dropWhile_ToLower (s : list ascii) :
  dropWhile isSpace (ToLower s) = ToLower (dropWhile isSpace s).
Proof.
  unfold ToLower. induction s as [|c t IH]; simpl; [reflexivity|].
  rewrite isSpace_toLowerRune. destruct (isSpace c); [exact IH|reflexivity].
Qed.

Lemma TrimSpace_ToLower (s : list ascii) : TrimSpace (ToLower s) = ToLower (TrimSpace s).
Proof.
  unfold TrimSpace. rewrite dropWhile_ToLower.
  unfold ToLower at 1. rewrite <- map_rev. fold (ToLower (rev (dropWhile isSpace s))).
  rewrite dropWhile_ToLower. unfold ToLower. rewrite map_rev. reflexivity.
Qed.

Lemma normalized_idem (input : list ascii) :
  normalized (normalized input) = normalized input.
Proof.
  unfold normalized.
  rewrite (TrimSpace_ToLower input), ToLower_idem.
  rewrite TrimSpace_ToLower, TrimSpace_idem. reflexivity.
Qed.

Lemma ParseQuery_normalized (x y : list ascii) :
  normalized x = normalized y -> ParseQuery x = ParseQuery y.
Proof. unfold normalized, ParseQuery. intros ->. reflexivity. Qed.

Lemma Raw_ParseQuery (input : list ascii) : Raw (ParseQuery input) = normalized input.
Proof.
  unfold ParseQuery, normalized. cbv zeta.
  destruct (isEmpty (TrimSpace (ToLower input))); [reflexivity|].
  destruct (negb _); reflexivity.
Qed.

(** X1.  ParseQuery reads its input only through the trimmed lowercased
    text: inputs that differ in case or in surrounding white space parse
    to the same query, and parsing the [Raw] field of a query gives the
    query back. *)
Theorem ParseQuery_normal_form (input : list ascii) :
  ParseQuery (ToLower input) = ParseQuery input
  /\ ParseQuery (TrimSpace input) = ParseQuery input
  /\ ParseQuery (Raw (ParseQuery input)) = ParseQuery input.
Proof.
  split; [|split]; apply ParseQuery_normalized.
  - unfold normalized. rewrite ToLower_idem. reflexivity.
  - unfold normalized. rewrite <- TrimSpace_ToLower, TrimSpace_idem. reflexivity.
  - rewrite Raw_ParseQuery. apply normalized_idem.
Qed.

(** ** Fragments *)

Lemma Split_no_sep (s : list ascii) (sep : ascii) :
  forall p, In p (Split s sep) -> ~ In sep p.
Proof.
  induction s as [|c t IH]; simpl.
  - intros p [<-|[]] [].
  - destruct (Ascii.eqb c sep) eqn:E.
    + intros p [<-|Hp]; [intros []|apply IH; exact Hp].
    + destruct (Split t sep) as [|p0 ps] eqn:Es.
      * intros p [<-|[]] [H|[]]. subst c. rewrite Ascii.eqb_refl in E. discriminate.
      * intros p [<-|Hp].
        -- intros [H|H].
           ++ subst c. rewrite Ascii.eqb_refl in E. discriminate.
           ++ apply (IH p0); [left; reflexivity|exact H].
        -- apply IH. right. exact Hp.
Qed.

Lemma Split_chars (s : list ascii) (sep : ascii) :
  forall p c, In p (Split s sep) -> In c p -> In c s.
Proof.
  induction s as [|a t IH]; simpl.
  - intros p c [<-|[]] [].
  - destruct (Ascii.eqb a sep).
    + intros p c [<-|Hp] Hc; [destruct Hc|]. right. apply (IH p c Hp Hc).
    + destruct (Split t sep) as [|p0 ps] eqn:Es.
      * intros p c [<-|[]] [Hc|[]]. left. exact Hc.
      * intros p c [<-|Hp] Hc.
        -- destruct Hc as [Hc|Hc]; [left; exact Hc|].
           right. apply (IH p0 c); [left; reflexivity|exact Hc].
        -- right. apply (IH p c); [right; exact Hp|exact Hc].
Qed.

Lemma splitAndClean_fragment (p f : list ascii) :
  In f (splitAndClean p space) ->
  f <> [] /\ ~ In space f /\ forall c, In c f -> In c p.
Proof.
  unfold splitAndClean. intros H. apply filter_In in H. destruct H as [H Hne].
  apply in_map_iff in H. destruct H as (part & <- & Hpart).
  split; [|split].
  - intros E. rewrite E in Hne. discriminate.
  - intros Hs. apply (Split_no_sep p space part Hpart).
    apply TrimSpace_In. exact Hs.
  - intros c Hc. apply (Split_chars p space part c Hpart).
    apply TrimSpace_In. exact Hc.
Qed.

(** X2.  Every fragment of a parsed query is non-empty and contains neither
    a dot nor a space; a query without a dot has no subdomain fragments. *)
Theorem ParseQuery_fragments_clean (input : list ascii) :
  let query := ParseQuery input in
  (forall f, In f (Fragments query) -> cleanFragment f)
  /\ (forall f, In f (TopLevelFragments query) -> In f (Fragments query))
  /\ (forall f, In f (SubdomainFragments query) -> In f (Fragments query))
  /\ (HasDot query = false -> SubdomainFragments query = []).
Proof.
  unfold ParseQuery. cbv zeta.
  set (s := TrimSpace (ToLower input)).
  destruct (isEmpty s).
  { cbn. split; [intros f []|]. split; [intros f []|].
    split; [intros f []|reflexivity]. }
  rewrite Contains_char.
  destruct (existsb (Ascii.eqb dot) s) eqn:Ed; cbn [negb Fragments TopLevelFragments
                                                   SubdomainFragments HasDot].
  - split; [|split; [|split]].
    + intros f Hf. apply in_app_or in Hf.
      assert (Hpart : exists p, In p (Split s dot) /\ In f (splitAndClean p space)).
      { destruct Hf as [Hf|Hf].
        - destruct (Split s dot) as [|p0 ps] eqn:Es; [destruct Hf|].
          destruct (isEmpty p0); [destruct Hf|].
          exists p0. split; [left; reflexivity|exact Hf].
        - apply in_flat_map in Hf. destruct Hf as (p & Hp & Hf).
          destruct (isEmpty p); [destruct Hf|].
          exists p. split; [|exact Hf].
          destruct (Split s dot); [destruct Hp|right; exact Hp]. }
      destruct Hpart as (p & Hp & Hfp).
      destruct (splitAndClean_fragment p f Hfp) as (Hne & Hsp & Hsub).
      split; [exact Hne|]. split; [|exact Hsp].
      intros Hd. apply (Split_no_sep s dot p Hp). apply Hsub. exact Hd.
    + intros f Hf. apply in_or_app. left. exact Hf.
    + intros f Hf. apply in_or_app. right. exact Hf.
    + discriminate.
  - split; [|split; [|split]].
    + intros f Hf. destruct (splitAndClean_fragment s f Hf) as (Hne & Hsp & Hsub).
      split; [exact Hne|]. split; [|exact Hsp].
      intros Hd. apply Hsub in Hd.
      assert (existsb (Ascii.eqb dot) s = true)
        by (apply existsb_exists; exists dot; split; [exact Hd|apply Ascii.eqb_refl]).
      congruence.
    + trivial.
    + intros f [].
    + reflexivity.
Qed.

(** ** Score bounds *)

Local Open Scope R_scope.

Lemma toLowerRune_keeps_class (c : ascii) :
  isLetter c || isDigit c = true ->
  isLetter (toLowerRune c) || isDigit (toLowerRune c) = true.
Proof.
  destruct c as [b0 b1 b2 b3 b4 b5 b6 b7].
  destruct b0, b1, b2, b3, b4, b5, b6, b7; vm_compute; trivial.
Qed.

Lemma normalizeFragment_idem (s : list ascii) :
  normalizeFragment (normalizeFragment s) = normalizeFragment s.
Proof.
  unfold normalizeFragment.
  induction s as [|c t IH]; [reflexivity|].
  simpl. destruct (isLetter c || isDigit c) eqn:E; [|exact IH].
  simpl. rewrite (toLowerRune_keeps_class c E). simpl.
  rewrite toLowerRune_idem. f_equal. exact IH.
Qed.

Lemma scoreFragment_normalize (q h : list ascii) (p : Z) :
  scoreFragment q h p = scoreFragment (normalizeFragment q) (normalizeFragment h) p.
Proof. unfold scoreFragment. cbv zeta. rewrite !normalizeFragment_idem. reflexivity. Qed.

Lemma isNormalized_normalizeFragment (s : list ascii) :
  normalizeFragment s <> [] -> isNormalized (normalizeFragment s) = true.
Proof.
  intros H. unfold isNormalized. rewrite normalizeFragment_idem, eqs_refl.
  destruct (normalizeFragment s); [contradiction|reflexivity].
Qed.

Lemma calculatePositionBonus_le (p : Z) : (0 <= p)%Z -> calculatePositionBonus p <= 10.
Proof.
  intros Hp. unfold calculatePositionBonus, ScorePositionBonus.
  assert (H : exp (- IZR p * (3 / 10)) <= 1).
  { rewrite <- exp_0. destruct (Z.eq_dec p 0) as [->|Hne].
    - right. f_equal. simpl. lra.
    - left. apply exp_increasing.
      assert (0 < IZR p) by (apply IZR_lt; lia). lra. }
  lra.
Qed.

Lemma scoreFragment_zero_of_empty (q h : list ascii) (p : Z) :
  normalizeFragment q = [] \/ normalizeFragment h = [] -> scoreFragment q h p = 0.
Proof.
  unfold scoreFragment, scoreNormalized. intros [E|E]; rewrite E; cbn [isEmpty orb]; [reflexivity|].
  destruct (isEmpty (normalizeFragment q)); reflexivity.
Qed.

Lemma scoreFragment_bounds (q h : list ascii) (p : Z) :
  0 <= scoreFragment q h p /\ ((0 <= p)%Z -> scoreFragment q h p <= 110).
Proof.
  destruct (normalizeFragment q) as [|a q'] eqn:Eq.
  { rewrite scoreFragment_zero_of_empty by (left; exact Eq). lra. }
  destruct (normalizeFragment h) as [|b h'] eqn:Eh.
  { rewrite scoreFragment_zero_of_empty by (right; exact Eh). lra. }
  rewrite scoreFragment_normalize.
  assert (Nq : isNormalized (normalizeFragment q) = true)
    by (apply isNormalized_normalizeFragment; rewrite Eq; discriminate).
  assert (Nh : isNormalized (normalizeFragment h) = true)
    by (apply isNormalized_normalizeFragment; rewrite Eh; discriminate).
  rewrite (scoreFragment_by_level _ _ p Nq Nh).
  pose proof (calculatePositionBonus_pos p) as Hpos.
  pose proof (calculatePositionBonus_le p) as Hle.
  pose proof (fuzzy_score_bounds (normalizeFragment q) (normalizeFragment h)
                (proj1 (isNormalized_spec _ Nq))) as Hf.
  destruct (matchLevel (normalizeFragment q) (normalizeFragment h)) eqn:L;
    unfold ScoreExactMatch, ScorePrefixMatch in *.
  - split; [lra|intros Hp; specialize (Hle Hp); lra].
  - split; [lra|intros Hp; specialize (Hle Hp); lra].
  - pose proof (substring_score_bounds _ _ (proj1 (isNormalized_spec _ Nq)) L). lra.
  - lra.
Qed.

Lemma sum_lower (A : Type) (g : A -> R) (l : list A) :
  (forall x, 0 <= g x) ->
  forall acc, acc <= fold_left (fun acc x => acc + g x) l acc.
Proof.
  intros Hg. induction l as [|x l IH]; intros acc; simpl; [lra|].
  specialize (IH (acc + g x)). specialize (Hg x). lra.
Qed.

Lemma bestSubdomainScore_lower (qFrag : list ascii) (subdomains : list (list ascii)) :
  forall i best, best <= bestSubdomainScore qFrag subdomains i best.
Proof.
  induction subdomains as [|h rest IH]; intros i best; simpl; [lra|].
  destruct (Rlt_dec best (scoreFragment qFrag h i)) as [Hlt|Hge].
  - specialize (IH (i + 1)%Z (scoreFragment qFrag h i)). lra.
  - apply IH.
Qed.

Lemma scoreTopLevelOnly_nonneg (queryFragments hostFragments : list (list ascii)) :
  0 <= scoreTopLevelOnly queryFragments hostFragments.
Proof.
  unfold scoreTopLevelOnly.
  destruct queryFragments as [|q0 qs]; [lra|].
  destruct hostFragments as [|topLevel rest]; [lra|].
  destruct (_ && _).
  { unfold ScoreExactMatch, ScoreExactHostnameBonus. lra. }
  cbv zeta. unfold sumFragments.
  pose proof (sum_lower _ (fun qFrag => scoreFragment qFrag topLevel 0) (q0 :: qs)
                (fun x => proj1 (scoreFragment_bounds x topLevel 0)) 0) as H.
  destruct (_ && _); unfold ScoreLengthBonus; lra.
Qed.

Lemma scoreWithSubdomains_nonneg (query : Query) (hostFragments : list (list ascii)) :
  0 <= scoreWithSubdomains query hostFragments.
Proof.
  unfold scoreWithSubdomains.
  destruct (_ || _); [lra|]. destruct (_ =? _)%nat; [lra|].
  destruct (_ <? _)%nat; [lra|]. cbv zeta.
  destruct (Req_dec_T _ 0); [lra|].
  pose proof (sum_lower _ (fun qFrag => bestSubdomainScore qFrag (tl hostFragments) 0 0)
                (SubdomainFragments query)
                (fun x => bestSubdomainScore_lower x (tl hostFragments) 0%Z 0) 0) as Hs.
  assert (Ht : 0 <= (if (0 <? length (TopLevelFragments query))%nat
                     then sumFragments (TopLevelFragments query) (hd [] hostFragments) 0
                     else 0)).
  { destruct (_ <? _)%nat; [|lra]. unfold sumFragments.
    apply (sum_lower _ (fun qFrag => scoreFragment qFrag (hd [] hostFragments) 0)
             (TopLevelFragments query)
             (fun x => proj1 (scoreFragment_bounds x (hd [] hostFragments) 0)) 0). }
  lra.
Qed.

Lemma Score_nonneg (query : Query) (service : Service) : 0 <= Score query service.
Proof.
  unfold Score. destruct (negb (HasDot query));
    [apply scoreTopLevelOnly_nonneg|apply scoreWithSubdomains_nonneg].
Qed.

Lemma ln_10_pos : 0 < ln 10.
Proof. rewrite <- ln_1. apply ln_increasing; lra. Qed.

Lemma usageScoreOf_nonneg (service : Service) : 0 <= usageScoreOf service.
Proof.
  unfold usageScoreOf, Log10, ScoreUsageWeight.
  destruct (Z.ltb_spec 0 (Counter service)) as [Hpos|_]; [|lra].
  assert (0 < IZR (Counter service)) by (apply IZR_lt; exact Hpos).
  assert (0 < ln (IZR (Counter service) + 1))
    by (rewrite <- ln_1; apply ln_increasing; lra).
  pose proof ln_10_pos.
  assert (0 < ln (IZR (Counter service) + 1) / ln 10)
    by (apply Rdiv_lt_0_compat; assumption).
  lra.
Qed.

Lemma rankOne_in (query : Query) (services : list Service) (c : Candidate) :
  In c (flat_map (rankOne query) services) <->
  exists s, In s services /\ Disabled s = false /\ Score query s <> 0
            /\ c = mkCandidate s (Score query s) (usageScoreOf s)
                               (Score query s + usageScoreOf s).
Proof.
  rewrite in_flat_map. unfold rankOne. split.
  - intros (s & Hs & Hc). destruct (Disabled s) eqn:Ed; [destruct Hc|].
    destruct (Req_dec_T (Score query s) 0) as [|Hne]; [destruct Hc|].
    destruct Hc as [<-|[]]. exists s. repeat split; assumption.
  - intros (s & Hs & Hd & Hne & ->). exists s. split; [exact Hs|].
    rewrite Hd. destruct (Req_dec_T (Score query s) 0); [contradiction|].
    left. reflexivity.
Qed.

Lemma RankCandidates_in (query : Query) (services : list Service) (c : Candidate) :
  In c (RankCandidates query services) <-> In c (flat_map (rankOne query) services).
Proof.
  unfold RankCandidates, sortCandidates. split; intros H.
  - apply (Permutation_in c (bubbleSort_perm _ TotalScore _) H).
  - apply (Permutation_in c (Permutation_sym (bubbleSort_perm _ TotalScore _)) H).
Qed.

(** X3.  Every candidate returned by RankCandidates belongs to an enabled
    service of the input, has a strictly positive lexical score (scores are
    never negative), a non-negative usage score, and their sum as total,
    whatever the counters are. *)
Theorem RankCandidates_candidates (query : Query) (services : list Service) :
  Forall (fun c =>
            In (CService c) services
            /\ Disabled (CService c) = false
            /\ LexicalScore c = Score query (CService c)
            /\ 0 < LexicalScore c
            /\ 0 <= UsageScore c
            /\ TotalScore c = LexicalScore c + UsageScore c
            /\ 0 < TotalScore c)
         (RankCandidates query services).
Proof.
  apply Forall_forall. intros c Hc.
  apply RankCandidates_in in Hc. apply rankOne_in in Hc.
  destruct Hc as (s & Hs & Hd & Hne & ->). cbn.
  pose proof (Score_nonneg query s). pose proof (usageScoreOf_nonneg s).
  repeat split; try assumption; try reflexivity; lra.
Qed.

(* in a descending list a strictly larger key comes first *)
Lemma descending_precedes (A : Type) (key : A -> R) (l : list A) (x y : A) :
  descending key l -> In x l -> In y l -> key y < key x ->
  exists l1 l2, l = l1 ++ x :: l2 /\ In y l2.
Proof.
  unfold descending. induction 1 as [|a t Hs IH Ha]; intros Hx Hy Hlt; [destruct Hx|].
  rewrite Forall_forall in Ha.
  destruct Hx as [->|Hx].
  - exists [], t. split; [reflexivity|].
    destruct Hy as [->|Hy]; [lra|exact Hy].
  - destruct Hy as [->|Hy].
    + specialize (Ha x Hx). lra.
    + destruct (IH Hx Hy Hlt) as (l1 & l2 & -> & Hin).
      exists (a :: l1), l2. split; [reflexivity|exact Hin].
Qed.

(* evaluate a closed term that holds no real number, in place *)
Ltac evaluate t :=
  let v := eval vm_compute in t in change t with v.

Lemma Score_jellyfin (counter : Z) :
  Score (ParseQuery (str "jellyfin")) (service "jellyfin.example.com" counter) = 300.
Proof.
  unfold Score. evaluate (HasDot (ParseQuery (str "jellyfin"))). cbn [negb].
  evaluate (Fragments (ParseQuery (str "jellyfin"))).
  evaluate (HostnameFragments
              (ToLower (Hostname (service "jellyfin.example.com" counter)))).
  unfold scoreTopLevelOnly. reduce_tests.
  unfold ScoreExactMatch, ScoreExactHostnameBonus. lra.
Qed.

Lemma sum_single (f top : list ascii) :
  sumFragments [f] top 0 = scoreFragment f top 0.
Proof. unfold sumFragments. simpl. lra. Qed.

(** X5.  For a query without a dot made of a single fragment, the score is
    exactly 300 when the fragment is the first label of the hostname, and
    at most 115 otherwise. *)
Theorem Score_exact_hostname (query : Query) (service : Service) (f : list ascii) :
  HasDot query = false ->
  Fragments query = [f] ->
  let top := hd [] (HostnameFragments (Hostname service)) in
  (f = top -> Score query service = 300)
  /\ (f <> top -> Score query service <= 115).
Proof.
  intros Hdot Hf top. unfold Score. rewrite Hdot, Hf, HostnameFragments_ToLower.
  cbn [negb]. subst top.
  destruct (HostnameFragments (Hostname service)) as [|t rest] eqn:Eh.
  { exfalso. revert Eh. apply Split_nonempty. }
  cbn [hd]. unfold scoreTopLevelOnly. cbn [length Nat.eqb andb].
  split.
  - intros ->. rewrite eqs_refl.
    unfold ScoreExactMatch, ScoreExactHostnameBonus. lra.
  - intros Hne. replace (eqs f t) with false
      by (symmetry; apply eqs_false_iff; exact Hne).
    cbv zeta. rewrite sum_single.
    destruct (scoreFragment_bounds f t 0) as [H0 H1]. specialize (H1 (Z.le_refl 0)).
    destruct (_ && _); unfold ScoreLengthBonus; lra.
Qed.

Lemma Score_exact_hostname_witness :
  let top := hd [] (HostnameFragments (Hostname jellyfin)) in
  (str "jellyfin" = top -> Score (ParseQuery (str "jellyfin")) jellyfin = 300)
  /\ (str "jellyfin" <> top -> Score (ParseQuery (str "jellyfin")) jellyfin <= 115).
Proof.
  apply (Score_exact_hostname (ParseQuery (str "jellyfin")) jellyfin (str "jellyfin"));
    vm_compute; reflexivity.
Defined.

(** FindBestMatch returns nothing exactly when every service is
    disabled or scores 0; otherwise it returns an enabled service with a
    nonzero score whose total score no other such service exceeds. *)
Theorem FindBestMatch_best (query : Query) (services : list Service) :
  match FindBestMatch query services with
  | None => forall s, In s services -> Disabled s = true \/ Score query s = 0
  | Some best =>
      In best services /\ Disabled best = false /\ Score query best <> 0
      /\ forall s, In s services -> Disabled s = false -> Score query s <> 0 ->
                   Score query s + usageScoreOf s
                   <= Score query best + usageScoreOf best
  end.
Proof.
  unfold FindBestMatch.
  pose proof (bubbleSort_sorted _ TotalScore (flat_map (rankOne query) services)) as Hs.
  fold (sortCandidates (flat_map (rankOne query) services)) in Hs.
  fold (RankCandidates query services) in Hs.
  destruct (RankCandidates query services) as [|c rest] eqn:Er.
  - intros s Hin. destruct (Disabled s) eqn:Ed; [left; reflexivity|right].
    destruct (Req_dec_T (Score query s) 0) as [E|Hne]; [exact E|exfalso].
    assert (Hc : In (mkCandidate s (Score query s) (usageScoreOf s)
                                 (Score query s + usageScoreOf s))
                    (RankCandidates query services)).
    { apply RankCandidates_in, rankOne_in. exists s. repeat split; assumption. }
    rewrite Er in Hc. destruct Hc.
  - assert (Hc : In c (RankCandidates query services)) by (rewrite Er; left; reflexivity).
    apply RankCandidates_in, rankOne_in in Hc.
    destruct Hc as (b & Hb & Hd & Hne & ->). cbn [CService].
    split; [exact Hb|]. split; [exact Hd|]. split; [exact Hne|].
    intros s Hin Hds Hnes.
    assert (Hc : In (mkCandidate s (Score query s) (usageScoreOf s)
                                 (Score query s + usageScoreOf s))
                    (RankCandidates query services)).
    { apply RankCandidates_in, rankOne_in. exists s. repeat split; assumption. }
    rewrite Er in Hc. destruct Hc as [E|Hc].
    + injection E as E _ _ _. rewrite E. lra.
    + inversion Hs as [|? ? _ Hall]; subst. rewrite Forall_forall in Hall.
      apply (Hall _ Hc).
Qed.

(** ** Bookmarks *)

(* the similarity lies between 0 and 1: at most one match a rune, at least
   one byte a rune *)
Lemma calculateSimilarity_unit (q h : list ascii) :
  0 <= calculateSimilarity q h <= 1.
Proof.
  unfold calculateSimilarity.
  destruct (isEmpty q || isEmpty h) eqn:E; [lra|].
  assert (Hq : q <> []) by (intros ->; discriminate E).
  set (matches := fold_left _ (runes q) 0%nat).
  assert (Hm : (matches <= length q)%nat).
  { subst matches. pose proof (matches_le h (runes q) 0).
    pose proof (runesFrom_length q 0). unfold runes in *. lia. }
  assert (Hlen : 0 < INR (length q)).
  { apply lt_0_INR. destruct q; [contradiction|simpl; lia]. }
  pose proof (pos_INR matches) as H0. apply le_INR in Hm.
  split.
  - apply Rmult_le_pos; [exact H0|]. left. apply Rinv_0_lt_compat. exact Hlen.
  - apply Rmult_le_reg_r with (INR (length q)); [exact Hlen|].
    unfold Rdiv. rewrite Rmult_assoc, Rinv_l by lra. lra.
Qed.

Lemma calculateSimilarity_bounds (q h : list ascii) :
  0 <= (if Rlt_dec (1 / 2) (calculateSimilarity q h)
        then ScoreFuzzyMatch * calculateSimilarity q h else 0) <= 25.
Proof.
  pose proof (calculateSimilarity_unit q h) as Hb. unfold ScoreFuzzyMatch.
  destruct (Rlt_dec (1 / 2) (calculateSimilarity q h)); lra.
Qed.

(** X6.  ScoreBookmark is 300 exactly for a query that equals the
    bookmark's abbr up to case and surrounding white space; every other
    score lies between 0 and 75. *)
Theorem ScoreBookmark_bounds (queryStr : list ascii) (bookmark : Bookmark) :
  queryStr <> [] ->
  (ToLower (TrimSpace queryStr) = ToLower (Abbr bookmark) ->
   ScoreBookmark queryStr bookmark = 300)
  /\ (ToLower (TrimSpace queryStr) <> ToLower (Abbr bookmark) ->
      0 <= ScoreBookmark queryStr bookmark <= 75).
Proof.
  intros Hq. unfold ScoreBookmark.
  destruct queryStr as [|c0 q0]; [contradiction|]. cbn [isEmpty]. cbv zeta.
  set (nq := ToLower (TrimSpace (c0 :: q0))). set (abbr := ToLower (Abbr bookmark)).
  split.
  - intros ->. rewrite eqs_refl. unfold ScoreExactMatch, ScoreExactHostnameBonus. lra.
  - intros Hne. replace (eqs nq abbr) with false
      by (symmetry; apply eqs_false_iff; exact Hne).
    destruct (HasPrefix abbr nq) eqn:Ep; [unfold ScorePrefixMatch; lra|].
    destruct (Contains abbr nq) eqn:Ec.
    + assert (Hnq : nq <> []) by (intros E; rewrite E, HasPrefix_nil in Ep; discriminate).
      assert (L : matchLevel nq abbr = Substring).
      { unfold matchLevel. rewrite Ep, Ec.
        replace (eqs nq abbr) with false
          by (symmetry; apply eqs_false_iff; exact Hne).
        reflexivity. }
      pose proof (substring_score_bounds nq abbr Hnq L). lra.
    + destruct (_ && _); [unfold ScoreFuzzyMatch; lra|].
      pose proof (calculateSimilarity_bounds nq abbr). lra.
Qed.

Lemma ScoreBookmark_bounds_witness :
  (ToLower (TrimSpace (str "chatgpt")) = ToLower (Abbr chatgpt) ->
   ScoreBookmark (str "chatgpt") chatgpt = 300)
  /\ (ToLower (TrimSpace (str "chatgpt")) <> ToLower (Abbr chatgpt) ->
      0 <= ScoreBookmark (str "chatgpt") chatgpt <= 75).
Proof.
  apply (ScoreBookmark_bounds (str "chatgpt") chatgpt). discriminate.
Defined.

Lemma rankOneBookmark_filter (queryStr : list ascii) (bookmarks : list Bookmark) :
  flat_map (rankOneBookmark queryStr) bookmarks
  = map (fun b => mkBookmarkCandidate b (ScoreBookmark queryStr b))
        (filter (fun b => negb (BDisabled b)
                          && (if Req_dec_T (ScoreBookmark queryStr b) 0
                              then false else true))
                bookmarks).
Proof.
  induction bookmarks as [|b l IH]; [reflexivity|].
  simpl. rewrite IH. unfold rankOneBookmark.
  destruct (BDisabled b); simpl; [reflexivity|].
  destruct (Req_dec_T (ScoreBookmark queryStr b) 0); reflexivity.
Qed.

(** X7.  RankBookmarkCandidates returns one candidate, carrying its score,
    for exactly the enabled bookmarks with a nonzero score, rearranged into
    non-increasing score, candidates of equal score keeping the order of
    the input. *)
Theorem RankBookmarkCandidates_sorted (queryStr : list ascii) (bookmarks : list Bookmark) :
  let expected :=
    map (fun b => mkBookmarkCandidate b (ScoreBookmark queryStr b))
        (filter (fun b => negb (BDisabled b)
                          && (if Req_dec_T (ScoreBookmark queryStr b) 0
                              then false else true))
                bookmarks) in
  let result := RankBookmarkCandidates queryStr bookmarks in
  Permutation result expected
  /\ descending BScore result
  /\ forall v, withKey BScore v result = withKey BScore v expected.
Proof.
  cbv zeta. unfold RankBookmarkCandidates. rewrite rankOneBookmark_filter.
  split; [apply bubbleSort_perm|]. split; [apply bubbleSort_sorted|].
  intros v. apply bubbleSort_stable.
Qed.

(** X8.  When an enabled bookmark's abbr equals the text after the [@] up
    to case, the bookmark search redirects to the URL of an enabled
    bookmark whose abbr equals it up to case: an exact match is never
    outranked. *)
Theorem handleBookmarkSearch_exact (d : Deps) (query : list ascii) (w : World)
        (b : Bookmark) :
  let queryStr := TrimSpace (TrimPrefix query [("@")%char]) in
  queryStr <> [] ->
  In b (GetAllBookmarks (memIndex w)) ->
  BDisabled b = false ->
  ToLower queryStr = ToLower (Abbr b) ->
  exists best,
    In best (GetAllBookmarks (memIndex w))
    /\ BDisabled best = false
    /\ ToLower (Abbr best) = ToLower queryStr
    /\ handleBookmarkSearch d query w = Redirect (URL best).
Proof.
  intros queryStr Hq Hb Hd Habbr. unfold handleBookmarkSearch. fold queryStr.
  cbv zeta. destruct queryStr as [|c0 q0] eqn:Eq; [contradiction|]. cbn [isEmpty].
  rewrite <- Eq in *.
  assert (Htrim : TrimSpace queryStr = queryStr)
    by (subst queryStr; apply TrimSpace_idem).
  assert (Hscore : ScoreBookmark queryStr b = 300).
  { apply ScoreBookmark_bounds; [rewrite Eq; discriminate|]. rewrite Htrim. exact Habbr. }
  destruct (length (GetAllBookmarks (memIndex w)) =? 0)%nat eqn:El.
  { apply Nat.eqb_eq in El. destruct (GetAllBookmarks (memIndex w)); [destruct Hb|discriminate]. }
  assert (Hin : In (mkBookmarkCandidate b (ScoreBookmark queryStr b))
                   (RankBookmarkCandidates queryStr (GetAllBookmarks (memIndex w)))).
  { apply (Permutation_in _ (Permutation_sym (bubbleSort_perm _ BScore _))).
    apply in_flat_map. exists b. split; [exact Hb|].
    unfold rankOneBookmark. rewrite Hd.
    destruct (Req_dec_T (ScoreBookmark queryStr b) 0) as [E|_]; [lra|]. left. reflexivity. }
  pose proof (bubbleSort_sorted _ BScore
                (flat_map (rankOneBookmark queryStr) (GetAllBookmarks (memIndex w)))) as Hs.
  fold (RankBookmarkCandidates queryStr (GetAllBookmarks (memIndex w))) in Hs.
  destruct (RankBookmarkCandidates queryStr (GetAllBookmarks (memIndex w)))
    as [|best rest] eqn:Er; [destruct Hin|].
  assert (Hbest : In best (flat_map (rankOneBookmark queryStr)
                                    (GetAllBookmarks (memIndex w)))).
  { apply (Permutation_in best (bubbleSort_perm _ BScore _)).
    fold (RankBookmarkCandidates queryStr (GetAllBookmarks (memIndex w))).
    rewrite Er. left. reflexivity. }
  assert (Htop : 300 <= BScore best).
  { destruct Hin as [->|Hin]; [cbn; lra|].
    inversion Hs as [|? ? _ Hall]; subst. rewrite Forall_forall in Hall.
    specialize (Hall _ Hin). cbn in Hall. lra. }
  apply in_flat_map in Hbest. destruct Hbest as (b' & Hb' & Hc).
  unfold rankOneBookmark in Hc. destruct (BDisabled b') eqn:Ed'; [destruct Hc|].
  destruct (Req_dec_T (ScoreBookmark queryStr b') 0); [destruct Hc|].
  destruct Hc as [<-|[]]. cbn in Htop |- *.
  exists b'. split; [exact Hb'|]. split; [exact Ed'|]. split; [|reflexivity].
  destruct (list_eq_dec ascii_dec (ToLower (TrimSpace queryStr)) (ToLower (Abbr b')))
    as [E|Hne].
  - rewrite Htrim in E. symmetry. exact E.
  - exfalso.
    assert (queryStr <> []) by (rewrite Eq; discriminate).
    pose proof (proj2 (ScoreBookmark_bounds queryStr b' H) Hne). lra.
Qed.

Lemma handleBookmarkSearch_exact_witness :
  exists best,
    In best (GetAllBookmarks (memIndex bookmarkWorld))
    /\ BDisabled best = false
    /\ ToLower (Abbr best) = ToLower (TrimSpace (TrimPrefix (str "@ChatGPT") [("@")%char]))
    /\ handleBookmarkSearch deps (str "@ChatGPT") bookmarkWorld = Redirect (URL best).
Proof.
  apply (handleBookmarkSearch_exact deps (str "@ChatGPT") bookmarkWorld chatgpt).
  - vm_compute. discriminate.
  - vm_compute. left. reflexivity.
  - reflexivity.
  - vm_compute. reflexivity.
Defined.

(** ** The resolver *)

(** X9.  matchInternalEndpoint returns an endpoint only when the
    lowercased query is a prefix of that endpoint and of no other; it
    returns the empty string when no endpoint or several endpoints start
    with the query. *)
Theorem matchInternalEndpoint_unique (query : list ascii) :
  let starts := fun endpoint => HasPrefix endpoint (ToLower query) in
  match matchInternalEndpoint query with
  | [] =>
      (forall e, In e endpoints -> starts e = false)
      \/ (exists e1 e2, e1 <> e2 /\ In e1 endpoints /\ In e2 endpoints
                        /\ starts e1 = true /\ starts e2 = true)
  | m =>
      In m endpoints /\ starts m = true
      /\ forall e, In e endpoints -> starts e = true -> e = m
  end.
Proof.
  cbv zeta. unfold matchInternalEndpoint, endpoints. cbn [filter].
  destruct (HasPrefix (str "/infra") (ToLower query)) eqn:E1;
    destruct (HasPrefix (str "/healthz") (ToLower query)) eqn:E2;
    destruct (HasPrefix (str "/readyz") (ToLower query)) eqn:E3;
    try (right; eexists; eexists;
         repeat split; [|left; reflexivity|right; left; reflexivity|eassumption|eassumption];
         discriminate);
    try (right; eexists; eexists;
         repeat split; [|left; reflexivity|right; right; left; reflexivity
                        |eassumption|eassumption];
         discriminate);
    try (right; eexists; eexists;
         repeat split; [|right; left; reflexivity|right; right; left; reflexivity
                        |eassumption|eassumption];
         discriminate).
  - change (str "/infra") with ("/"%char :: str "infra") at 1.
    cbv iota. split; [left; reflexivity|]. split; [exact E1|].
    intros e [<-|[<-|[<-|[]]]] He; first [reflexivity|congruence].
  - change (str "/healthz") with ("/"%char :: str "healthz") at 1.
    cbv iota. split; [right; left; reflexivity|]. split; [exact E2|].
    intros e [<-|[<-|[<-|[]]]] He; first [reflexivity|congruence].
  - change (str "/readyz") with ("/"%char :: str "readyz") at 1.
    cbv iota. split; [right; right; left; reflexivity|]. split; [exact E3|].
    intros e [<-|[<-|[<-|[]]]] He; first [reflexivity|congruence].
  - left. intros e [<-|[<-|[<-|[]]]]; assumption.
Qed.

(** X10.  The resolver takes the candidates in rank order: the hostname it
    settles on belongs to the first candidate that is allowed by the
    allow-list and (unless TLS validation is skipped) passes the probe;
    it gives up only when no candidate does. *)
Theorem firstHealthy_first (d : Deps) (candidates : list Candidate) :
  match firstHealthy d candidates with
  | Some hostname =>
      exists pre c post,
        candidates = pre ++ c :: post
        /\ Hostname (CService c) = hostname
        /\ healthy d c = true
        /\ forall x, In x pre -> healthy d x = false
  | None => forall x, In x candidates -> healthy d x = false
  end.
Proof.
  induction candidates as [|c rest IH]; simpl; [intros x []|].
  assert (Hc : healthy d c =
               negb (negb (isAllowedRedirect (Hostname (CService c)) (AllowedDomains d)))
               && negb (negb (SkipTLSValidation d)
                        && negb (ValidateTLS d (Hostname (CService c))))).
  { unfold healthy. destruct (isAllowedRedirect _ _), (SkipTLSValidation d),
      (ValidateTLS d _); reflexivity. }
  destruct (negb (isAllowedRedirect (Hostname (CService c)) (AllowedDomains d))) eqn:Ea.
  - destruct (firstHealthy d rest) as [h|].
    + destruct IH as (pre & c' & post & -> & Hh & Hok & Hpre).
      exists (c :: pre), c', post. repeat split; try assumption.
      intros x [<-|Hx]; [rewrite Hc; reflexivity|apply Hpre; exact Hx].
    + intros x [<-|Hx]; [rewrite Hc; reflexivity|apply IH; exact Hx].
  - destruct (negb (SkipTLSValidation d) && negb (ValidateTLS d (Hostname (CService c))))
      eqn:Ev.
    + destruct (firstHealthy d rest) as [h|].
      * destruct IH as (pre & c' & post & -> & Hh & Hok & Hpre).
        exists (c :: pre), c', post. repeat split; try assumption.
        intros x [<-|Hx]; [rewrite Hc; reflexivity|apply Hpre; exact Hx].
      * intros x [<-|Hx]; [rewrite Hc; reflexivity|apply IH; exact Hx].
    + exists [], c, rest. repeat split; [rewrite Hc; reflexivity|intros x []].
Qed.

(* incrementing a counter touches neither the reachability nor the cache *)
Lemma IncrementUsage_keeps (now : Z) (id : list ascii) (s : Store) :
  reachable (bestEffort (IncrementUsage now id s) s) = reachable s
  /\ cacheKeys (bestEffort (IncrementUsage now id s) s) = cacheKeys s.
Proof.
  unfold bestEffort, IncrementUsage, UpdateServiceCounter, RedisStore.GetService,
    SaveService.
  destruct (reachable s) eqn:Hr; [|split; [exact Hr|reflexivity]].
  destruct (get id (serviceKeys s)); cbn; rewrite ?Hr; cbn; split;
    first [reflexivity|exact Hr].
Qed.

Lemma firstn_In (A : Type) (n : nat) (l : list A) (x : A) : In x (firstn n l) -> In x l.
Proof.
  revert l. induction n as [|n IH]; intros [|a l]; simpl; try tauto.
  intros [H|H]; [left; exact H|right; apply IH; exact H].
Qed.

(* what IncrementUsage leaves in the store *)
Lemma IncrementUsage_store (now : Z) (id : list ascii) (st : Store) :
  let st' := bestEffort (IncrementUsage now id st) st in
  (reachable st = true ->
   forall e, get id (serviceKeys st) = Some e ->
     serviceKeys st' = put (ID e) (usedAt now e) (serviceKeys st)
     /\ allServices st' = sadd (ID e) (allServices st))
  /\ (reachable st = false \/ get id (serviceKeys st) = None -> st' = st)
  /\ bookmarkKeys st' = bookmarkKeys st
  /\ allBookmarks st' = allBookmarks st.
Proof.
  cbv zeta.
  unfold bestEffort, IncrementUsage, UpdateServiceCounter, RedisStore.GetService,
    SaveService.
  destruct (reachable st) eqn:Hr.
  - destruct (get id (serviceKeys st)) as [e0|] eqn:Eg; cbn.
    + refine (conj _ (conj _ (conj eq_refl eq_refl))).
      * intros _ e E. injection E as <-. split; reflexivity.
      * intros [H|H]; discriminate.
    + refine (conj _ (conj _ (conj eq_refl eq_refl))).
      * intros _ e E. discriminate.
      * intros _. reflexivity.
  - refine (conj _ (conj _ (conj eq_refl eq_refl))).
    + intros H. discriminate.
    + intros _. reflexivity.
Qed.

(** X11.  The ranking path of the resolver either answers with the home
    redirect and leaves index and store untouched, or redirects to
    [https://hostname] of an enabled service of the index whose score for
    the query is nonzero, which is allowed and (unless validation is
    skipped) alive; then it increments that hostname's counter in the index
    and, when the store is reachable, the cache maps the query to the
    hostname.  The store changes in nothing else but the record it holds
    under the hostname: with the store reachable that record is saved under
    its own ID with its counter incremented and its last-seen time set to
    the time of the request, its ID joining the set of all services; with
    no such record, or with the store unreachable, the service records
    stay as they were. *)
Theorem handleServiceSearch_outcome (d : Deps) (now : Z) (query : list ascii) (w : World) :
  handleServiceSearch d now query w = (Redirect (HomepageURL d), w)
  \/ exists s,
      In s (GetAllServices (memIndex w))
      /\ Disabled s = false
      /\ Score (ParseQuery query) s <> 0%R
      /\ isAllowedRedirect (Hostname s) (AllowedDomains d) = true
      /\ (SkipTLSValidation d = true \/ ValidateTLS d (Hostname s) = true)
      /\ fst (handleServiceSearch d now query w) = Redirect (https (Hostname s))
      /\ memIndex (snd (handleServiceSearch d now query w))
         = IncrementCounter (Hostname s) (memIndex w)
      /\ (reachable (store w) = true ->
          GetCachedResolution query (store (snd (handleServiceSearch d now query w)))
          = Some (Hostname s))
      /\ (let st' := store (snd (handleServiceSearch d now query w)) in
          reachable st' = reachable (store w)
          /\ cacheKeys st'
             = (if reachable (store w)
                then put query (Hostname s) (cacheKeys (store w))
                else cacheKeys (store w))
          /\ bookmarkKeys st' = bookmarkKeys (store w)
          /\ allBookmarks st' = allBookmarks (store w)
          /\ (reachable (store w) = true ->
              forall e, get (Hostname s) (serviceKeys (store w)) = Some e ->
                serviceKeys st' = put (ID e) (usedAt now e) (serviceKeys (store w))
                /\ allServices st' = sadd (ID e) (allServices (store w))
                /\ RedisStore.GetService (ID e) st' = Some (usedAt now e))
          /\ (reachable (store w) = false
              \/ get (Hostname s) (serviceKeys (store w)) = None ->
              serviceKeys st' = serviceKeys (store w)
              /\ allServices st' = allServices (store w))).
Proof.
  unfold handleServiceSearch. cbv zeta.
  destruct (length (GetAllServices (memIndex w)) =? 0)%nat; [left; reflexivity|].
  destruct (length (RankCandidates (ParseQuery query) (GetAllServices (memIndex w))) =? 0)%nat;
    [left; reflexivity|].
  match goal with |- context [firstHealthy d ?l] =>
    set (capped := l); pose proof (firstHealthy_first d capped) as Hf;
    destruct (firstHealthy d capped) as [h|] end; [|left; reflexivity].
  right. destruct Hf as (pre & c & post & Ecap & Hh & Hok & _).
  assert (Hc : In c (RankCandidates (ParseQuery query) (GetAllServices (memIndex w)))).
  { assert (Hcap : In c capped) by (rewrite Ecap; apply in_or_app; right; left; reflexivity).
    subst capped. destruct (_ && _); [apply firstn_In in Hcap|]; exact Hcap. }
  apply RankCandidates_in, rankOne_in in Hc.
  destruct Hc as (s & Hs & Hd & Hne & ->). cbn [CService] in *. subst h.
  unfold healthy in Hok. cbn [CService] in Hok.
  apply andb_true_iff in Hok. destruct Hok as [Hal Hv]. apply orb_true_iff in Hv.
  exists s.
  pose proof (IncrementUsage_keeps now (Hostname s) (store w)) as [Hkr Hkc].
  pose proof (IncrementUsage_store now (Hostname s) (store w)) as (Hrec & Hnone & Hbk & Hab).
  cbv zeta in Hrec, Hnone, Hbk, Hab.
  set (st1 := bestEffort (IncrementUsage now (Hostname s) (store w)) (store w)) in *.
  refine (conj Hs (conj Hd (conj Hne (conj Hal (conj Hv (conj eq_refl (conj eq_refl
            (conj _ _)))))))).
  - intros Hr. cbn [snd store].
    assert (Hr' : reachable st1 = true) by (rewrite Hkr; exact Hr).
    unfold CacheResolution at 1. rewrite Hr'. cbn [bestEffort].
    unfold GetCachedResolution. cbn [reachable cacheKeys].
    rewrite get_put, eqs_refl. reflexivity.
  - cbn [snd store]. unfold CacheResolution. rewrite Hkr.
    destruct (reachable (store w)) eqn:Hr; cbn [bestEffort reachable cacheKeys
      bookmarkKeys allBookmarks serviceKeys allServices].
    + rewrite Hkc. refine (conj eq_refl (conj eq_refl (conj Hbk (conj Hab (conj _ _))))).
      * intros _ e He. destruct (Hrec eq_refl e He) as [Hk Ha].
        refine (conj Hk (conj Ha _)).
        unfold RedisStore.GetService. cbn [reachable serviceKeys].
        rewrite Hk, get_put, eqs_refl. reflexivity.
      * intros [H|H]; [discriminate|].
        rewrite (Hnone (or_intror H)). split; reflexivity.
    + refine (conj Hkr (conj Hkc (conj Hbk (conj Hab (conj _ _))))).
      * intros H. discriminate.
      * intros _. rewrite (Hnone (or_introl eq_refl)). split; reflexivity.
Qed.

(** X12.  A cache hit short-circuits the ranking: when the cache maps the
    query to a non-empty hostname that passes the probe and the allow-list,
    the answer is [https://hostname] and that hostname's counters are
    incremented, whatever the index holds. *)
Theorem Search_cache_hit (d : Deps) (now : Z) (r : Request) (w : World) (h : list ascii) :
  realmOf r = ServiceRealm ->
  TrimSpace (q r) <> [] ->
  GetCachedResolution (TrimSpace (q r)) (store w) = Some h ->
  h <> [] ->
  ValidateTLS d h = true ->
  isAllowedRedirect h (AllowedDomains d) = true ->
  Search d now r w
  = (Redirect (https h),
     mkWorld (IncrementCounter h (memIndex w))
             (bestEffort (IncrementUsage now h (store w)) (store w))).
Proof.
  unfold realmOf, Search. cbv zeta. intros Hrealm Hq Hc Hh Hv Ha.
  destruct (TrimSpace (q r)) as [|c0 q0] eqn:Eq; [contradiction|]. cbn [isEmpty].
  destruct (HasPrefix (c0 :: q0) [("@")%char]); [discriminate|].
  destruct (HasPrefix (c0 :: q0) [("/")%char]); [discriminate|].
  unfold handleCachedService. rewrite Hc.
  destruct h; [contradiction|]. cbn [isEmpty]. rewrite Hv, Ha. reflexivity.
Qed.

Lemma Search_cache_hit_witness :
  Search (mkDeps (str "https://home.example.com") [str "other.net"] false 3 (fun _ => true))
         7 cachedRequest cachedWorld
  = (Redirect (https (str "files.other.net")),
     mkWorld (IncrementCounter (str "files.other.net") (memIndex cachedWorld))
             (bestEffort (IncrementUsage 7 (str "files.other.net") (store cachedWorld))
                         (store cachedWorld))).
Proof.
  apply (Search_cache_hit
           (mkDeps (str "https://home.example.com") [str "other.net"] false 3 (fun _ => true))
           7 cachedRequest cachedWorld (str "files.other.net"));
    vm_compute; try reflexivity; discriminate.
Defined.

(** X13.  A cache hit whose probe fails is invalidated: the cached
    resolution is deleted, the index is left alone and the request goes on
    to the ranking. *)
Theorem handleCachedService_invalidates (d : Deps) (now : Z) (query : list ascii)
        (w : World) (h : list ascii) :
  GetCachedResolution query (store w) = Some h ->
  h <> [] ->
  ValidateTLS d h = false ->
  fst (handleCachedService d now query w) = None
  /\ memIndex (snd (handleCachedService d now query w)) = memIndex w
  /\ GetCachedResolution query (store (snd (handleCachedService d now query w)))
     = Some [].
Proof.
  intros Hc Hh Hv. unfold handleCachedService. rewrite Hc.
  destruct h as [|c0 h0]; [contradiction|]. cbn [isEmpty]. rewrite Hv.
  cbn [fst snd memIndex store].
  unfold GetCachedResolution in Hc.
  destruct (reachable (store w)) eqn:Hr; [|discriminate].
  unfold InvalidateCache. rewrite Hr. cbn [bestEffort].
  unfold GetCachedResolution. cbn [reachable cacheKeys].
  repeat split.
  assert (Hdel : forall (m : gomap (list ascii)), get query (delete query m) = None).
  { induction m as [|[k v] m IH]; simpl; [reflexivity|].
    destruct (eqs query k) eqn:E; [exact IH|]. simpl. rewrite E. exact IH. }
  rewrite Hdel. reflexivity.
Qed.

Lemma handleCachedService_invalidates_witness :
  let d := mkDeps (str "https://home.example.com") [str "example.com"] false 3
                  (fun _ => false) in
  fst (handleCachedService d 7 (str "files") cachedWorld) = None
  /\ memIndex (snd (handleCachedService d 7 (str "files") cachedWorld))
     = memIndex cachedWorld
  /\ GetCachedResolution (str "files")
       (store (snd (handleCachedService d 7 (str "files") cachedWorld)))
     = Some [].
Proof.
  apply (handleCachedService_invalidates
           (mkDeps (str "https://home.example.com") [str "example.com"] false 3
                   (fun _ => false))
           7 (str "files") cachedWorld (str "files.other.net"));
    vm_compute; try reflexivity; discriminate.
Defined.

(** ** The memory index *)

Local Open Scope Z_scope.

Lemma incr64_in_range (c : Z) : - 2 ^ 63 <= c -> c + 1 < 2 ^ 63 -> incr64 c = c + 1.
Proof.
  intros H0 H1. unfold incr64.
  rewrite Z.mod_small by lia. lia.
Qed.

Lemma IncrementCounter_absent (id : list ascii) (idx : MemoryIndex) :
  Index.GetService id idx = None -> IncrementCounter id idx = idx.
Proof. unfold Index.GetService, IncrementCounter. intros ->. reflexivity. Qed.

Lemma IncrementCounter_lookup (id id' : list ascii) (idx : MemoryIndex) :
  Index.GetService id' (IncrementCounter id idx)
  = if eqs id' id then option_map bumpCounter (Index.GetService id idx)
    else Index.GetService id' idx.
Proof.
  unfold Index.GetService, IncrementCounter.
  destruct (get id (services idx)) as [s|] eqn:E; cbn [services withServices].
  - rewrite get_put. destruct (eqs id' id); reflexivity.
  - destruct (eqs id' id) eqn:E'; [|reflexivity].
    apply eqs_true_iff in E'. subst id'. rewrite E. reflexivity.
Qed.

(** X14.  IncrementCounter called [n] times on a service of the index adds
    exactly [n] to its counter (as long as the int64 does not overflow) and
    changes nothing else of the entry nor any other entry; on an id that is
    absent it leaves the index unchanged. *)
Theorem IncrementCounter_n_times (id : list ascii) (idx : MemoryIndex) (n : nat) :
  (Index.GetService id idx = None -> Nat.iter n (IncrementCounter id) idx = idx)
  /\ (forall s,
        Index.GetService id idx = Some s ->
        - 2 ^ 63 <= Counter s -> Counter s + Z.of_nat n < 2 ^ 63 ->
        Index.GetService id (Nat.iter n (IncrementCounter id) idx)
        = Some (mkService (ID s) (Hostname s) (Name s) (Sources s) (LastSeenAt s)
                          (Counter s + Z.of_nat n) (CreatedAt s) (UpdatedAt s)
                          (LastUsedAt s) (Disabled s)))
  /\ (forall id', id' <> id ->
        Index.GetService id' (Nat.iter n (IncrementCounter id) idx)
        = Index.GetService id' idx).
Proof.
  split; [|split].
  - intros Habs. induction n as [|n IH]; simpl; [reflexivity|].
    rewrite IH. apply IncrementCounter_absent. exact Habs.
  - induction n as [|n IH]; intros s Hs H0 H1.
    + simpl. rewrite Hs, Z.add_0_r. destruct s; reflexivity.
    + simpl. rewrite IncrementCounter_lookup, eqs_refl.
      rewrite (IH s Hs H0) by lia. cbn [option_map]. unfold bumpCounter. cbn.
      rewrite incr64_in_range by lia. do 2 f_equal. lia.
  - intros id' Hne. induction n as [|n IH]; simpl; [reflexivity|].
    rewrite IncrementCounter_lookup.
    replace (eqs id' id) with false by (symmetry; apply eqs_false_iff; exact Hne).
    exact IH.
Qed.

Lemma get_fill_none (id : list ascii) (l : list Service) :
  forall m,
    (forall s, In s l -> ID s <> id) -> get id m = None ->
    get id (fold_left (fun m service => put (ID service) service m) l m) = None.
Proof.
  induction l as [|s l IH]; intros m Hl Hm; simpl; [exact Hm|].
  apply IH.
  - intros s' Hs'. apply Hl. right. exact Hs'.
  - rewrite get_put.
    replace (eqs id (ID s)) with false; [exact Hm|].
    symmetry. apply eqs_false_iff. intros E. apply (Hl s); [left; reflexivity|].
    symmetry. exact E.
Qed.

Lemma fill_distinct (l : list Service) :
  forall m,
    NoDup (map ID l) -> (forall s, In s l -> ~ In (ID s) (map fst m)) ->
    fold_left (fun m service => put (ID service) service m) l m
    = m ++ map (fun s => (ID s, s)) l.
Proof.
  induction l as [|s l IH]; intros m Hnd Hfresh; simpl; [rewrite app_nil_r; reflexivity|].
  inversion Hnd as [|? ? Hs Hnd']; subst.
  assert (Hput : put (ID s) s m = m ++ [(ID s, s)]).
  { assert (Hm : ~ In (ID s) (map fst m)) by (apply Hfresh; left; reflexivity).
    clear - Hm. induction m as [|[k v] m IH]; simpl; [reflexivity|].
    destruct (eqs (ID s) k) eqn:E.
    - apply eqs_true_iff in E. exfalso. apply Hm. left. symmetry. exact E.
    - rewrite IH; [reflexivity|]. intros H. apply Hm. right. exact H. }
  rewrite Hput, IH; [rewrite <- app_assoc; reflexivity|exact Hnd'|].
  intros s' Hs' Hin. rewrite map_app in Hin. apply in_app_or in Hin.
  destruct Hin as [Hin|[Hin|[]]].
  - apply (Hfresh s'); [right; exact Hs'|exact Hin].
  - simpl in Hin. apply Hs. rewrite Hin. apply in_map. exact Hs'.
Qed.

(** X15.  UpdateServices replaces the map: afterwards a lookup by id finds
    the last service of the list with that ID and nothing for an id that
    is not in the list, whatever the index held before; the new map is
    keyed by the IDs, and when the IDs of the list are distinct the index
    holds exactly the services of the list, in whatever order the map
    yields them. *)
Theorem UpdateServices_replaces (now : Z) (l : list Service) (idx : MemoryIndex) :
  let idx' := UpdateServices now l idx in
  (forall pre s post,
      l = pre ++ s :: post -> ~ In (ID s) (map ID post) ->
      Index.GetService (ID s) idx' = Some s)
  /\ (forall id, ~ In id (map ID l) -> Index.GetService id idx' = None)
  /\ wellKeyed (services idx')
  /\ lastReload idx' = now
  /\ (NoDup (map ID l) ->
      Permutation (Index.GetAllServices idx') l /\ Count idx' = length l).
Proof.
  cbv zeta. unfold Index.GetService, UpdateServices. cbn [services lastReload].
  split; [|split; [|split; [|split]]].
  - intros pre s post -> Hlast. rewrite fold_left_app. simpl.
    destruct (get_fill (fun v => v = s) (ID s) post
                (put (ID s) s
                     (fold_left (fun m service => put (ID service) service m) pre [])))
      as (v & Hv & ->).
    + intros s' Hs' Hid. exfalso. apply Hlast. rewrite <- Hid. apply in_map. exact Hs'.
    + intros v. rewrite get_put, eqs_refl. intros E. injection E as <-. reflexivity.
    + right. rewrite get_put, eqs_refl. discriminate.
    + exact Hv.
  - intros id Hid. apply get_fill_none; [|reflexivity].
    intros s Hs E. apply Hid. rewrite <- E. apply in_map. exact Hs.
  - apply wellKeyed_fill, wellKeyed_nil.
  - reflexivity.
  - intros Hnd. unfold Index.GetAllServices, Count, values. cbn [services].
    rewrite fill_distinct by (trivial; intros s _ []).
    simpl. rewrite map_map. simpl. rewrite map_id, length_map. split; reflexivity.
Qed.

(** ** The garbage collector *)

Lemma delete_keep (V : Type) (k : list ascii) (m : gomap V) :
  delete k m = keep (fun k' => negb (eqs k k')) m.
Proof.
  unfold keep. induction m as [|[k' v] m IH]; simpl; [reflexivity|].
  destruct (eqs k k'); simpl; rewrite IH; reflexivity.
Qed.

Lemma filter_filter (A : Type) (f g : A -> bool) (l : list A) :
  filter f (filter g l) = filter (fun x => g x && f x) l.
Proof.
  induction l as [|a l IH]; simpl; [reflexivity|].
  destruct (g a); simpl; [destruct (f a)|]; rewrite IH; reflexivity.
Qed.

Lemma keep_keep (V : Type) (f g : list ascii -> bool) (m : gomap V) :
  keep f (keep g m) = keep (fun k => g k && f k) m.
Proof. unfold keep. apply filter_filter. Qed.

Lemma keep_ext (V : Type) (f g : list ascii -> bool) (m : gomap V) :
  (forall k, f k = g k) -> keep f m = keep g m.
Proof. intros H. unfold keep. apply filter_ext. intros p. apply H. Qed.

Lemma keep_all (V : Type) (f : list ascii -> bool) (m : gomap V) :
  (forall k, In k (map fst m) -> f k = true) -> keep f m = m.
Proof.
  unfold keep. induction m as [|[k v] m IH]; simpl; intros H; [reflexivity|].
  rewrite (H k) by (left; reflexivity). rewrite IH; [reflexivity|].
  intros k' Hk'. apply H. right. exact Hk'.
Qed.

Lemma filter_all (A : Type) (f : A -> bool) (l : list A) :
  (forall a, In a l -> f a = true) -> filter f l = l.
Proof.
  induction l as [|a l IH]; simpl; intros H; [reflexivity|].
  rewrite (H a) by (left; reflexivity). rewrite IH; [reflexivity|].
  intros a' Ha'. apply H. right. exact Ha'.
Qed.

Lemma collectService_step (now threshold : Z) (n : nat) (w : World) (s : Service) :
  collectService now threshold (n, w) s
  = if collectable now threshold s
    then (S n, sweep (eqs (ID s)) w)
    else (n, w).
Proof.
  unfold collectService, collectable, sweep.
  destruct (Disabled s); [|reflexivity]. cbn [negb andb].
  destruct (IsZero (UpdatedAt s)); [reflexivity|]. cbn [negb andb].
  destruct (Sub now (UpdatedAt s) <? threshold); [reflexivity|]. cbn [negb].
  f_equal. f_equal.
  - unfold Index.DeleteService, withServices. rewrite delete_keep. reflexivity.
  - unfold RedisStore.DeleteService, srem.
    destruct (reachable (store w)) eqn:Hr; cbn [bestEffort]; [|reflexivity].
    rewrite delete_keep. reflexivity.
Qed.

Lemma sweep_sweep (f g : list ascii -> bool) (w : World) :
  sweep f (sweep g w) = sweep (fun k => g k || f k) w.
Proof.
  unfold sweep. cbn [memIndex store services bookmarks lastReload lastBookmarkReload].
  f_equal.
  - f_equal. rewrite keep_keep. apply keep_ext. intros k.
    destruct (g k), (f k); reflexivity.
  - destruct (reachable (store w)) eqn:Hr;
      cbn [reachable cacheKeys serviceKeys allServices bookmarkKeys allBookmarks].
    + f_equal.
      * rewrite keep_keep. apply keep_ext. intros k.
        destruct (g k), (f k); reflexivity.
      * rewrite filter_filter. apply filter_ext. intros k.
        destruct (g k), (f k); reflexivity.
    + rewrite Hr. reflexivity.
Qed.

Lemma sweep_ext (f g : list ascii -> bool) (w : World) :
  (forall k, f k = g k) -> sweep f w = sweep g w.
Proof.
  intros H. unfold sweep. f_equal.
  - f_equal. apply keep_ext. intros k. rewrite H. reflexivity.
  - destruct (reachable (store w)); [|reflexivity]. f_equal.
    + apply keep_ext. intros k. rewrite H. reflexivity.
    + apply filter_ext. intros k. rewrite H. reflexivity.
Qed.

Lemma sweep_nothing (w : World) : sweep (fun _ => false) w = w.
Proof.
  unfold sweep. destruct w as [[sv bm lr lbr] [r ck sk al bk ab]].
  cbn [memIndex store services bookmarks lastReload lastBookmarkReload reachable
       cacheKeys serviceKeys allServices bookmarkKeys allBookmarks negb].
  rewrite (keep_all _ _ sv) by reflexivity.
  destruct r; [|reflexivity].
  rewrite (keep_all _ _ sk), (filter_all _ _ al) by reflexivity. reflexivity.
Qed.

Lemma collectServices_fold (now threshold : Z) (l : list Service) :
  forall n w,
    fold_left (collectService now threshold) l (n, w)
    = ((n + length (filter (collectable now threshold) l))%nat,
       sweep (collected now threshold l) w).
Proof.
  induction l as [|s l IH]; intros n w.
  - simpl. rewrite Nat.add_0_r. unfold collected. simpl.
    rewrite sweep_nothing. reflexivity.
  - cbn [fold_left]. rewrite collectService_step.
    destruct (collectable now threshold s) eqn:E.
    + rewrite IH, sweep_sweep. cbn [filter]. rewrite E. cbn [length].
      f_equal; [lia|]. apply sweep_ext. intros k. unfold collected. cbn [existsb].
      rewrite E. reflexivity.
    + rewrite IH. cbn [filter]. rewrite E.
      f_equal. apply sweep_ext. intros k. unfold collected. cbn [existsb].
      rewrite E. reflexivity.
Qed.

(** collectServices is one sweep: it returns the number of soft-deleted
    services of the snapshot whose updated_at is set and at least the
    threshold old, and removes exactly the entries with the ID of such a
    service from the index and, when the store can be reached, from the
    store (records and id set); bookmarks, cache and the reload times are
    untouched, and with an unreachable store only the index shrinks. *)
Theorem collectServices_sweeps (now threshold : Z) (w : World) :
  let snapshot := Index.GetAllServices (memIndex w) in
  collectServices now threshold w
  = (length (filter (collectable now threshold) snapshot),
     sweep (collected now threshold snapshot) w).
Proof. cbv zeta. unfold collectServices. apply collectServices_fold. Qed.

Lemma collectBookmark_step (now threshold : Z) (n : nat) (w : World) (b : Bookmark) :
  collectBookmark now threshold (n, w) b
  = if collectableBookmark now threshold b
    then (S n, sweepBookmarks (eqs (BID b)) w)
    else (n, w).
Proof.
  unfold collectBookmark, collectableBookmark, sweepBookmarks.
  destruct (BDisabled b); [|reflexivity]. cbn [negb andb].
  destruct (IsZero (BUpdatedAt b)); [reflexivity|]. cbn [negb andb].
  destruct (Sub now (BUpdatedAt b) <? threshold); [reflexivity|]. cbn [negb].
  f_equal. f_equal.
  - unfold Index.DeleteBookmark, withBookmarks. rewrite delete_keep. reflexivity.
  - unfold RedisStore.DeleteBookmark, srem.
    destruct (reachable (store w)) eqn:Hr; cbn [bestEffort]; [|reflexivity].
    rewrite delete_keep. reflexivity.
Qed.

Lemma sweepBookmarks_twice (f g : list ascii -> bool) (w : World) :
  sweepBookmarks f (sweepBookmarks g w) = sweepBookmarks (fun k => g k || f k) w.
Proof.
  unfold sweepBookmarks.
  cbn [memIndex store services bookmarks lastReload lastBookmarkReload].
  f_equal.
  - f_equal. rewrite keep_keep. apply keep_ext. intros k.
    destruct (g k), (f k); reflexivity.
  - destruct (reachable (store w)) eqn:Hr;
      cbn [reachable cacheKeys serviceKeys allServices bookmarkKeys allBookmarks].
    + f_equal.
      * rewrite keep_keep. apply keep_ext. intros k.
        destruct (g k), (f k); reflexivity.
      * rewrite filter_filter. apply filter_ext. intros k.
        destruct (g k), (f k); reflexivity.
    + rewrite Hr. reflexivity.
Qed.

Lemma sweepBookmarks_ext (f g : list ascii -> bool) (w : World) :
  (forall k, f k = g k) -> sweepBookmarks f w = sweepBookmarks g w.
Proof.
  intros H. unfold sweepBookmarks. f_equal.
  - f_equal. apply keep_ext. intros k. rewrite H. reflexivity.
  - destruct (reachable (store w)); [|reflexivity]. f_equal.
    + apply keep_ext. intros k. rewrite H. reflexivity.
    + apply filter_ext. intros k. rewrite H. reflexivity.
Qed.

Lemma sweepBookmarks_nothing (w : World) : sweepBookmarks (fun _ => false) w = w.
Proof.
  unfold sweepBookmarks. destruct w as [[sv bm lr lbr] [r ck sk al bk ab]].
  cbn [memIndex store services bookmarks lastReload lastBookmarkReload reachable
       cacheKeys serviceKeys allServices bookmarkKeys allBookmarks negb].
  rewrite (keep_all _ _ bm) by reflexivity.
  destruct r; [|reflexivity].
  rewrite (keep_all _ _ bk), (filter_all _ _ ab) by reflexivity. reflexivity.
Qed.

Lemma collectBookmarks_fold (now threshold : Z) (l : list Bookmark) :
  forall n w,
    fold_left (collectBookmark now threshold) l (n, w)
    = ((n + length (filter (collectableBookmark now threshold) l))%nat,
       sweepBookmarks (collectedBookmark now threshold l) w).
Proof.
  induction l as [|b l IH]; intros n w.
  - simpl. rewrite Nat.add_0_r. unfold collectedBookmark. simpl.
    rewrite sweepBookmarks_nothing. reflexivity.
  - cbn [fold_left]. rewrite collectBookmark_step.
    destruct (collectableBookmark now threshold b) eqn:E.
    + rewrite IH, sweepBookmarks_twice. cbn [filter]. rewrite E. cbn [length].
      f_equal; [lia|]. apply sweepBookmarks_ext. intros k.
      unfold collectedBookmark. cbn [existsb]. rewrite E. reflexivity.
    + rewrite IH. cbn [filter]. rewrite E.
      f_equal. apply sweepBookmarks_ext. intros k.
      unfold collectedBookmark. cbn [existsb]. rewrite E. reflexivity.
Qed.

Lemma Collect_sweeps (now threshold : Z) (w : World) :
  Collect now threshold w
  = sweepBookmarks
      (collectedBookmark now threshold (Index.GetAllBookmarks (memIndex w)))
      (sweep (collected now threshold (Index.GetAllServices (memIndex w))) w).
Proof.
  unfold Collect, collectServices, collectBookmarks.
  rewrite collectServices_fold, collectBookmarks_fold. reflexivity.
Qed.

Lemma collected_wellKeyed (now threshold : Z) (m : gomap Service)
      (k : list ascii) (e : Service) :
  wellKeyed m -> In (k, e) m ->
  collected now threshold (values m) k = collectable now threshold e.
Proof.
  intros [Hnd Hk] Hin. unfold collected.
  destruct (collectable now threshold e) eqn:E.
  - apply existsb_exists. exists e. split.
    + unfold values. apply (in_map snd) in Hin. exact Hin.
    + rewrite E, (Hk _ _ Hin), eqs_refl. reflexivity.
  - destruct (existsb _ (values m)) eqn:Ex; [|reflexivity].
    apply existsb_exists in Ex. destruct Ex as (s & Hs & Hc).
    apply andb_prop in Hc. destruct Hc as [Hc Hid].
    apply eqs_true_iff in Hid. unfold values in Hs. apply in_map_iff in Hs.
    destruct Hs as ([k' s'] & Es & Hs). simpl in Es. subst s'.
    pose proof (Hk _ _ Hs) as Hks. rewrite Hid in Hks. subst k'.
    pose proof (In_get _ _ _ _ Hnd Hs) as G1.
    pose proof (In_get _ _ _ _ Hnd Hin) as G2.
    rewrite G1 in G2. injection G2 as ->. congruence.
Qed.

Lemma collectedBookmark_wellKeyed (now threshold : Z) (m : gomap Bookmark)
      (k : list ascii) (e : Bookmark) :
  wellKeyedBookmarks m -> In (k, e) m ->
  collectedBookmark now threshold (values m) k = collectableBookmark now threshold e.
Proof.
  intros [Hnd Hk] Hin. unfold collectedBookmark.
  destruct (collectableBookmark now threshold e) eqn:E.
  - apply existsb_exists. exists e. split.
    + unfold values. apply (in_map snd) in Hin. exact Hin.
    + rewrite E, (Hk _ _ Hin), eqs_refl. reflexivity.
  - destruct (existsb _ (values m)) eqn:Ex; [|reflexivity].
    apply existsb_exists in Ex. destruct Ex as (s & Hs & Hc).
    apply andb_prop in Hc. destruct Hc as [Hc Hid].
    apply eqs_true_iff in Hid. unfold values in Hs. apply in_map_iff in Hs.
    destruct Hs as ([k' s'] & Es & Hs). simpl in Es. subst s'.
    pose proof (Hk _ _ Hs) as Hks. rewrite Hid in Hks. subst k'.
    pose proof (In_get _ _ _ _ Hnd Hs) as G1.
    pose proof (In_get _ _ _ _ Hnd Hin) as G2.
    rewrite G1 in G2. injection G2 as ->. congruence.
Qed.

Lemma values_filter (V : Type) (f : V -> bool) (m : gomap V) :
  values (filter (fun p => f (snd p)) m) = filter f (values m).
Proof.
  unfold values. induction m as [|[k v] m IH]; simpl; [reflexivity|].
  destruct (f v); simpl; rewrite IH; reflexivity.
Qed.

Lemma keep_collected (now threshold : Z) (m : gomap Service) :
  wellKeyed m ->
  keep (fun k => negb (collected now threshold (values m) k)) m
  = filter (fun p => negb (collectable now threshold (snd p))) m.
Proof.
  intros Hwk. unfold keep. apply filter_ext_in. intros [k e] Hin.
  cbn [fst snd]. rewrite (collected_wellKeyed now threshold m k e Hwk Hin).
  reflexivity.
Qed.

Lemma keep_collectedBookmark (now threshold : Z) (m : gomap Bookmark) :
  wellKeyedBookmarks m ->
  keep (fun k => negb (collectedBookmark now threshold (values m) k)) m
  = filter (fun p => negb (collectableBookmark now threshold (snd p))) m.
Proof.
  intros Hwk. unfold keep. apply filter_ext_in. intros [k e] Hin.
  cbn [fst snd]. rewrite (collectedBookmark_wellKeyed now threshold m k e Hwk Hin).
  reflexivity.
Qed.

Lemma Collect_GetAllServices (now threshold : Z) (w : World) :
  wellKeyed (services (memIndex w)) ->
  Index.GetAllServices (memIndex (Collect now threshold w))
  = filter (fun s => negb (collectable now threshold s))
           (Index.GetAllServices (memIndex w)).
Proof.
  intros Hwk. rewrite Collect_sweeps. unfold sweepBookmarks, sweep.
  cbn [memIndex services]. unfold Index.GetAllServices. cbn [services].
  rewrite keep_collected by exact Hwk.
  apply (values_filter Service (fun s => negb (collectable now threshold s))).
Qed.

Lemma Collect_GetAllBookmarks (now threshold : Z) (w : World) :
  wellKeyedBookmarks (bookmarks (memIndex w)) ->
  Index.GetAllBookmarks (memIndex (Collect now threshold w))
  = filter (fun b => negb (collectableBookmark now threshold b))
           (Index.GetAllBookmarks (memIndex w)).
Proof.
  intros Hwk. rewrite Collect_sweeps. unfold sweepBookmarks, sweep.
  cbn [memIndex bookmarks]. unfold Index.GetAllBookmarks. cbn [bookmarks].
  rewrite keep_collectedBookmark by exact Hwk.
  apply (values_filter Bookmark (fun b => negb (collectableBookmark now threshold b))).
Qed.

(** X16.  On an index whose map is keyed by the IDs, a collection pass
    removes exactly the services that are soft-deleted with an updated_at
    that is set and at least the threshold old: the services left are the
    others, in particular every enabled service and every service whose
    updated_at is the zero time. *)
Theorem Collect_removes_exactly (now threshold : Z) (w : World) :
  wellKeyed (services (memIndex w)) ->
  Index.GetAllServices (memIndex (Collect now threshold w))
  = filter (fun s => negb (Disabled s && negb (IsZero (UpdatedAt s))
                           && negb (Sub now (UpdatedAt s) <? threshold)))
           (Index.GetAllServices (memIndex w))
  /\ wellKeyed (services (memIndex (Collect now threshold w))).
Proof.
  intros Hwk. split; [apply (Collect_GetAllServices now threshold w Hwk)|].
  rewrite Collect_sweeps. unfold sweepBookmarks, sweep.
  cbn [memIndex services]. unfold Index.GetAllServices.
  rewrite keep_collected by exact Hwk.
  destruct Hwk as [Hnd Hk]. split.
  - clear Hk. induction (services (memIndex w)) as [|[k e] m IH]; [constructor|].
    inversion Hnd as [|? ? Hout Hnd']; subst. cbn [filter snd].
    destruct (negb (collectable now threshold e)); [|apply IH; exact Hnd'].
    cbn [map fst]. constructor; [|apply IH; exact Hnd'].
    intros Hin. apply Hout. apply in_map_iff in Hin.
    destruct Hin as (p & Ep & Hp). apply filter_In in Hp.
    rewrite <- Ep. apply in_map. apply Hp.
  - intros k e Hin. apply filter_In in Hin. apply Hk. apply Hin.
Qed.

Lemma Collect_removes_exactly_witness :
  map ID (Index.GetAllServices
            (memIndex (Collect (40 * Day) DefaultGCThreshold
                         (mkWorld (indexOf [jellyfin; markDisabled Day jellyseerr] [])
                                  emptyStore))))
  = [str "jellyfin.example.com"].
Proof.
  destruct (Collect_removes_exactly (40 * Day) DefaultGCThreshold
              (mkWorld (indexOf [jellyfin; markDisabled Day jellyseerr] []) emptyStore))
    as [H _].
  - unfold indexOf, UpdateBookmarks, UpdateServices. cbn [memIndex services].
    apply wellKeyed_fill, wellKeyed_nil.
  - rewrite H. vm_compute. reflexivity.
Defined.

Lemma collected_none (now threshold : Z) (l : list Service) (k : list ascii) :
  collected now threshold (filter (fun s => negb (collectable now threshold s)) l) k
  = false.
Proof.
  unfold collected. induction l as [|s l IH]; [reflexivity|].
  cbn [filter]. destruct (collectable now threshold s) eqn:E; cbn [negb]; [exact IH|].
  cbn [existsb]. rewrite E, IH. reflexivity.
Qed.

Lemma collectedBookmark_none (now threshold : Z) (l : list Bookmark) (k : list ascii) :
  collectedBookmark now threshold
    (filter (fun b => negb (collectableBookmark now threshold b)) l) k
  = false.
Proof.
  unfold collectedBookmark. induction l as [|b l IH]; [reflexivity|].
  cbn [filter]. destruct (collectableBookmark now threshold b) eqn:E; cbn [negb];
    [exact IH|].
  cbn [existsb]. rewrite E, IH. reflexivity.
Qed.

(** X17.  The collector is idempotent: on an index whose maps are keyed by
    the IDs, a second collection pass at the same instant deletes nothing,
    neither from the index nor from the store. *)
Theorem Collect_idempotent (now threshold : Z) (w : World) :
  wellKeyed (services (memIndex w)) ->
  wellKeyedBookmarks (bookmarks (memIndex w)) ->
  Collect now threshold (Collect now threshold w) = Collect now threshold w.
Proof.
  intros Hs Hb.
  rewrite (Collect_sweeps now threshold (Collect now threshold w)).
  rewrite (Collect_GetAllServices now threshold w Hs).
  rewrite (Collect_GetAllBookmarks now threshold w Hb).
  rewrite (sweep_ext _ (fun _ => false)) by (intros k; apply collected_none).
  rewrite sweep_nothing.
  rewrite (sweepBookmarks_ext _ (fun _ => false))
    by (intros k; apply collectedBookmark_none).
  apply sweepBookmarks_nothing.
Qed.

Lemma Collect_idempotent_witness :
  Collect (40 * Day) DefaultGCThreshold
    (Collect (40 * Day) DefaultGCThreshold
       (mkWorld (indexOf [jellyfin; markDisabled Day jellyseerr] [chatgpt]) emptyStore))
  = Collect (40 * Day) DefaultGCThreshold
      (mkWorld (indexOf [jellyfin; markDisabled Day jellyseerr] [chatgpt]) emptyStore).
Proof.
  apply Collect_idempotent.
  - unfold indexOf, UpdateBookmarks, UpdateServices. cbn [memIndex services].
    apply wellKeyed_fill, wellKeyed_nil.
  - split.
    + vm_compute. repeat constructor. intros [].
    + intros k b Hin. vm_compute in Hin. destruct Hin as [E|[]].
      injection E as <- <-. reflexivity.
Defined.

(** ** The catalog mapper and the reload pass *)

Lemma MapServices_flat (urlHostname : list ascii -> option (list ascii)) (now : Z)
      (config : ServicesConfig) :
  flat_map (fun groupMap =>
    flat_map (fun group =>
      flat_map (fun serviceMap =>
        flat_map (fun entry => mapOne urlHostname now (snd entry)) serviceMap)
      (snd group))
    groupMap)
  config
  = flat_map (mapOne urlHostname now) (allProps config).
Proof.
  unfold allProps.
  induction config as [|groupMap config IH]; simpl; [reflexivity|].
  rewrite IH, flat_map_app. f_equal.
  induction groupMap as [|group groupMap IHg]; simpl; [reflexivity|].
  rewrite IHg, flat_map_app. f_equal.
  induction (snd group) as [|serviceMap l IHl]; simpl; [reflexivity|].
  rewrite IHl, flat_map_app. f_equal.
  induction serviceMap as [|entry serviceMap IHs]; simpl; [reflexivity|].
  rewrite IHs. reflexivity.
Qed.

Lemma mapOne_cases (urlHostname : list ascii -> option (list ascii)) (now : Z)
      (props : ServiceProps) :
  (mapOne urlHostname now props = []
   /\ (Href props = [] \/ urlHostname (Href props) = None
       \/ urlHostname (Href props) = Some []))
  \/ (exists hostname,
        Href props <> [] /\ urlHostname (Href props) = Some hostname
        /\ hostname <> []
        /\ mapOne urlHostname now props
           = [mkService hostname hostname (extractServiceName hostname) [homepage]
                        now 0 0 0 0 false]).
Proof.
  unfold mapOne. destruct (Href props) as [|c href] eqn:Eh; simpl.
  - left. split; [reflexivity|left; reflexivity].
  - destruct (urlHostname (c :: href)) as [[|a hostname]|] eqn:Eu; simpl.
    + left. split; [reflexivity|right; right; reflexivity].
    + right. exists (a :: hostname). repeat split; discriminate.
    + left. split; [reflexivity|right; left; reflexivity].
Qed.

Lemma beforeFirst_prefix (sep : ascii) (s : list ascii) :
  ~ In sep (beforeFirst sep s)
  /\ exists rest, s = beforeFirst sep s ++ rest /\ (rest = [] \/ hd sep rest = sep).
Proof.
  induction s as [|c t [IH1 (rest & IH2 & IH3)]]; simpl.
  - split; [intros []|]. exists []. split; [reflexivity|left; reflexivity].
  - destruct (Ascii.eqb c sep) eqn:E.
    + apply Ascii.eqb_eq in E. subst c. split; [intros []|].
      exists (sep :: t). split; [reflexivity|right; reflexivity].
    + split.
      * intros [H|H]; [subst c; rewrite Ascii.eqb_refl in E; discriminate|].
        apply IH1. exact H.
      * exists rest. split; [simpl; rewrite <- IH2; reflexivity|exact IH3].
Qed.

Lemma extractServiceName_beforeFirst (hostname : list ascii) :
  extractServiceName hostname = beforeFirst dot hostname.
Proof.
  unfold extractServiceName. rewrite <- Split_hd.
  destruct (Split hostname dot) eqn:E; [|reflexivity].
  exfalso. revert E. apply Split_nonempty.
Qed.

(** X18.  MapServices fails exactly when no entry of the catalog has a
    usable href (non-empty, parsed, with a non-empty hostname).  Otherwise
    every service it returns comes from such an entry: ID and Hostname are
    the hostname of the href, Name is the part of the hostname before its
    first dot, the only source is the catalog, the counter is 0, the
    service is enabled and last seen now; and every usable entry gives a
    service. *)
Theorem MapServices_entries (urlHostname : list ascii -> option (list ascii)) (now : Z)
        (config : ServicesConfig) :
  match MapServices urlHostname now config with
  | None =>
      forall props, In props (allProps config) ->
        Href props = [] \/ urlHostname (Href props) = None
        \/ urlHostname (Href props) = Some []
  | Some l =>
      l <> []
      /\ (forall s, In s l ->
            exists props,
              In props (allProps config) /\ Href props <> []
              /\ urlHostname (Href props) = Some (Hostname s)
              /\ Hostname s <> [] /\ ID s = Hostname s
              /\ ~ In dot (Name s)
              /\ (exists rest, Hostname s = Name s ++ rest
                               /\ (rest = [] \/ hd dot rest = dot))
              /\ Sources s = [homepage] /\ Counter s = 0 /\ Disabled s = false
              /\ LastSeenAt s = now /\ UpdatedAt s = 0)
      /\ (forall props hostname,
            In props (allProps config) -> Href props <> [] ->
            urlHostname (Href props) = Some hostname -> hostname <> [] ->
            exists s, In s l /\ Hostname s = hostname)
  end.
Proof.
  unfold MapServices. cbv zeta. rewrite MapServices_flat.
  destruct (length (flat_map (mapOne urlHostname now) (allProps config)) =? 0)%nat
    eqn:El.
  - apply Nat.eqb_eq in El. apply length_zero_iff_nil in El.
    intros props Hp.
    destruct (mapOne_cases urlHostname now props)
      as [[_ H]|(hostname & _ & _ & _ & Hm)]; [exact H|].
    exfalso. assert (Hin : In (mkService hostname hostname
                                 (extractServiceName hostname) [homepage]
                                 now 0 0 0 0 false)
                              (flat_map (mapOne urlHostname now) (allProps config))).
    { apply in_flat_map. exists props. split; [exact Hp|].
      rewrite Hm. left. reflexivity. }
    rewrite El in Hin. destruct Hin.
  - apply Nat.eqb_neq in El. split; [|split].
    + intros E. apply El. rewrite E. reflexivity.
    + intros s Hs. apply in_flat_map in Hs. destruct Hs as (props & Hp & Hs).
      destruct (mapOne_cases urlHostname now props)
        as [[Hm _]|(hostname & Hh & Hu & Hne & Hm)]; rewrite Hm in Hs;
        [destruct Hs|].
      destruct Hs as [<-|[]]. exists props. cbn.
      rewrite extractServiceName_beforeFirst.
      destruct (beforeFirst_prefix dot hostname) as [Hnd Hrest].
      repeat split; try assumption; reflexivity.
    + intros props hostname Hp Hh Hu Hne.
      exists (mkService hostname hostname (extractServiceName hostname) [homepage]
                        now 0 0 0 0 false).
      split; [|reflexivity]. apply in_flat_map. exists props. split; [exact Hp|].
      destruct (mapOne_cases urlHostname now props)
        as [[_ [H|[H|H]]]|(h & _ & Hu' & _ & Hm)]; try congruence.
      rewrite Hm. left. congruence.
Qed.

Lemma MapServices_None (urlHostname : list ascii -> option (list ascii)) (now : Z)
      (config : ServicesConfig) :
  MapServices urlHostname now config = None
  <-> forall props, In props (allProps config) ->
        Href props = [] \/ urlHostname (Href props) = None
        \/ urlHostname (Href props) = Some [].
Proof.
  unfold MapServices. cbv zeta. rewrite MapServices_flat.
  destruct (length (flat_map (mapOne urlHostname now) (allProps config)) =? 0)%nat
    eqn:El.
  - apply Nat.eqb_eq in El. apply length_zero_iff_nil in El.
    split; [|reflexivity]. intros _ props Hp.
    destruct (mapOne_cases urlHostname now props)
      as [[_ H]|(hostname & _ & _ & _ & Hm)]; [exact H|].
    exfalso.
    assert (Hin : In (mkService hostname hostname (extractServiceName hostname)
                                [homepage] now 0 0 0 0 false)
                     (flat_map (mapOne urlHostname now) (allProps config))).
    { apply in_flat_map. exists props. split; [exact Hp|].
      rewrite Hm. left. reflexivity. }
    rewrite El in Hin. destruct Hin.
  - apply Nat.eqb_neq in El. split; [discriminate|].
    intros H. exfalso. apply El.
    assert (E : forall l,
               (forall props, In props l ->
                  Href props = [] \/ urlHostname (Href props) = None
                  \/ urlHostname (Href props) = Some []) ->
               flat_map (mapOne urlHostname now) l = []).
    { clear. induction l as [|props l IH]; intros H; [reflexivity|]. simpl.
      rewrite IH by (intros p Hp; apply H; right; exact Hp).
      destruct (mapOne_cases urlHostname now props)
        as [[Hm _]|(hostname & Hh & Hu & Hne & _)];
        [rewrite Hm; reflexivity|].
      exfalso. destruct (H props (or_introl eq_refl)) as [E|[E|E]]; congruence. }
    rewrite (E _ H). reflexivity.
Qed.

(** X19.  A reload pass fails exactly when the catalog cannot be loaded or
    none of its entries has a usable href, and a failed pass changes
    neither the index nor the store. *)
Theorem Reload_fails_safely (urlHostname : list ascii -> option (list ascii)) (now : Z)
        (loaded : option ServicesConfig) (w : World) :
  (fst (Scheduler.Reload urlHostname now loaded w) = false
   <-> loaded = None
       \/ exists config,
            loaded = Some config
            /\ forall props, In props (allProps config) ->
                 Href props = [] \/ urlHostname (Href props) = None
                 \/ urlHostname (Href props) = Some [])
  /\ (fst (Scheduler.Reload urlHostname now loaded w) = false ->
      snd (Scheduler.Reload urlHostname now loaded w) = w).
Proof.
  unfold Scheduler.Reload. destruct loaded as [config|].
  - destruct (MapServices urlHostname now config) as [l|] eqn:Em; cbn [fst snd].
    + split; [|discriminate]. split; [discriminate|].
      intros [H|(config' & E & H)]; [discriminate|].
      injection E as <-.
      apply (proj2 (MapServices_None urlHostname now config)) in H. congruence.
    + split; [|reflexivity]. split; [|reflexivity].
      intros _. right. exists config. split; [reflexivity|].
      apply (proj1 (MapServices_None urlHostname now config)). exact Em.
  - cbn [fst snd]. split; [|reflexivity]. split; [|reflexivity].
    intros _. left. reflexivity.
Qed.

(** X20.  A successful reload pass drops from the index every service that
    is neither in the catalog nor marked as coming from it: the index is
    rebuilt from the catalog and the catalog's former entries only. *)
Theorem Reload_drops_foreign (urlHostname : list ascii -> option (list ascii)) (now : Z)
        (config : ServicesConfig) (l : list Service) (w : World) (id : list ascii) :
  MapServices urlHostname now config = Some l ->
  ~ In id (map ID l) ->
  (forall e, In e (Index.GetAllServices (memIndex w)) -> ID e = id ->
             existsb (fun source => eqs source homepage) (Sources e) = false) ->
  Index.GetService id (memIndex (snd (Scheduler.Reload urlHostname now (Some config) w))) = None.
Proof.
  intros Hmap Hnew Hforeign. unfold Scheduler.Reload, Index.GetService. rewrite Hmap.
  cbn [snd memIndex UpdateServices services].
  apply get_fill_none; [|reflexivity].
  intros s Hs Hid. apply in_app_or in Hs. destruct Hs as [Hs|Hs].
  - apply Hnew. rewrite <- Hid. apply in_map. exact Hs.
  - apply in_map_iff in Hs. destruct Hs as (e & <- & He).
    apply filter_In in He. destruct He as [He _].
    unfold getHomepageServices in He. apply filter_In in He.
    destruct He as [He Hsrc]. cbn [markDisabled ID] in Hid.
    rewrite (Hforeign e He Hid) in Hsrc. discriminate.
Qed.

Lemma Reload_drops_foreign_witness :
  Index.GetService (str "nas.example.com")
    (memIndex
       (snd (Scheduler.Reload simpleURLHostname start (Some shrunkCatalog)
               (mkWorld
                  (indexOf [jellyfin;
                            mkService (str "nas.example.com") (str "nas.example.com")
                                      (str "nas") [str "manual"] 0 5 0 0 0 false]
                           [])
                  emptyStore))))
  = None.
Proof.
  eapply (Reload_drops_foreign simpleURLHostname start shrunkCatalog).
  - vm_compute. reflexivity.
  - vm_compute. intros [H|[H|[]]]; discriminate.
  - intros e He Hid. vm_compute in He. destruct He as [<-|[<-|[]]].
    + vm_compute in Hid. discriminate.
    + vm_compute. reflexivity.
Defined.

Lemma keys_put_incl (V : Type) (k id : list ascii) (v : V) (m : gomap V) :
  In id (map fst m) -> In id (map fst (put k v m)).
Proof.
  intros H. destruct (in_dec (list_eq_dec ascii_dec) k (map fst m)) as [Hin|Hout].
  - rewrite keys_put by exact Hin. exact H.
  - rewrite keys_put_new by exact Hout. apply in_or_app. left. exact H.
Qed.

Lemma keys_put_self (V : Type) (k : list ascii) (v : V) (m : gomap V) :
  In k (map fst (put k v m)).
Proof.
  destruct (in_dec (list_eq_dec ascii_dec) k (map fst m)) as [Hin|Hout].
  - rewrite keys_put by exact Hin. exact Hin.
  - rewrite keys_put_new by exact Hout. apply in_or_app. right. left. reflexivity.
Qed.

Lemma keys_put_inv (V : Type) (k id : list ascii) (v : V) (m : gomap V) :
  In id (map fst (put k v m)) -> id = k \/ In id (map fst m).
Proof.
  destruct (in_dec (list_eq_dec ascii_dec) k (map fst m)) as [Hin|Hout].
  - rewrite keys_put by exact Hin. intros H. right. exact H.
  - rewrite keys_put_new by exact Hout. intros H. apply in_app_or in H.
    destruct H as [H|[H|[]]]; [right; exact H|left; symmetry; exact H].
Qed.

Lemma sadd_incl (k id : list ascii) (set : list (list ascii)) :
  In id set -> In id (sadd k set).
Proof.
  intros H. unfold sadd. destruct (existsb (eqs k) set); [exact H|].
  apply in_or_app. left. exact H.
Qed.

Lemma sadd_self (k : list ascii) (set : list (list ascii)) : In k (sadd k set).
Proof.
  unfold sadd. destruct (existsb (eqs k) set) eqn:E.
  - apply existsb_exists in E. destruct E as (x & Hx & E).
    apply eqs_true_iff in E. subst x. exact Hx.
  - apply in_or_app. right. left. reflexivity.
Qed.

(* the store after the pipeline of SaveServicesMany, field by field *)
Lemma saveMany_fields (l : list Service) :
  forall st,
    fold_left
      (fun st service =>
         mkStore (reachable st) (cacheKeys st)
                 (put (ID service) service (serviceKeys st))
                 (sadd (ID service) (allServices st))
                 (bookmarkKeys st) (allBookmarks st))
      l st
    = mkStore (reachable st) (cacheKeys st)
              (fold_left (fun m service => put (ID service) service m) l
                         (serviceKeys st))
              (fold_left (fun set service => sadd (ID service) set) l (allServices st))
              (bookmarkKeys st) (allBookmarks st).
Proof.
  induction l as [|s l IH]; intros st; simpl; [destruct st; reflexivity|].
  rewrite IH. reflexivity.
Qed.

Lemma fill_keys_incl (l : list Service) :
  forall m id,
    In id (map fst m) ->
    In id (map fst (fold_left (fun m service => put (ID service) service m) l m)).
Proof.
  induction l as [|s l IH]; intros m id H; simpl; [exact H|].
  apply IH. apply keys_put_incl. exact H.
Qed.

Lemma saddAll_incl (l : list Service) :
  forall set id,
    In id set -> In id (fold_left (fun set service => sadd (ID service) set) l set).
Proof.
  induction l as [|s l IH]; intros set id H; simpl; [exact H|].
  apply IH. apply sadd_incl. exact H.
Qed.

Lemma saddAll_ids (l : list Service) :
  forall set id,
    In id (map ID l) ->
    In id (fold_left (fun set service => sadd (ID service) set) l set).
Proof.
  induction l as [|s l IH]; intros set id H; simpl; [destruct H|].
  destruct H as [<-|H]; [|apply IH; exact H].
  apply saddAll_incl. apply sadd_self.
Qed.

Lemma fill_source (id : list ascii) (e : Service) (l : list Service) :
  forall m,
    get id (fold_left (fun m service => put (ID service) service m) l m) = Some e ->
    get id m = Some e \/ (In e l /\ ID e = id).
Proof.
  induction l as [|s l IH]; intros m H; simpl in H; [left; exact H|].
  destruct (IH _ H) as [H'|[H1 H2]].
  - rewrite get_put in H'. destruct (eqs id (ID s)) eqn:E.
    + apply eqs_true_iff in E. injection H' as <-. right.
      split; [left; reflexivity|symmetry; exact E].
    + left. exact H'.
  - right. split; [right; exact H1|exact H2].
Qed.

Lemma fill_agree (id : list ascii) (l : list Service) :
  forall m1 m2,
    In id (map ID l) ->
    get id (fold_left (fun m service => put (ID service) service m) l m1)
    = get id (fold_left (fun m service => put (ID service) service m) l m2).
Proof.
  assert (Hsame : forall l m1 m2,
             get id m1 = get id m2 ->
             get id (fold_left (fun m service => put (ID service) service m) l m1)
             = get id (fold_left (fun m service => put (ID service) service m) l m2)).
  { clear. induction l as [|s l IH]; intros m1 m2 H; simpl; [exact H|].
    apply IH. rewrite !get_put. destruct (eqs id (ID s)); [reflexivity|exact H]. }
  induction l as [|s l IH]; intros m1 m2 H; simpl; [destruct H|].
  destruct H as [H|H].
  - apply Hsame. rewrite !get_put, <- H, eqs_refl. reflexivity.
  - apply IH. exact H.
Qed.

(** X21.  A reload pass touches services only: the bookmarks of the index,
    the resolution cache and the bookmark records of the store are as
    before, and no service record or id is removed from the store (a
    service that left the catalog is soft-deleted, never deleted, here). *)
Theorem Reload_preserves (urlHostname : list ascii -> option (list ascii)) (now : Z)
        (loaded : option ServicesConfig) (w : World) :
  let w' := snd (Scheduler.Reload urlHostname now loaded w) in
  bookmarks (memIndex w') = bookmarks (memIndex w)
  /\ lastBookmarkReload (memIndex w') = lastBookmarkReload (memIndex w)
  /\ reachable (store w') = reachable (store w)
  /\ cacheKeys (store w') = cacheKeys (store w)
  /\ bookmarkKeys (store w') = bookmarkKeys (store w)
  /\ allBookmarks (store w') = allBookmarks (store w)
  /\ (forall id, In id (map fst (serviceKeys (store w))) ->
                 In id (map fst (serviceKeys (store w'))))
  /\ (forall id, In id (allServices (store w)) -> In id (allServices (store w'))).
Proof.
  cbv zeta. unfold Scheduler.Reload. destruct loaded as [config|].
  - destruct (MapServices urlHostname now config) as [l|]; cbn [snd].
    + cbn [memIndex store UpdateServices bookmarks lastBookmarkReload].
      unfold SaveServicesMany. destruct (reachable (store w)) eqn:Hr; cbn [bestEffort].
      * rewrite saveMany_fields.
        cbn [reachable cacheKeys bookmarkKeys allBookmarks serviceKeys allServices].
        repeat split; try reflexivity; try exact Hr.
        -- intros id H. apply fill_keys_incl. exact H.
        -- intros id H. apply saddAll_incl. exact H.
      * rewrite Hr. repeat split; trivial.
    + repeat split; trivial.
  - cbn [snd]. repeat split; trivial.
Qed.

(** X22.  After a successful reload pass on a reachable store every
    service of the index is in the store, as the same record under the
    same id, and its id is in the set of all ids (as the store is right
    after the pass: the expiry of records is outside the model). *)
Theorem Reload_index_in_store (urlHostname : list ascii -> option (list ascii))
        (now : Z) (config : ServicesConfig) (l : list Service) (w : World)
        (id : list ascii) (e : Service) :
  let w' := snd (Scheduler.Reload urlHostname now (Some config) w) in
  MapServices urlHostname now config = Some l ->
  reachable (store w) = true ->
  Index.GetService id (memIndex w') = Some e ->
  RedisStore.GetService id (store w') = Some e /\ In id (allServices (store w')).
Proof.
  cbv zeta. intros Hmap Hr. unfold Scheduler.Reload. rewrite Hmap. cbn [snd].
  unfold Index.GetService, RedisStore.GetService, SaveServicesMany.
  cbn [memIndex store UpdateServices services]. rewrite Hr. cbn [bestEffort].
  rewrite saveMany_fields. cbn [reachable serviceKeys allServices]. rewrite Hr.
  intros He.
  assert (Hid : In id (map ID (l ++ map (markDisabled now)
                 (filter (fun existing => negb (existsb (eqs (ID existing)) (map ID l)))
                         (getHomepageServices (memIndex w)))))).
  { destruct (fill_source _ _ _ _ He) as [H|[H1 H2]]; [discriminate|].
    rewrite <- H2. apply in_map. exact H1. }
  split.
  - rewrite <- He. apply fill_agree. exact Hid.
  - apply saddAll_ids. exact Hid.
Qed.

Lemma Reload_index_in_store_witness :
  RedisStore.GetService (str "jellyseerr.example.com")
    (store (snd (Scheduler.Reload simpleURLHostname start (Some shrunkCatalog) usedWorld)))
  = Some (markDisabled start jellyseerr)
  /\ In (str "jellyseerr.example.com")
        (allServices
           (store (snd (Scheduler.Reload simpleURLHostname start (Some shrunkCatalog)
                          usedWorld)))).
Proof.
  eapply (Reload_index_in_store simpleURLHostname start shrunkCatalog).
  - vm_compute. reflexivity.
  - reflexivity.
  - vm_compute. reflexivity.
Defined.

(** ** The store and the start-up sync *)

Lemma In_srem (id k : list ascii) (set : list (list ascii)) :
  In k (srem id set) <-> In k set /\ k <> id.
Proof.
  unfold srem. rewrite filter_In. split; intros [H1 H2]; split; try exact H1.
  - intros ->. rewrite eqs_refl in H2. discriminate.
  - apply negb_true_iff. apply eqs_false_iff. intros E. apply H2. symmetry. exact E.
Qed.

Lemma keys_delete (V : Type) (id k : list ascii) (m : gomap V) :
  In k (map fst (delete id m)) -> In k (map fst m) /\ k <> id.
Proof.
  intros H. apply in_map_iff in H. destruct H as ([k' v] & E & H). simpl in E. subst k'.
  apply In_delete in H. destruct H as [H Hne]. split; [|exact Hne].
  apply (in_map fst) in H. exact H.
Qed.

Lemma save_indexed (s : Service) (st : Store) :
  storeIndexed st ->
  storeIndexed (mkStore (reachable st) (cacheKeys st)
                        (put (ID s) s (serviceKeys st))
                        (sadd (ID s) (allServices st))
                        (bookmarkKeys st) (allBookmarks st)).
Proof.
  intros [Hwk Hset]. split; cbn [serviceKeys allServices].
  - apply (wellKeyed_put s (serviceKeys st)). exact Hwk.
  - intros id H. apply keys_put_inv in H. destruct H as [->|H].
    + apply sadd_self.
    + apply sadd_incl, Hset, H.
Qed.

Lemma saveMany_indexed (l : list Service) :
  forall st,
    storeIndexed st ->
    storeIndexed
      (fold_left
         (fun st service =>
            mkStore (reachable st) (cacheKeys st)
                    (put (ID service) service (serviceKeys st))
                    (sadd (ID service) (allServices st))
                    (bookmarkKeys st) (allBookmarks st))
         l st).
Proof.
  induction l as [|s l IH]; intros st H; simpl; [exact H|].
  apply IH. apply save_indexed. exact H.
Qed.

Lemma delete_indexed (id : list ascii) (st : Store) :
  storeIndexed st ->
  storeIndexed (mkStore (reachable st) (cacheKeys st) (delete id (serviceKeys st))
                        (srem id (allServices st)) (bookmarkKeys st) (allBookmarks st)).
Proof.
  intros [Hwk Hset]. split; cbn [serviceKeys allServices].
  - apply (wellKeyed_delete id (serviceKeys st)). exact Hwk.
  - intros k H. apply keys_delete in H. destruct H as [H Hne].
    apply In_srem. split; [apply Hset; exact H|exact Hne].
Qed.

(** X23.  Every write of the store keeps it indexed: after SaveService,
    SaveServicesMany, DeleteService, UpdateServiceCounter, CacheResolution
    or InvalidateCache on a store whose records are filed under their IDs
    and listed in the set of all ids, the same holds again. *)
Theorem store_stays_indexed (st : Store) :
  storeIndexed st ->
  (forall s st', SaveService s st = Some st' -> storeIndexed st')
  /\ (forall l st', SaveServicesMany l st = Some st' -> storeIndexed st')
  /\ (forall id st', RedisStore.DeleteService id st = Some st' -> storeIndexed st')
  /\ (forall now id st', UpdateServiceCounter now id st = Some st' -> storeIndexed st')
  /\ (forall query hostname st',
        CacheResolution query hostname st = Some st' -> storeIndexed st')
  /\ (forall query st', InvalidateCache query st = Some st' -> storeIndexed st').
Proof.
  intros H. refine (conj _ (conj _ (conj _ (conj _ (conj _ _))))).
  - intros s st'. unfold SaveService. destruct (reachable st); [|discriminate].
    intros E. injection E as <-. apply save_indexed. exact H.
  - intros l st'. unfold SaveServicesMany. destruct (reachable st); [|discriminate].
    intros E. injection E as <-. apply saveMany_indexed. exact H.
  - intros id st'. unfold RedisStore.DeleteService.
    destruct (reachable st); [|discriminate].
    intros E. injection E as <-. apply delete_indexed. exact H.
  - intros now id st'. unfold UpdateServiceCounter.
    destruct (RedisStore.GetService id st) as [service|]; [|discriminate].
    unfold SaveService. destruct (reachable st); [|discriminate].
    intros E. injection E as <-.
    apply (save_indexed
             (mkService (ID service) (Hostname service) (Name service)
                        (Sources service) now (incr64 (Counter service))
                        (CreatedAt service) (UpdatedAt service) (LastUsedAt service)
                        (Disabled service)) st H).
  - intros query hostname st'. unfold CacheResolution.
    destruct (reachable st); [|discriminate].
    intros E. injection E as <-. exact H.
  - intros query st'. unfold InvalidateCache.
    destruct (reachable st); [|discriminate].
    intros E. injection E as <-. exact H.
Qed.

Lemma emptyStore_indexed : storeIndexed emptyStore.
Proof.
  split; [split|]; cbn.
  - constructor.
  - intros k e [].
  - intros id [].
Qed.

Lemma store_stays_indexed_witness :
  storeIndexed (bestEffort (SaveServicesMany someServices emptyStore) emptyStore).
Proof.
  destruct (store_stays_indexed emptyStore emptyStore_indexed) as (_ & H & _).
  apply (H someServices). reflexivity.
Defined.

Lemma stored_services (st : Store) (e : Service) :
  reachable st = true ->
  (In e (flat_map (fun id => match RedisStore.GetService id st with
                             | Some service => [service]
                             | None => []
                             end)
                  (allServices st))
   <-> exists id, In id (allServices st) /\ get id (serviceKeys st) = Some e).
Proof.
  intros Hr. rewrite in_flat_map. unfold RedisStore.GetService. rewrite Hr.
  split; intros (id & Hid & H); exists id; (split; [exact Hid|]).
  - destruct (get id (serviceKeys st)) as [s|]; [|destruct H].
    destruct H as [->|[]]. reflexivity.
  - rewrite H. left. reflexivity.
Qed.

(** X24.  The start-up sync brings the store back: on a reachable store
    whose records are filed under their IDs and listed in the set of all
    ids, Sync succeeds and leaves the store as it is; when the store holds
    a record the index then answers every lookup as the store does
    (counters included), and when it holds none the index is unchanged. *)
Theorem Sync_restores (now : Z) (w : World) :
  reachable (store w) = true ->
  storeIndexed (store w) ->
  fst (Sync now w) = true
  /\ store (snd (Sync now w)) = store w
  /\ (serviceKeys (store w) = [] -> snd (Sync now w) = w)
  /\ (serviceKeys (store w) <> [] ->
      forall id, Index.GetService id (memIndex (snd (Sync now w)))
                 = RedisStore.GetService id (store w)).
Proof.
  intros Hr [[Hnd Hk] Hset]. unfold Sync, RedisKeys.GetAllServices. rewrite Hr.
  set (l := flat_map _ (allServices (store w))).
  assert (Hl : forall e, In e l <->
                 exists id, In id (allServices (store w))
                            /\ get id (serviceKeys (store w)) = Some e)
    by (intros e; apply stored_services; exact Hr).
  assert (Hto : forall id e, In e l -> ID e = id ->
                             get id (serviceKeys (store w)) = Some e).
  { intros id e He Hid. apply Hl in He. destruct He as (id' & _ & Hg).
    pose proof (Hk _ _ (get_In _ _ _ _ Hg)) as E. rewrite Hid in E. subst id'.
    exact Hg. }
  assert (Hfrom : forall id e, get id (serviceKeys (store w)) = Some e ->
                               In e l /\ ID e = id).
  { intros id e Hg. pose proof (get_In _ _ _ _ Hg) as Hin. split.
    - apply Hl. exists id. split; [|exact Hg].
      apply Hset. apply (in_map fst) in Hin. exact Hin.
    - apply Hk. exact Hin. }
  destruct (length l =? 0)%nat eqn:El; cbn [fst snd store].
  - apply Nat.eqb_eq in El. apply length_zero_iff_nil in El.
    repeat split. intros Hne id. exfalso.
    destruct (serviceKeys (store w)) as [|[k e] m] eqn:Esk; [apply Hne; reflexivity|].
    assert (Hg : get k ((k, e) :: m) = Some e) by (simpl; rewrite eqs_refl; reflexivity).
    destruct (Hfrom k e Hg) as [Hin _]. rewrite El in Hin. destruct Hin.
  - apply Nat.eqb_neq in El. repeat split.
    + intros Hsk. exfalso. apply El. destruct l as [|e l']; [reflexivity|].
      destruct (proj1 (Hl e) (or_introl eq_refl)) as (id & _ & Hg).
      rewrite Hsk in Hg. discriminate.
    + intros _ id. unfold Index.GetService, RedisStore.GetService.
      cbn [memIndex UpdateServices services]. rewrite Hr.
      destruct (get id (serviceKeys (store w))) as [e|] eqn:Eg.
      * destruct (Hfrom id e Eg) as [Hin Hid].
        destruct (get_fill (fun v => In v l /\ ID v = id) id l [])
          as (v & Hv & Hvl & Hvid).
        -- intros s Hs Hsid. split; assumption.
        -- simpl. discriminate.
        -- left. exists e. split; assumption.
        -- rewrite Hv. pose proof (Hto id v Hvl Hvid) as Hg.
           rewrite Eg in Hg. symmetry. exact Hg.
      * destruct (get id (fold_left (fun m service => put (ID service) service m) l []))
          as [v|] eqn:Ev; [|reflexivity].
        destruct (fill_source _ _ _ _ Ev) as [H|[H1 H2]]; [discriminate|].
        rewrite (Hto id v H1 H2) in Eg. discriminate.
Qed.

Lemma Sync_restores_witness :
  Index.GetService (str "jellyfin.example.com")
    (memIndex
       (snd (Sync start
               (mkWorld NewMemoryIndex
                        (bestEffort (SaveServicesMany someServices emptyStore)
                                    emptyStore)))))
  = RedisStore.GetService (str "jellyfin.example.com")
      (bestEffort (SaveServicesMany someServices emptyStore) emptyStore).
Proof.
  destruct (Sync_restores start
              (mkWorld NewMemoryIndex
                       (bestEffort (SaveServicesMany someServices emptyStore) emptyStore)))
    as (_ & _ & _ & H).
  - reflexivity.
  - apply saveMany_indexed, emptyStore_indexed.
  - apply H. vm_compute. discriminate.
Defined.

(** ** The key layout of the store *)

(** ExtractServiceID inverts ServiceKey on every non-empty id and
    fails on the key of the empty id; it only measures the key, so it
    returns the tail of any key longer than the prefix whatever that key
    starts with.  ServiceKey is injective and the keys of services, of
    cached resolutions, of bookmarks and of the two id sets never
    coincide. *)
Theorem ExtractServiceID_ServiceKey :
  (forall id, RedisKeys.ExtractServiceID (RedisKeys.ServiceKey id)
              = if isEmpty id then None else Some id)
  /\ (forall p id,
        length p = length RedisKeys.KeyPrefixService -> id <> [] ->
        RedisKeys.ExtractServiceID (p ++ id) = Some id)
  /\ (forall a b, RedisKeys.ServiceKey a = RedisKeys.ServiceKey b -> a = b)
  /\ (forall a b,
        RedisKeys.ServiceKey a <> RedisKeys.CacheKey b
        /\ RedisKeys.ServiceKey a <> RedisKeys.BookmarkKey b
        /\ RedisKeys.CacheKey a <> RedisKeys.BookmarkKey b
        /\ RedisKeys.ServiceKey a <> RedisKeys.AllServicesKey
        /\ RedisKeys.ServiceKey a <> RedisKeys.AllBookmarksKey
        /\ RedisKeys.CacheKey a <> RedisKeys.AllServicesKey
        /\ RedisKeys.CacheKey a <> RedisKeys.AllBookmarksKey
        /\ RedisKeys.BookmarkKey a <> RedisKeys.AllServicesKey
        /\ RedisKeys.BookmarkKey a <> RedisKeys.AllBookmarksKey).
Proof.
  assert (Htail : forall p id,
             length p = length RedisKeys.KeyPrefixService -> id <> [] ->
             RedisKeys.ExtractServiceID (p ++ id) = Some id).
  { intros p id Hp Hid. unfold RedisKeys.ExtractServiceID.
    rewrite length_app, <- Hp.
    destruct (Nat.leb_spec (length p + length id) (length p)) as [H|H].
    - exfalso. destruct id; [apply Hid; reflexivity|simpl in H; lia].
    - rewrite skipn_app, Nat.sub_diag, skipn_all. reflexivity. }
  split; [|split; [exact Htail|split]].
  - intros [|c id]; [reflexivity|].
    unfold RedisKeys.ServiceKey. rewrite Htail; [reflexivity|reflexivity|discriminate].
  - intros a b H. unfold RedisKeys.ServiceKey in H.
    apply app_inv_head in H. exact H.
  - intros a b. repeat split; intros H; vm_compute in H; discriminate.
Qed.

(** ** The manual reload endpoint *)

(** X25.  The reload endpoint answers 202 exactly when one of its trigger
    channels had room and 429 otherwise; it never blocks and never puts
    more than one signal into a channel; after the call a reload of the
    services is pending in any case, so a second call that arrives before
    the reloaders have taken their signals is answered 429. *)
Theorem Reload_endpoint_coalesces (t : Triggers) :
  let (status, t') := ReloadEndpoint.Reload t in
  (status = StatusAccepted
   <-> (ReloadTrigger t < capacity)%nat
       \/ exists b, BookmarkReloadTrigger t = Some b /\ (b < capacity)%nat)
  /\ (status = StatusAccepted \/ status = StatusTooManyRequests)
  /\ (status = StatusTooManyRequests -> t' = t)
  /\ ((ReloadTrigger t <= capacity)%nat -> (ReloadTrigger t' <= capacity)%nat)
  /\ (1 <= ReloadTrigger t')%nat
  /\ (forall b, BookmarkReloadTrigger t = Some b ->
                exists b', BookmarkReloadTrigger t' = Some b' /\ (1 <= b')%nat
                           /\ ((b <= capacity)%nat -> (b' <= capacity)%nat))
  /\ (BookmarkReloadTrigger t = None -> BookmarkReloadTrigger t' = None)
  /\ fst (ReloadEndpoint.Reload t') = StatusTooManyRequests.
Proof.
  unfold ReloadEndpoint.Reload, trySend, capacity.
  destruct t as [[|n] [[|b]|]];
    cbn [ReloadTrigger BookmarkReloadTrigger Nat.ltb Nat.leb orb fst snd];
    repeat match goal with
           | |- _ /\ _ => split
           | |- _ <-> _ => split
           end;
    intros;
    repeat match goal with
           | H : _ \/ _ |- _ => destruct H
           | H : exists _, _ |- _ => destruct H
           | H : _ /\ _ |- _ => destruct H
           | H : Some _ = Some _ |- _ => injection H as H; subst
           end;
    first [ reflexivity | lia | discriminate | congruence
          | left; reflexivity | right; reflexivity | left; lia
          | right; eexists; split; [reflexivity|lia]
          | eexists; split; [reflexivity|split; [lia|intros; lia]] ].
Qed.

(** ** Host enforcement and the forwarded address *)

(** X26.  EnforceHost lets a request through exactly when the list of
    allowed hosts is empty or the Host header equals one of them or ends
    with the part after the star of a pattern that starts with a star and
    a dot; everything else is answered 403.  The comparison is exact: no
    case folding and no port stripping. *)
Theorem EnforceHost_spec (allowedHosts : list (list ascii)) (host : list ascii) :
  (EnforceHost allowedHosts host = None
   <-> allowedHosts = []
       \/ exists pattern,
            In pattern allowedHosts
            /\ (host = pattern
                \/ exists rest pre,
                     pattern = str "*." ++ rest /\ host = pre ++ dot :: rest))
  /\ (EnforceHost allowedHosts host = None
      \/ EnforceHost allowedHosts host = Some StatusForbidden).
Proof.
  assert (Hm : forall pattern,
             matchHost host pattern = true
             <-> host = pattern
                 \/ exists rest pre,
                      pattern = str "*." ++ rest /\ host = pre ++ dot :: rest).
  { intros pattern. unfold matchHost. destruct (eqs host pattern) eqn:E.
    - apply eqs_true_iff in E. split; [left; exact E|reflexivity].
    - apply eqs_false_iff in E.
      destruct (HasPrefix pattern (str "*.")) eqn:Ep.
      + apply HasPrefix_spec in Ep. destruct Ep as (rest & ->).
        cbn [str app skipn]. rewrite HasSuffix_spec. split.
        * intros (pre & H). right. exists rest, pre. split; [reflexivity|exact H].
        * intros [H|(rest' & pre & Er & H)]; [contradiction|].
          injection Er as <-. exists pre. exact H.
      + split; [discriminate|]. intros [H|(rest & pre & Er & H)]; [contradiction|].
        exfalso. apply not_true_iff_false in Ep. apply Ep. apply HasPrefix_spec.
        exists rest. exact Er. }
  unfold EnforceHost. destruct allowedHosts as [|p l]; cbn [length Nat.eqb].
  - split; [|left; reflexivity]. split; [left; reflexivity|reflexivity].
  - destruct (existsb (matchHost host) (p :: l)) eqn:Ex.
    + split; [|left; reflexivity]. split; [|reflexivity]. intros _. right.
      apply existsb_exists in Ex. destruct Ex as (pattern & Hin & H).
      exists pattern. split; [exact Hin|apply Hm; exact H].
    + split; [|right; reflexivity]. split; [discriminate|].
      intros [H|(pattern & Hin & H)]; [discriminate|].
      exfalso. apply not_true_iff_false in Ex. apply Ex. apply existsb_exists.
      exists pattern. split; [exact Hin|apply Hm; exact H].
Qed.

Lemma dropWhile_app_stop (p : ascii -> bool) (a b : list ascii) (c : ascii) :
  p c = false -> dropWhile p (a ++ c :: b) = dropWhile p a ++ c :: b.
Proof.
  intros Hc. induction a as [|x a IH]; simpl; [rewrite Hc; reflexivity|].
  destruct (p x); [exact IH|reflexivity].
Qed.

Lemma indexFrom_char (c : ascii) (a b : list ascii) :
  ~ In c a -> indexFrom (a ++ c :: b) [c] = Some (length a).
Proof.
  induction a as [|x a IH]; intros Hn.
  - rewrite app_nil_l, indexFrom_cons. cbn [HasPrefix].
    rewrite Ascii.eqb_refl, HasPrefix_nil. reflexivity.
  - cbn [app]. rewrite indexFrom_cons. cbn [HasPrefix].
    replace (Ascii.eqb x c) with false.
    + cbn [andb]. rewrite IH by (intros H; apply Hn; right; exact H). reflexivity.
    + symmetry. apply Ascii.eqb_neq. intros E. apply Hn. left. exact E.
Qed.

Lemma indexFrom_char_none (c : ascii) (s : list ascii) :
  ~ In c s -> indexFrom s [c] = None.
Proof.
  induction s as [|x s IH]; intros Hn; [reflexivity|].
  rewrite indexFrom_cons. cbn [HasPrefix].
  replace (Ascii.eqb x c) with false.
  - cbn [andb]. rewrite IH by (intros H; apply Hn; right; exact H). reflexivity.
  - symmetry. apply Ascii.eqb_neq. intros E. apply Hn. left. exact E.
Qed.

Lemma first_occurrence (c : ascii) (s : list ascii) :
  In c s -> exists a b, s = a ++ c :: b /\ ~ In c a.
Proof.
  induction s as [|x s IH]; [intros []|].
  intros H. destruct (ascii_dec x c) as [->|Hne].
  - exists [], s. split; [reflexivity|intros []].
  - destruct H as [H|H]; [contradiction|].
    destruct (IH H) as (a & b & -> & Ha). exists (x :: a), b.
    split; [reflexivity|]. intros [E|E]; [contradiction|exact (Ha E)].
Qed.

Lemma TrimSpace_dropWhile (s : list ascii) :
  TrimSpace (dropWhile isSpace s) = TrimSpace s.
Proof. unfold TrimSpace. rewrite dropWhile_idem. reflexivity. Qed.

Lemma TrimSpace_before_comma (a b : list ascii) :
  exists b', TrimSpace (a ++ ","%char :: b) = dropWhile isSpace a ++ ","%char :: b'.
Proof.
  unfold TrimSpace. rewrite dropWhile_app_stop by reflexivity.
  rewrite rev_app_distr. cbn [rev]. rewrite <- app_assoc. cbn [app].
  rewrite dropWhile_app_stop by reflexivity.
  rewrite rev_app_distr. cbn [rev]. rewrite rev_involutive, <- app_assoc. cbn [app].
  eexists. reflexivity.
Qed.

(** FirstForwardedFor returns the text before the first comma of the
    header, trimmed, or the whole trimmed header when it has no comma: the
    result holds no comma and no outer white space. *)
Theorem FirstForwardedFor_spec :
  (forall a b, ~ In ","%char a ->
               FirstForwardedFor (a ++ ","%char :: b) = TrimSpace a)
  /\ (forall xff, ~ In ","%char xff -> FirstForwardedFor xff = TrimSpace xff)
  /\ (forall xff, ~ In ","%char (FirstForwardedFor xff)
                  /\ TrimSpace (FirstForwardedFor xff) = FirstForwardedFor xff
                  /\ forall c, In c (FirstForwardedFor xff) -> In c xff).
Proof.
  assert (H1 : forall a b, ~ In ","%char a ->
                           FirstForwardedFor (a ++ ","%char :: b) = TrimSpace a).
  { intros a b Ha. unfold FirstForwardedFor.
    destruct (TrimSpace_before_comma a b) as (b' & ->).
    assert (Ha' : ~ In ","%char (dropWhile isSpace a))
      by (intros H; apply Ha; apply (dropWhile_In _ _ _ H)).
    destruct (dropWhile isSpace a ++ ","%char :: b') eqn:E;
      [destruct (dropWhile isSpace a); discriminate|].
    cbn [isEmpty]. rewrite <- E. rewrite indexFrom_char by exact Ha'.
    rewrite firstn_app, Nat.sub_diag, firstn_all. cbn [firstn].
    rewrite app_nil_r. apply TrimSpace_dropWhile. }
  assert (H2 : forall xff, ~ In ","%char xff -> FirstForwardedFor xff = TrimSpace xff).
  { intros xff Hx. unfold FirstForwardedFor.
    destruct (TrimSpace xff) eqn:E; [reflexivity|]. cbn [isEmpty]. rewrite <- E.
    rewrite indexFrom_char_none
      by (intros H; apply Hx; apply (TrimSpace_In _ _ H)).
    apply TrimSpace_idem. }
  split; [exact H1|split; [exact H2|]].
  intros xff. destruct (in_dec ascii_dec ","%char xff) as [Hin|Hout].
  - destruct (first_occurrence _ _ Hin) as (a & b & -> & Ha).
    rewrite (H1 a b Ha). split; [|split].
    + intros H. apply Ha. apply (TrimSpace_In _ _ H).
    + apply TrimSpace_idem.
    + intros c Hc. apply in_or_app. left. apply (TrimSpace_In _ _ Hc).
  - rewrite (H2 xff Hout). split; [|split].
    + intros H. apply Hout. apply (TrimSpace_In _ _ H).
    + apply TrimSpace_idem.
    + intros c Hc. apply (TrimSpace_In _ _ Hc).
Qed.

(** ** The allow-list derived from the allowed hosts *)

Lemma Split_app_sep (sep : ascii) (label rest : list ascii) :
  ~ In sep label -> Split (label ++ sep :: rest) sep = label :: Split rest sep.
Proof.
  induction label as [|c label IH]; intros Hn.
  - cbn [app Split]. rewrite Ascii.eqb_refl. reflexivity.
  - cbn [app Split].
    replace (Ascii.eqb c sep) with false
      by (symmetry; apply Ascii.eqb_neq; intros E; apply Hn; left; exact E).
    rewrite IH by (intros H; apply Hn; right; exact H). reflexivity.
Qed.

Lemma Split_without_sep (sep : ascii) (s : list ascii) :
  ~ In sep s -> Split s sep = [s].
Proof.
  induction s as [|c s IH]; intros Hn; [reflexivity|].
  cbn [Split].
  replace (Ascii.eqb c sep) with false
    by (symmetry; apply Ascii.eqb_neq; intros E; apply Hn; left; exact E).
  rewrite IH by (intros H; apply Hn; right; exact H). reflexivity.
Qed.

Lemma Join_Split (sep : ascii) (s : list ascii) : Join (Split s sep) [sep] = s.
Proof.
  induction s as [|c s IH]; [reflexivity|].
  cbn [Split]. destruct (Ascii.eqb c sep) eqn:E.
  - apply Ascii.eqb_eq in E. subst c.
    destruct (Split s sep) as [|p ps] eqn:Es; [exfalso; revert Es; apply Split_nonempty|].
    change (Join ([] :: p :: ps) [sep]) with ([] ++ [sep] ++ Join (p :: ps) [sep]).
    rewrite IH. reflexivity.
  - destruct (Split s sep) as [|p ps] eqn:Es; [exfalso; revert Es; apply Split_nonempty|].
    destruct ps as [|q ps].
    + cbn [Join] in IH |- *. rewrite IH. reflexivity.
    + change (Join ((c :: p) :: q :: ps) [sep])
        with (c :: (p ++ [sep] ++ Join (q :: ps) [sep])).
      change (Join (p :: q :: ps) [sep]) with (p ++ [sep] ++ Join (q :: ps) [sep]) in IH.
      rewrite IH. reflexivity.
Qed.

Lemma seen_spec (domains : list (list ascii)) (d : list ascii) :
  seen domains d = true <-> In d domains.
Proof.
  unfold seen. rewrite existsb_exists. split.
  - intros (x & Hx & E). apply eqs_true_iff in E. subst x. exact Hx.
  - intros H. exists d. split; [exact H|apply eqs_refl].
Qed.

(* appending a domain that has not been seen *)
Lemma addUnseen_spec (domains : list (list ascii)) (d x : list ascii) :
  In x (if negb (seen domains d) then domains ++ [d] else domains)
  <-> In x domains \/ x = d.
Proof.
  destruct (seen domains d) eqn:E; cbn [negb].
  - apply seen_spec in E. split; [intros H; left; exact H|].
    intros [H| ->]; assumption.
  - rewrite in_app_iff. cbn [In]. split.
    + intros [H|[H|[]]]; [left; exact H|right; symmetry; exact H].
    + intros [H| ->]; [left; exact H|right; left; reflexivity].
Qed.

Lemma addUnseen_NoDup (domains : list (list ascii)) (d : list ascii) :
  NoDup domains -> NoDup (if negb (seen domains d) then domains ++ [d] else domains).
Proof.
  intros Hnd. destruct (seen domains d) eqn:E; cbn [negb]; [exact Hnd|].
  apply NoDup_rev in Hnd. rewrite <- (rev_involutive (domains ++ [d])).
  apply NoDup_rev. rewrite rev_app_distr. cbn [rev app].
  constructor; [|exact Hnd]. rewrite <- in_rev. intros H.
  apply seen_spec in H. congruence.
Qed.

(* the domain suffix of a host: what follows its first dot *)
Lemma suffix_spec (h d : list ascii) :
  ((2 <=? length (Split h dot))%nat = true /\ d = Join (tl (Split h dot)) [dot])
  <-> exists label, ~ In dot label /\ h = label ++ dot :: d.
Proof.
  split.
  - intros [Hlen ->]. destruct (in_dec ascii_dec dot h) as [Hin|Hout].
    + destruct (first_occurrence _ _ Hin) as (label & rest & -> & Hl).
      exists label. split; [exact Hl|].
      rewrite Split_app_sep by exact Hl. cbn [tl]. rewrite Join_Split. reflexivity.
    + rewrite Split_without_sep in Hlen by exact Hout. discriminate.
  - intros (label & Hl & ->). rewrite Split_app_sep by exact Hl. cbn [tl length].
    rewrite Join_Split. split; [|reflexivity].
    destruct (Split d dot) eqn:E; [exfalso; revert E; apply Split_nonempty|reflexivity].
Qed.

Lemma extractStep_spec (domains : list (list ascii)) (host x : list ascii) :
  In x (extractStep domains host)
  <-> In x domains \/ x = hostWithoutPort host
      \/ exists label, ~ In dot label /\ hostWithoutPort host = label ++ dot :: x.
Proof.
  unfold extractStep. cbv zeta.
  set (h := hostWithoutPort host).
  set (domains' := if negb (seen domains h) then domains ++ [h] else domains).
  assert (H' : forall y, In y domains' <-> In y domains \/ y = h)
    by (intros y; apply addUnseen_spec).
  destruct (2 <=? length (Split h dot))%nat eqn:Elen.
  - rewrite addUnseen_spec, H'. rewrite <- suffix_spec. rewrite Elen. intuition.
  - rewrite H'. rewrite <- suffix_spec. rewrite Elen. intuition discriminate.
Qed.

Lemma extractStep_NoDup (domains : list (list ascii)) (host : list ascii) :
  NoDup domains -> NoDup (extractStep domains host).
Proof.
  intros Hnd. unfold extractStep. cbv zeta.
  destruct (2 <=? length (Split (hostWithoutPort host) dot))%nat.
  - apply addUnseen_NoDup, addUnseen_NoDup, Hnd.
  - apply addUnseen_NoDup, Hnd.
Qed.

Lemma extractDomains_fold (hosts : list (list ascii)) :
  forall domains x,
    In x (fold_left extractStep hosts domains)
    <-> In x domains
        \/ exists host,
             In host hosts
             /\ (x = hostWithoutPort host
                 \/ exists label, ~ In dot label
                                  /\ hostWithoutPort host = label ++ dot :: x).
Proof.
  induction hosts as [|host hosts IH]; intros domains x; cbn [fold_left].
  - split; [intros H; left; exact H|]. intros [H|(host & [] & _)]. exact H.
  - rewrite IH, extractStep_spec. split.
    + intros [[H|H]|(host' & Hin & H)].
      * left. exact H.
      * right. exists host. split; [left; reflexivity|exact H].
      * right. exists host'. split; [right; exact Hin|exact H].
    + intros [H|(host' & [<-|Hin] & H)].
      * left. left. exact H.
      * left. right. exact H.
      * right. exists host'. split; [exact Hin|exact H].
Qed.

Lemma extractDomains_In (hosts : list (list ascii)) (x : list ascii) :
  In x (extractDomains hosts)
  <-> exists host,
        In host hosts
        /\ (x = hostWithoutPort host
            \/ exists label, ~ In dot label
                             /\ hostWithoutPort host = label ++ dot :: x).
Proof.
  unfold extractDomains. destruct hosts as [|host hosts].
  - cbn. split; [intros []|intros (host & [] & _)].
  - cbn [length Nat.eqb]. rewrite extractDomains_fold. cbn [In]. tauto.
Qed.

(** X27.  extractDomains lists, without duplicates, exactly the allowed
    hosts with their port removed and, for each of them that has a dot,
    what follows its first dot. *)
Theorem extractDomains_spec (hosts : list (list ascii)) :
  NoDup (extractDomains hosts)
  /\ forall x,
       In x (extractDomains hosts)
       <-> exists host,
             In host hosts
             /\ (x = hostWithoutPort host
                 \/ exists label, ~ In dot label
                                  /\ hostWithoutPort host = label ++ dot :: x).
Proof.
  split; [|apply extractDomains_In].
  unfold extractDomains. destruct (length hosts =? 0)%nat; [constructor|].
  assert (H : forall domains, NoDup domains -> NoDup (fold_left extractStep hosts domains)).
  { induction hosts as [|host hosts IH]; intros domains Hnd; cbn [fold_left];
      [exact Hnd|].
    apply IH, extractStep_NoDup, Hnd. }
  apply H. constructor.
Qed.

(** X28.  With the allow-list derived from the allowed hosts, the resolver
    may redirect to an allowed host itself and to every host that ends
    with a dot and what follows the first dot of an allowed host: all the
    siblings of an allowed host, at any depth. *)
Theorem extractDomains_allows_siblings (hosts : list (list ascii))
        (host label rest x pre : list ascii) :
  In host hosts ->
  hostWithoutPort host = label ++ dot :: rest ->
  ~ In dot label ->
  ToLower x = pre ++ dot :: ToLower rest ->
  isAllowedRedirect x (extractDomains hosts) = true
  /\ isAllowedRedirect (hostWithoutPort host) (extractDomains hosts) = true.
Proof.
  intros Hin Hh Hl Hx. split; apply isAllowedRedirect_spec.
  - exists rest. split.
    + apply extractDomains_In. exists host. split; [exact Hin|].
      right. exists label. split; [exact Hl|exact Hh].
    + right. exists pre. exact Hx.
  - exists (hostWithoutPort host). split.
    + apply extractDomains_In. exists host. split; [exact Hin|left; reflexivity].
    + left. reflexivity.
Qed.

Lemma extractDomains_allows_siblings_witness :
  isAllowedRedirect (str "files.example.com")
                    (extractDomains [str "jump.example.com:8080"]) = true
  /\ isAllowedRedirect (hostWithoutPort (str "jump.example.com:8080"))
                       (extractDomains [str "jump.example.com:8080"]) = true.
Proof.
  apply (extractDomains_allows_siblings
           [str "jump.example.com:8080"] (str "jump.example.com:8080")
           (str "jump") (str "example.com") (str "files.example.com") (str "files")).
  - left. reflexivity.
  - vm_compute. reflexivity.
  - vm_compute. intros [H|[H|[H|[H|[]]]]]; discriminate.
  - vm_compute. reflexivity.
Defined.

(** ** The resolver across requests *)

Lemma handleServiceSearch_cases (d : Deps) (now : Z) (query : list ascii) (w : World) :
  handleServiceSearch d now query w = (Redirect (HomepageURL d), w)
  \/ exists h,
       isAllowedRedirect h (AllowedDomains d) = true
       /\ handleServiceSearch d now query w
          = (Redirect (https h),
             mkWorld (IncrementCounter h (memIndex w))
                     (bestEffort
                        (CacheResolution query h
                           (bestEffort (IncrementUsage now h (store w)) (store w)))
                        (bestEffort (IncrementUsage now h (store w)) (store w)))).
Proof.
  unfold handleServiceSearch. cbv zeta.
  destruct (length (Index.GetAllServices (memIndex w)) =? 0)%nat; [left; reflexivity|].
  destruct (length (RankCandidates (ParseQuery query)
                                   (Index.GetAllServices (memIndex w))) =? 0)%nat;
    [left; reflexivity|].
  match goal with |- context [firstHealthy d ?l] =>
    destruct (firstHealthy d l) as [h|] eqn:Eh end; [|left; reflexivity].
  right. exists h. apply firstHealthy_allowed in Eh. destruct Eh as [Ha _].
  split; [exact Ha|reflexivity].
Qed.

Lemma cached_after_search (now : Z) (query h : list ascii) (st : Store) :
  reachable st = true ->
  GetCachedResolution query
    (bestEffort (CacheResolution query h (bestEffort (IncrementUsage now h st) st))
                (bestEffort (IncrementUsage now h st) st))
  = Some h.
Proof.
  intros Hr.
  assert (Hr' : reachable (bestEffort (IncrementUsage now h st) st) = true)
    by (rewrite (proj1 (IncrementUsage_keeps now h st)); exact Hr).
  unfold CacheResolution at 1. rewrite Hr'. cbn [bestEffort].
  unfold GetCachedResolution. cbn [reachable cacheKeys].
  rewrite get_put, eqs_refl. destruct h; reflexivity.
Qed.

Lemma cached_after_hit (now : Z) (query h : list ascii) (st : Store) :
  GetCachedResolution query (bestEffort (IncrementUsage now h st) st)
  = GetCachedResolution query st.
Proof.
  unfold GetCachedResolution.
  destruct (IncrementUsage_keeps now h st) as [-> ->]. reflexivity.
Qed.

Lemma https_inj (a b : list ascii) : https a = https b -> a = b.
Proof. unfold https. apply app_inv_head. Qed.

Lemma cache_hit_location (d : Deps) (now : Z) (query h : list ascii) (w : World) :
  GetCachedResolution query (store w) = Some h ->
  h <> [] ->
  ValidateTLS d h = true ->
  isAllowedRedirect h (AllowedDomains d) = true ->
  exists w', handleCachedService d now query w = (Some (Redirect (https h)), w').
Proof.
  intros Hc Hh Hv Ha. unfold handleCachedService. rewrite Hc.
  destruct h as [|c h]; [contradiction|]. cbn [isEmpty].
  rewrite Hv, Ha. cbn [negb]. eexists. reflexivity.
Qed.

Lemma handleCachedService_miss (d : Deps) (now : Z) (query : list ascii)
      (w w1 : World) :
  handleCachedService d now query w = (None, w1) ->
  reachable (store w1) = reachable (store w).
Proof.
  unfold handleCachedService.
  destruct (GetCachedResolution query (store w)) as [cached|];
    [|intros E; injection E as <-; reflexivity].
  destruct (isEmpty cached); [intros E; injection E as <-; reflexivity|].
  destruct (ValidateTLS d cached).
  - destruct (negb (isAllowedRedirect cached (AllowedDomains d))); discriminate.
  - intros E. injection E as <-. cbn [store]. unfold InvalidateCache.
    destruct (reachable (store w)) eqn:Hr; cbn [bestEffort reachable];
      first [reflexivity|exact Hr].
Qed.

Lemma handleCachedService_hit (d : Deps) (now : Z) (query : list ascii)
      (w w1 : World) (resp : Response) :
  handleCachedService d now query w = (Some resp, w1) ->
  Target resp = HomepageURL d
  \/ exists cached,
       resp = Redirect (https cached)
       /\ isAllowedRedirect cached (AllowedDomains d) = true
       /\ GetCachedResolution query (store w1) = Some cached.
Proof.
  unfold handleCachedService.
  destruct (GetCachedResolution query (store w)) as [cached|] eqn:Ec; [|discriminate].
  destruct (isEmpty cached); [discriminate|].
  destruct (ValidateTLS d cached); [|discriminate].
  destruct (isAllowedRedirect cached (AllowedDomains d)) eqn:Ea; cbn [negb];
    intros E; injection E as <- <-; [|left; reflexivity].
  right. exists cached. split; [reflexivity|]. split; [exact Ea|].
  cbn [store]. rewrite cached_after_hit. exact Ec.
Qed.

(* a service query answered with a redirect to a host leaves that host in
   the cache, and the host is on the allow-list *)
Lemma Search_pins (d : Deps) (now : Z) (r : Request) (w : World) (h : list ascii) :
  realmOf r = ServiceRealm ->
  reachable (store w) = true ->
  Target (fst (Search d now r w)) = https h ->
  HomepageURL d <> https h ->
  GetCachedResolution (TrimSpace (q r)) (store (snd (Search d now r w))) = Some h
  /\ isAllowedRedirect h (AllowedDomains d) = true.
Proof.
  unfold realmOf, Search. cbv zeta. intros Hrealm Hr Hloc Hhome.
  destruct (TrimSpace (q r)) as [|c0 q0] eqn:Eq;
    [cbn [isEmpty fst Target Redirect] in Hloc; congruence|]. cbn [isEmpty] in *.
  destruct (HasPrefix (c0 :: q0) [("@")%char]); [discriminate|].
  destruct (HasPrefix (c0 :: q0) [("/")%char]); [discriminate|].
  set (query := c0 :: q0) in *.
  revert Hloc.
  destruct (handleCachedService d now query w) as [[resp|] w1] eqn:Ec;
    cbn [fst snd]; intros Hloc.
  - destruct (handleCachedService_hit d now query w w1 resp Ec)
      as [E|(cached & -> & Ha & Hc)]; [congruence|].
    apply https_inj in Hloc. subst cached. split; assumption.
  - assert (Hr1 : reachable (store w1) = true)
      by (rewrite (handleCachedService_miss d now query w w1 Ec); exact Hr).
    destruct (handleServiceSearch_cases d now query w1) as [E|(h0 & Ha & E)];
      rewrite E in Hloc |- *; cbn [fst snd Target Redirect store] in *;
      [congruence|].
    apply https_inj in Hloc. subst h0. split; [|exact Ha].
    apply cached_after_search. exact Hr1.
Qed.

(* the first request of the example below: resolved by the ranking *)
Lemma Search_jellyfin :
  Search deps 7 (mkRequest (str "jellyfin") (str "jump.example.com"))
         (mkWorld (indexOf [jellyfin] []) emptyStore)
  = (Redirect (https (str "jellyfin.example.com")),
     mkWorld (IncrementCounter (str "jellyfin.example.com") (indexOf [jellyfin] []))
             (mkStore true [(str "jellyfin", str "jellyfin.example.com")] [] [] [] [])).
Proof.
  unfold Search. reduce_tests.
  replace (TrimSpace (q (mkRequest (str "jellyfin") (str "jump.example.com"))))
    with (str "jellyfin") by (vm_compute; reflexivity).
  replace (handleCachedService deps 7 (str "jellyfin")
             (mkWorld (indexOf [jellyfin] []) emptyStore))
    with (@None Response, mkWorld (indexOf [jellyfin] []) emptyStore)
    by (vm_compute; reflexivity).
  unfold handleServiceSearch. cbv zeta. reduce_tests.
  replace (Index.GetAllServices (memIndex (mkWorld (indexOf [jellyfin] []) emptyStore)))
    with [jellyfin] by (vm_compute; reflexivity).
  unfold RankCandidates. cbn [flat_map app]. unfold rankOne. reduce_tests.
  rewrite (Score_jellyfin 20 : Score (ParseQuery (str "jellyfin")) jellyfin = 300%R).
  destruct (Req_dec_T 300%R 0%R) as [E|_]; [exfalso; lra|].
  unfold sortCandidates, bubbleSort.
  cbn [length Nat.sub outerLoop Nat.eqb app].
  reduce_tests. cbn [firstHealthy CService Hostname]. reduce_tests.
  f_equal.
Qed.

(** X29.  The cache pins a resolution: once a service query has been
    answered with a redirect to a host, the same query is answered with the
    same redirect in any later state of index and store in which the store
    is reachable and the cache still holds for the query what the first
    answer left there, for as long as the probe of that host succeeds and
    the allow-list is the same: whatever services the index then holds and
    however they rank, and whatever records the store holds.  (The expiry
    of cache entries is outside the model: an expired entry is one the
    cache no longer holds.) *)
Theorem Search_sticky (d d' : Deps) (now now' : Z) (r : Request) (w later : World)
        (h : list ascii) :
  realmOf r = ServiceRealm ->
  reachable (store w) = true ->
  Target (fst (Search d now r w)) = https h ->
  HomepageURL d <> https h ->
  h <> [] ->
  AllowedDomains d' = AllowedDomains d ->
  ValidateTLS d' h = true ->
  reachable (store later) = true ->
  get (TrimSpace (q r)) (cacheKeys (store later))
  = get (TrimSpace (q r)) (cacheKeys (store (snd (Search d now r w)))) ->
  Target (fst (Search d' now' r later)) = https h.
Proof.
  intros Hrealm Hr Hloc Hhome Hh Hdom Hv Hr' Hcache.
  destruct (Search_pins d now r w h Hrealm Hr Hloc Hhome) as [Hc Ha].
  assert (Hlater : GetCachedResolution (TrimSpace (q r)) (store later) = Some h).
  { unfold GetCachedResolution in Hc |- *. rewrite Hr', Hcache.
    destruct (reachable (store (snd (Search d now r w)))); [|discriminate].
    destruct (get (TrimSpace (q r)) (cacheKeys (store (snd (Search d now r w)))));
      [exact Hc|]. injection Hc as <-. contradiction. }
  rewrite <- Hdom in Ha.
  destruct (cache_hit_location d' now' (TrimSpace (q r)) h later Hlater Hh Hv Ha)
    as (w' & E).
  unfold realmOf in Hrealm. unfold Search. cbv zeta.
  destruct (TrimSpace (q r)) as [|c0 q0] eqn:Eq.
  - unfold GetCachedResolution in Hlater. rewrite Hr' in Hlater.
    exfalso. clear - Hloc Hhome Eq. unfold Search in Hloc. cbv zeta in Hloc.
    rewrite Eq in Hloc. cbn [isEmpty fst Target Redirect] in Hloc. congruence.
  - cbn [isEmpty].
    destruct (HasPrefix (c0 :: q0) [("@")%char]); [discriminate|].
    destruct (HasPrefix (c0 :: q0) [("/")%char]); [discriminate|].
    rewrite E. reflexivity.
Qed.

Lemma Search_sticky_witness :
  Target
    (fst (Search deps 8 (mkRequest (str "jellyfin") (str "jump.example.com"))
            (mkWorld NewMemoryIndex
               (store (snd (Search deps 7
                              (mkRequest (str "jellyfin") (str "jump.example.com"))
                              (mkWorld (indexOf [jellyfin] []) emptyStore)))))))
  = https (str "jellyfin.example.com").
Proof.
  apply (Search_sticky deps deps 7 8
           (mkRequest (str "jellyfin") (str "jump.example.com"))
           (mkWorld (indexOf [jellyfin] []) emptyStore)
           (mkWorld NewMemoryIndex
              (store (snd (Search deps 7
                             (mkRequest (str "jellyfin") (str "jump.example.com"))
                             (mkWorld (indexOf [jellyfin] []) emptyStore)))))
           (str "jellyfin.example.com")).
  - vm_compute. reflexivity.
  - reflexivity.
  - rewrite Search_jellyfin. reflexivity.
  - vm_compute. discriminate.
  - discriminate.
  - reflexivity.
  - reflexivity.
  - rewrite Search_jellyfin. reflexivity.
  - reflexivity.
Defined.

Lemma IncrementCounter_keys (id : list ascii) (idx : MemoryIndex) :
  map fst (services (IncrementCounter id idx)) = map fst (services idx)
  /\ bookmarks (IncrementCounter id idx) = bookmarks idx
  /\ lastReload (IncrementCounter id idx) = lastReload idx.
Proof.
  unfold IncrementCounter.
  destruct (get id (services idx)) as [s|] eqn:E; [|repeat split].
  cbn [withServices services bookmarks lastReload]. repeat split.
  apply keys_put. apply get_In in E. apply (in_map fst) in E. exact E.
Qed.

(** X30.  A search never adds a service to the index nor removes one, and
    never touches the bookmarks: whatever the request, the index holds the
    same ids afterwards, and an entry differs from what it was by its
    counter at most. *)
Theorem Search_keeps_catalog (d : Deps) (now : Z) (r : Request) (w : World) :
  let w' := snd (Search d now r w) in
  map fst (services (memIndex w')) = map fst (services (memIndex w))
  /\ bookmarks (memIndex w') = bookmarks (memIndex w)
  /\ lastReload (memIndex w') = lastReload (memIndex w)
  /\ forall id, Index.GetService id (memIndex w') = Index.GetService id (memIndex w)
                \/ Index.GetService id (memIndex w')
                   = option_map bumpCounter (Index.GetService id (memIndex w)).
Proof.
  cbv zeta.
  assert (Hinc : forall h idx,
             map fst (services (IncrementCounter h idx)) = map fst (services idx)
             /\ bookmarks (IncrementCounter h idx) = bookmarks idx
             /\ lastReload (IncrementCounter h idx) = lastReload idx
             /\ forall id, Index.GetService id (IncrementCounter h idx)
                           = Index.GetService id idx
                           \/ Index.GetService id (IncrementCounter h idx)
                              = option_map bumpCounter (Index.GetService id idx)).
  { intros h idx. destruct (IncrementCounter_keys h idx) as (H1 & H2 & H3).
    repeat split; try assumption. intros id. rewrite IncrementCounter_lookup.
    destruct (eqs id h) eqn:E; [|left; reflexivity].
    apply eqs_true_iff in E. subst id. right. reflexivity. }
  assert (Hsame : forall idx : MemoryIndex,
             map fst (services idx) = map fst (services idx)
             /\ bookmarks idx = bookmarks idx
             /\ lastReload idx = lastReload idx
             /\ forall id, Index.GetService id idx = Index.GetService id idx
                           \/ Index.GetService id idx
                              = option_map bumpCounter (Index.GetService id idx))
    by (intros idx; repeat split; left; reflexivity).
  unfold Search. cbv zeta.
  destruct (isEmpty (TrimSpace (q r))); [apply Hsame|].
  destruct (HasPrefix (TrimSpace (q r)) [("@")%char]); [apply Hsame|].
  destruct (HasPrefix (TrimSpace (q r)) [("/")%char]); [apply Hsame|].
  set (query := TrimSpace (q r)).
  destruct (handleCachedService d now query w) as [[resp|] w1] eqn:Ec; cbn [snd].
  - revert Ec. unfold handleCachedService.
    destruct (GetCachedResolution query (store w)) as [cached|]; [|discriminate].
    destruct (isEmpty cached); [discriminate|].
    destruct (ValidateTLS d cached); [|discriminate].
    destruct (negb (isAllowedRedirect cached (AllowedDomains d)));
      intros E; injection E as _ <-; cbn [memIndex]; apply Hinc.
  - assert (Hidx : memIndex w1 = memIndex w).
    { revert Ec. unfold handleCachedService.
      destruct (GetCachedResolution query (store w)) as [cached|];
        [|intros E; injection E as <-; reflexivity].
      destruct (isEmpty cached); [intros E; injection E as <-; reflexivity|].
      destruct (ValidateTLS d cached).
      - destruct (negb (isAllowedRedirect cached (AllowedDomains d))); discriminate.
      - intros E. injection E as <-. reflexivity. }
    destruct (handleServiceSearch_cases d now query w1) as [E|(h & _ & E)];
      rewrite E; cbn [snd memIndex]; rewrite <- Hidx; [apply Hsame|apply Hinc].
Qed.

(** ** C1: the Location header of the resolver *)

Lemma matchHost_spec (host pattern : list ascii) :
  matchHost host pattern = true
  <-> host = pattern
      \/ exists rest pre, pattern = str "*." ++ rest /\ host = pre ++ dot :: rest.
Proof.
  unfold matchHost. destruct (eqs host pattern) eqn:E.
  - apply eqs_true_iff in E. split; [left; exact E|reflexivity].
  - apply eqs_false_iff in E.
    destruct (HasPrefix pattern (str "*.")) eqn:Ep.
    + apply HasPrefix_spec in Ep. destruct Ep as (rest & ->).
      cbn [str app skipn]. rewrite HasSuffix_spec. split.
      * intros (pre & H). right. exists rest, pre. split; [reflexivity|exact H].
      * intros [H|(rest' & pre & Er & H)]; [contradiction|].
        injection Er as <-. exists pre. exact H.
    + split; [discriminate|]. intros [H|(rest & pre & Er & H)]; [contradiction|].
      exfalso. apply not_true_iff_false in Ep. apply Ep. apply HasPrefix_spec.
      exists rest. exact Er.
Qed.

Lemma lastIndexOf_none (c : ascii) (s : list ascii) :
  ~ In c s -> lastIndexOf c s = None.
Proof.
  induction s as [|a t IH]; intros H; [reflexivity|].
  simpl. rewrite IH by (intros Hin; apply H; right; exact Hin).
  destruct (Ascii.eqb a c) eqn:E; [|reflexivity].
  apply Ascii.eqb_eq in E. exfalso. apply H. left. exact E.
Qed.

Lemma hostWithoutPort_plain (host : list ascii) :
  ~ In colon host -> hostWithoutPort host = host.
Proof. intros H. unfold hostWithoutPort. rewrite (lastIndexOf_none _ _ H). reflexivity. Qed.

Lemma ToLower_app (a b : list ascii) : ToLower (a ++ b) = ToLower a ++ ToLower b.
Proof. apply map_app. Qed.

(* a request host that EnforceHost lets through is on the allow-list that
   the configuration derives from the same allowed hosts *)
Lemma enforced_host_allowed (allowedHosts : list (list ascii)) (host : list ascii) :
  allowedHosts <> [] ->
  EnforceHost allowedHosts host = None ->
  (~ In colon host -> allowedHost (extractDomains allowedHosts) host)
  /\ (In host allowedHosts ->
      allowedHost (extractDomains allowedHosts) (hostWithoutPort host)).
Proof.
  intros Hne Hpass. split.
  - intros Hcolon. unfold EnforceHost in Hpass.
    destruct allowedHosts as [|p0 l]; [contradiction|]. cbn [length Nat.eqb] in Hpass.
    destruct (existsb (matchHost host) (p0 :: l)) eqn:Ex; [|discriminate].
    apply existsb_exists in Ex. destruct Ex as (pattern & Hin & Hm).
    apply matchHost_spec in Hm. destruct Hm as [<-|(rest & pre & -> & ->)].
    + exists host. split; [|left; reflexivity].
      apply extractDomains_In. exists host. split; [exact Hin|]. left.
      symmetry. apply hostWithoutPort_plain, Hcolon.
    + exists rest. split.
      * apply extractDomains_In. exists (str "*." ++ rest). split; [exact Hin|].
        right. exists [("*")%char]. split.
        -- intros [H|[]]. discriminate.
        -- apply hostWithoutPort_plain. intros [H|[H|H]]; try discriminate.
           apply Hcolon, in_or_app. right. right. exact H.
      * right. exists (ToLower pre). rewrite ToLower_app. reflexivity.
  - intros Hin. exists (hostWithoutPort host). split; [|left; reflexivity].
    apply extractDomains_In. exists host. split; [exact Hin|left; reflexivity].
Qed.

(* http.Redirect leaves a url with a scheme as it is *)
Lemma Location_with_scheme (parsesAsPath : list ascii -> bool)
      (oldpath url scheme rest : list ascii) :
  NetHTTP.getScheme (NetHTTP.beforeFragment url) = Some (scheme, rest) ->
  scheme <> [] ->
  NetHTTP.Location parsesAsPath oldpath url = NetHTTP.hexEscapeNonASCII url.
Proof.
  intros E Hs. unfold NetHTTP.Location, NetHTTP.relative. rewrite E.
  destruct scheme; [contradiction|reflexivity].
Qed.

Lemma beforeFragment_https (h : list ascii) :
  NetHTTP.beforeFragment (https h) = https (NetHTTP.beforeFragment h).
Proof.
  unfold NetHTTP.beforeFragment, https. cbn [str list_ascii_of_string app].
  cbn [indexFrom HasPrefix Ascii.eqb Bool.eqb andb].
  destruct (indexFrom h [("#")%char]); reflexivity.
Qed.

Lemma getScheme_https (h : list ascii) :
  NetHTTP.getScheme (NetHTTP.beforeFragment (https h))
  = Some (str "https", str "//" ++ NetHTTP.beforeFragment h).
Proof. rewrite beforeFragment_https. reflexivity. Qed.

Lemma Location_https (parsesAsPath : list ascii -> bool) (oldpath h : list ascii) :
  NetHTTP.Location parsesAsPath oldpath (https h) = NetHTTP.hexEscapeNonASCII (https h).
Proof.
  apply (Location_with_scheme _ _ _ _ _ (getScheme_https h)). discriminate.
Qed.

Lemma hexEscapeNonASCII_ascii7 (s : list ascii) :
  ascii7 s -> NetHTTP.hexEscapeNonASCII s = s.
Proof.
  unfold ascii7, NetHTTP.hexEscapeNonASCII.
  induction 1 as [|c t Hc _ IH]; [reflexivity|].
  cbn [flat_map]. rewrite IH.
  replace (byteOf c <? RuneSelf)%N with true by (symmetry; apply N.ltb_lt; exact Hc).
  reflexivity.
Qed.

(* a home URL or a bookmark url without scheme is answered as a path on the
   resolver's own host *)
Lemma Location_without_scheme :
  NetHTTP.Location (fun _ => true) (str "/search") (str "home") = str "/home"
  /\ NetHTTP.Location (fun _ => true) (str "/search") (str "chat.openai.com/")
     = str "/chat.openai.com/"
  /\ NetHTTP.Location (fun _ => true) (str "/search") (str "../a/./b?x=/../") 
     = str "/a/b?x=/../".
Proof. vm_compute. repeat split. Qed.

(* with no allowed hosts the route lets every request host through and the
   allow-list is empty *)
Lemma passthrough_internal_redirect :
  let d := mkDeps (str "https://home.example.com") (extractDomains []) false 3
                  (fun _ => true) in
  let r := mkRequest (str "/infra") (str "evil.test") in
  EnforceHost [] (Host r) = None
  /\ fst (Search d 0 r (mkWorld NewMemoryIndex emptyStore))
     = Redirect (str "https://evil.test/infra")
  /\ isAllowedRedirect (Host r) (AllowedDomains d) = false.
Proof. vm_compute. repeat split. Qed.


